(** * AutoWechatCrawler: account status, compensation backlog, round
      orchestration and proxy lease

    A shallow embedding of
      - [src/database/account_status_manager.py] (class AccountStatusManager),
      - [loop_crawler.py] (LoopCrawler.run_one_round, LoopCrawler._run_cmd,
        LoopCrawler._is_full_success),
      - [src/core/enhanced_proxy_manager.py] (the proxy-pool part of
        EnhancedProxyManager),
    together with the properties stated about them. *)

From stdpp Require Import gmap strings list fin_maps sorting.
From Stdlib Require Import ZArith Lia.

Local Open Scope Z_scope.

(** ** Time

    [datetime.now()] is a count of microseconds; [.date()] is the day it
    falls in.  [timedelta(seconds=n)] is [n] seconds. *)

Definition microseconds_per_second : Z := 1000000.
Definition timedelta_seconds (n : Z) : Z := n * microseconds_per_second.
Definition timedelta_days (n : Z) : Z := timedelta_seconds (n * 86400).
Definition date_of (t : Z) : Z := t / timedelta_days 1.

(** ** The persisted tables

    The methods of AccountStatusManager are modelled on a live connection
    ([is_connected()] holds); a statement raises only where that is said.
    Each returns its [bool] result and the tables it leaves. *)

Module Store.

(** Values written to [fx_account_status.status] by this repository.
    ([ACTIVE] is written by [update_last_crawl_time].) *)
Inductive Status :=
  | PENDING | PROCESSING | COMPLETED | EXCEPTION | FAILED | RETRYING | ACTIVE.

#[global] Instance Status_eq_dec : EqDecision Status.
Proof. solve_decision. Defined.

Definition status_name (s : Status) : string :=
  match s with
  | PENDING => "PENDING" | PROCESSING => "PROCESSING"
  | COMPLETED => "COMPLETED" | EXCEPTION => "EXCEPTION"
  | FAILED => "FAILED" | RETRYING => "RETRYING" | ACTIVE => "ACTIVE"
  end.

(** One row of [fx_account_status]; the key [account_id] is the key of the
    map holding the rows.  Nullable columns are options. *)
Record AccountStatus := mkAccountStatus {
  account_name : string;
  status : Status;
  last_update_time : Z;
  retry_count : Z;
  last_exception_msg : option string;
  next_retry_time : option Z;
  compensation_priority : option Z;
  consecutive_failures : option Z;
  last_failed_date : option Z;
  failed_reason_backup : option string;
  create_time : Z;
  update_time : Z
}.

#[global] Instance AccountStatus_eq_dec : EqDecision AccountStatus.
Proof. solve_decision. Defined.

Inductive CompensationStatus := COMP_PENDING | COMP_COMPLETED | COMP_FAILED.

#[global] Instance CompensationStatus_eq_dec : EqDecision CompensationStatus.
Proof. solve_decision. Defined.

(** One row of [fx_compensation_history], without its key columns. *)
Record CompensationRecord := mkCompensationRecord {
  h_account_name : string;
  failure_reason : option string;
  compensation_status : CompensationStatus;
  compensation_date : option Z;
  h_create_time : Z;
  h_update_time : Z
}.

#[global] Instance CompensationRecord_eq_dec : EqDecision CompensationRecord.
Proof. solve_decision. Defined.

Inductive LedgerStatus := finished | unfinished.

#[global] Instance LedgerStatus_eq_dec : EqDecision LedgerStatus.
Proof. solve_decision. Defined.

(** One row of [fx_crawl_exception]. *)
Record CrawlExceptionEvent := mkCrawlExceptionEvent {
  finished_date : Z;
  ev_status : LedgerStatus;
  e_create_time : Z;
  e_update_time : Z
}.

(** Modelled from the spec: the table declarations are not part of the
    sources.  [fx_account_status] is keyed by [account_id];
    [fx_compensation_history] has the unique key [(account_id, failed_date)]
    that [ON DUPLICATE KEY UPDATE] relies on, and its two timestamp columns
    default to the statement's time; [fx_crawl_exception] is append-only, in
    insertion order. *)
Record DB := mkDB {
  fx_account_status : gmap string AccountStatus;
  fx_compensation_history : gmap (string * Z) CompensationRecord;
  fx_crawl_exception : list CrawlExceptionEvent
}.

(** *** SQL helpers *)

(** [status IN ('EXCEPTION', 'FAILED')] *)
Definition in_exception_or_failed (s : Status) : bool :=
  match s with EXCEPTION | FAILED => true | _ => false end.

(** [status IN ('EXCEPTION', 'FAILED', 'RETRYING')] *)
Definition in_exception_failed_retrying (s : Status) : bool :=
  match s with EXCEPTION | FAILED | RETRYING => true | _ => false end.

(** [d IS NULL OR d < current_date] *)
Definition null_or_before (d : option Z) (current_date : Z) : bool :=
  match d with None => true | Some d' => d' <? current_date end.

(** [COALESCE(x, 0)] *)
Definition coalesce0 (x : option Z) : Z := default 0 x.

(** A single-table [UPDATE t SET ... WHERE c]: every row satisfying [c]
    (which may read the key columns) is rewritten by [set]; the statement's
    result is the number of rows whose contents changed. *)
Definition sql_update {K} `{Countable K} {V} (c : K → V → bool) (set : V → V)
    (t : gmap K V) : gmap K V :=
  map_imap (λ k r, Some (if c k r then set r else r)) t.

Definition sql_affected {K} `{Countable K} {V} `{EqDecision V}
    (c : K → V → bool) (set : V → V) (t : gmap K V) : Z :=
  Z.of_nat (length (filter (λ kv, c kv.1 kv.2 = true ∧ set kv.2 ≠ kv.2) (map_to_list t))).

(** *** reset_all_accounts_to_pending, step 2a

    [update_compensation_sql].  The store is MySQL (pymysql,
    [ON DUPLICATE KEY UPDATE], [CURDATE() - INTERVAL n DAY]).  There the
    assignments of a single-table UPDATE are evaluated from left to right,
    and an expression reads the value a column has at that point
    ([UPDATE t SET c1 = c1 + 1, c2 = c1] leaves [c1] and [c2] equal).  So the
    [CASE] of [consecutive_failures], fourth in the [SET] list, reads the
    [last_failed_date] that the second assignment has just stored; the
    other three right-hand sides read columns no earlier assignment
    touches. *)
Definition update_compensation_set (current_date : Z) (r : AccountStatus)
    : AccountStatus :=
  let failed_reason_backup' :=
    if in_exception_or_failed (status r) && bool_decide (is_Some (last_exception_msg r))
    then last_exception_msg r else failed_reason_backup r in
  let last_failed_date' :=
    if in_exception_or_failed (status r) && null_or_before (last_failed_date r) current_date
    then Some current_date else last_failed_date r in
  let compensation_priority' :=
    if in_exception_or_failed (status r) then Some 1
    else if bool_decide (status r = RETRYING) then Some 1
    else compensation_priority r in
  let consecutive_failures' :=
    if in_exception_or_failed (status r) && null_or_before last_failed_date' current_date
    then Some (coalesce0 (consecutive_failures r) + 1)
    else if bool_decide (status r = COMPLETED) then Some 0
    else consecutive_failures r in
  {| account_name := account_name r;
     status := status r;
     last_update_time := last_update_time r;
     retry_count := retry_count r;
     last_exception_msg := last_exception_msg r;
     next_retry_time := next_retry_time r;
     compensation_priority := compensation_priority';
     consecutive_failures := consecutive_failures';
     last_failed_date := last_failed_date';
     failed_reason_backup := failed_reason_backup';
     create_time := create_time r;
     update_time := update_time r |}.

(** The same statement read with all right-hand sides evaluated on the row
    as it was before the statement (standard SQL; what the repeated
    condition in the statement's text suggests).  Kept only for comparison
    with [update_compensation_set]. *)
Definition update_compensation_set_simultaneous (current_date : Z)
    (r : AccountStatus) : AccountStatus :=
  let failed_reason_backup' :=
    if in_exception_or_failed (status r) && bool_decide (is_Some (last_exception_msg r))
    then last_exception_msg r else failed_reason_backup r in
  let last_failed_date' :=
    if in_exception_or_failed (status r) && null_or_before (last_failed_date r) current_date
    then Some current_date else last_failed_date r in
  let compensation_priority' :=
    if in_exception_or_failed (status r) then Some 1
    else if bool_decide (status r = RETRYING) then Some 1
    else compensation_priority r in
  let consecutive_failures' :=
    if in_exception_or_failed (status r) && null_or_before (last_failed_date r) current_date
    then Some (coalesce0 (consecutive_failures r) + 1)
    else if bool_decide (status r = COMPLETED) then Some 0
    else consecutive_failures r in
  {| account_name := account_name r;
     status := status r;
     last_update_time := last_update_time r;
     retry_count := retry_count r;
     last_exception_msg := last_exception_msg r;
     next_retry_time := next_retry_time r;
     compensation_priority := compensation_priority';
     consecutive_failures := consecutive_failures';
     last_failed_date := last_failed_date';
     failed_reason_backup := failed_reason_backup';
     create_time := create_time r;
     update_time := update_time r |}.

(** *** reset_all_accounts_to_pending, step 2b: [reset_status_sql] *)
Definition not_pending (_ : string) (r : AccountStatus) : bool :=
  negb (bool_decide (status r = PENDING)).

(** [WHERE status IN ('EXCEPTION', 'FAILED', 'RETRYING')] *)
Definition needs_compensation_update (_ : string) (r : AccountStatus) : bool :=
  in_exception_failed_retrying (status r).

Definition reset_status_set (current_time : Z) (r : AccountStatus)
    : AccountStatus :=
  {| account_name := account_name r;
     status := PENDING;
     last_update_time := current_time;
     retry_count := retry_count r;
     last_exception_msg := None;
     next_retry_time := None;
     compensation_priority := compensation_priority r;
     consecutive_failures := consecutive_failures r;
     last_failed_date := last_failed_date r;
     failed_reason_backup := failed_reason_backup r;
     create_time := create_time r;
     update_time := current_time |}.

(** *** _record_failed_accounts_for_compensation *)

(** [account['last_exception_msg'] or f"状态异常: {account['status']}"] *)
Definition failure_reason_of (r : AccountStatus) : string :=
  match last_exception_msg r with
  | Some m => if bool_decide (m = "") then "状态异常: " +:+ status_name (status r) else m
  | None => "状态异常: " +:+ status_name (status r)
  end.

(** [INSERT ... VALUES (id, name, date, reason, 'PENDING')
     ON DUPLICATE KEY UPDATE failure_reason = VALUES(failure_reason),
                             update_time = CURRENT_TIMESTAMP] *)
Definition upsert_row (now : Z) (name reason : string)
    (existing : option CompensationRecord) : CompensationRecord :=
  match existing with
  | Some old =>
      {| h_account_name := h_account_name old;
         failure_reason := Some reason;
         compensation_status := compensation_status old;
         compensation_date := compensation_date old;
         h_create_time := h_create_time old;
         h_update_time := now |}
  | None =>
      {| h_account_name := name;
         failure_reason := Some reason;
         compensation_status := COMP_PENDING;
         compensation_date := None;
         h_create_time := now;
         h_update_time := now |}
  end.

Definition upsert_pending (now : Z) (account_id : string) (name : string)
    (failed_date : Z) (reason : string)
    (t : gmap (string * Z) CompensationRecord)
    : gmap (string * Z) CompensationRecord :=
  <[(account_id, failed_date) :=
      upsert_row now name reason (t !! (account_id, failed_date))]> t.

(** The SELECT of the failed accounts, then [executemany] over them. *)
Definition failed_accounts (accounts : gmap string AccountStatus)
    : list (string * AccountStatus) :=
  filter (λ kv, in_exception_or_failed (status kv.2) = true) (map_to_list accounts).

(** One element of [insert_data], executed. *)
Definition insert_failed_account (now current_date : Z)
    (t : gmap (string * Z) CompensationRecord) (account : string * AccountStatus)
    : gmap (string * Z) CompensationRecord :=
  upsert_pending now account.1 (account_name account.2) current_date
                 (failure_reason_of account.2) t.

Definition _record_failed_accounts_for_compensation (now current_date : Z)
    (db : DB) : bool * DB :=
  let failed := failed_accounts (fx_account_status db) in
  match failed with
  | [] => (true, db)
  | _ =>
      (true,
       {| fx_account_status := fx_account_status db;
          fx_compensation_history :=
            foldl (insert_failed_account now current_date)
                  (fx_compensation_history db) failed;
          fx_crawl_exception := fx_crawl_exception db |})
  end.

Definition record_current_failures_to_compensation (now : Z) (db : DB)
    : bool * DB :=
  _record_failed_accounts_for_compensation now (date_of now) db.

(** *** reset_all_accounts_to_pending

    The flush of the failed accounts, then the two UPDATE statements; both
    branches on [total_affected] return [True]. *)
Definition reset_all_accounts_to_pending (current_time : Z) (db : DB)
    : bool * DB :=
  let current_date := date_of current_time in
  let db1 := (_record_failed_accounts_for_compensation current_time current_date db).2 in
  let compensation_affected :=
    sql_affected needs_compensation_update
                 (update_compensation_set current_date) (fx_account_status db1) in
  let accounts2 :=
    sql_update needs_compensation_update
               (update_compensation_set current_date) (fx_account_status db1) in
  let status_affected :=
    sql_affected not_pending (reset_status_set current_time) accounts2 in
  let accounts3 := sql_update not_pending (reset_status_set current_time) accounts2 in
  let total_affected := compensation_affected + status_affected in
  let db' := {| fx_account_status := accounts3;
                fx_compensation_history := fx_compensation_history db1;
                fx_crawl_exception := fx_crawl_exception db1 |} in
  if 0 <? total_affected then (true, db') else (true, db').

(** The two UPDATE statements of the reset, one after the other, on one
    row. *)
Definition reset_row (current_time : Z) (r : AccountStatus) : AccountStatus :=
  let r1 := if in_exception_failed_retrying (status r)
            then update_compensation_set (date_of current_time) r else r in
  if negb (bool_decide (status r1 = PENDING))
  then reset_status_set current_time r1 else r1.

(** *** mark_compensation_completed *)

(** [SET compensation_priority = 0, consecutive_failures = 0,
         last_update_time = %s, update_time = %s] *)
Definition clear_compensation_set (current_time : Z) (r : AccountStatus)
    : AccountStatus :=
  {| account_name := account_name r;
     status := status r;
     last_update_time := current_time;
     retry_count := retry_count r;
     last_exception_msg := last_exception_msg r;
     next_retry_time := next_retry_time r;
     compensation_priority := Some 0;
     consecutive_failures := Some 0;
     last_failed_date := last_failed_date r;
     failed_reason_backup := failed_reason_backup r;
     create_time := create_time r;
     update_time := current_time |}.

(** [WHERE account_id = %s AND compensation_status = 'PENDING'
      AND failed_date >= CURDATE() - INTERVAL 7 DAY] *)
Definition pending_in_window (account_id : string) (curdate : Z)
    (k : string * Z) (h : CompensationRecord) : bool :=
  bool_decide (k.1 = account_id)
  && bool_decide (compensation_status h = COMP_PENDING)
  && (curdate - 7 <=? k.2).

Definition history_completed_set (current_date current_time : Z)
    (h : CompensationRecord) : CompensationRecord :=
  {| h_account_name := h_account_name h;
     failure_reason := failure_reason h;
     compensation_status := COMP_COMPLETED;
     compensation_date := Some current_date;
     h_create_time := h_create_time h;
     h_update_time := current_time |}.

(** [CURDATE()] is taken on the same clock as [datetime.now()]. *)
Definition mark_compensation_completed (current_time : Z) (account_id : string)
    (db : DB) : bool * DB :=
  let current_date := date_of current_time in
  (true,
   {| fx_account_status :=
        sql_update (λ k _, bool_decide (k = account_id))
                   (clear_compensation_set current_time) (fx_account_status db);
      fx_compensation_history :=
        sql_update (pending_in_window account_id current_date)
                   (history_completed_set current_date current_time)
                   (fx_compensation_history db);
      fx_crawl_exception := fx_crawl_exception db |}).

(** *** mark_compensation_failed *)

(** [SET compensation_status = 'FAILED', update_time = %s,
         failure_reason = COALESCE(%s, failure_reason)] *)
Definition history_failed_set (current_time : Z) (reason : option string)
    (h : CompensationRecord) : CompensationRecord :=
  {| h_account_name := h_account_name h;
     failure_reason := match reason with Some x => Some x | None => failure_reason h end;
     compensation_status := COMP_FAILED;
     compensation_date := compensation_date h;
     h_create_time := h_create_time h;
     h_update_time := current_time |}.

(** When the UPDATE changes no row, a FAILED row for today is inserted from
    the account's row (nothing when the account has none).  That INSERT has
    no [ON DUPLICATE KEY] clause: on an existing [(account_id, today)] key it
    raises, which the method reports as [False]. *)
Definition mark_compensation_failed (current_time : Z) (account_id : string)
    (reason : option string) (db : DB) : bool * DB :=
  let current_date := date_of current_time in
  let c := pending_in_window account_id current_date in
  let affected := sql_affected c (history_failed_set current_time reason)
                               (fx_compensation_history db) in
  let history1 := sql_update c (history_failed_set current_time reason)
                             (fx_compensation_history db) in
  if bool_decide (affected = 0) then
    match fx_account_status db !! account_id with
    | None => (true, db)
    | Some s =>
        match fx_compensation_history db !! (account_id, current_date) with
        | Some _ => (false, db)
        | None =>
            (true,
             {| fx_account_status := fx_account_status db;
                fx_compensation_history :=
                  <[(account_id, current_date) :=
                      {| h_account_name := account_name s;
                         failure_reason := reason;
                         compensation_status := COMP_FAILED;
                         compensation_date := None;
                         h_create_time := current_time;
                         h_update_time := current_time |}]> history1;
                fx_crawl_exception := fx_crawl_exception db |})
        end
    end
  else
    (true,
     {| fx_account_status := fx_account_status db;
        fx_compensation_history := history1;
        fx_crawl_exception := fx_crawl_exception db |}).

(** *** The crawl-exception ledger *)

Definition ledger_append (current_time : Z) (st : LedgerStatus) (db : DB) : DB :=
  {| fx_account_status := fx_account_status db;
     fx_compensation_history := fx_compensation_history db;
     fx_crawl_exception :=
       fx_crawl_exception db ++
       [ {| finished_date := current_time; ev_status := st;
            e_create_time := current_time; e_update_time := current_time |} ] |}.

Definition resolve_crawl_exception (current_time : Z) (db : DB) : bool * DB :=
  (true, ledger_append current_time finished db).

Definition mark_crawl_unfinished (current_time : Z) (db : DB) : bool * DB :=
  (true, ledger_append current_time unfinished db).

(** *** initialize_account_status

    The columns the INSERT does not name take the table's defaults;
    [defaults] carries them (the table declaration is not in the sources). *)
Definition initialize_account_status (defaults : AccountStatus)
    (current_time : Z) (account_id name : string) (db : DB) : bool * DB :=
  match fx_account_status db !! account_id with
  | Some _ => (true, db)
  | None =>
      (true,
       {| fx_account_status :=
            <[account_id :=
                {| account_name := name;
                   status := PENDING;
                   last_update_time := current_time;
                   retry_count := 0;
                   last_exception_msg := last_exception_msg defaults;
                   next_retry_time := next_retry_time defaults;
                   compensation_priority := compensation_priority defaults;
                   consecutive_failures := consecutive_failures defaults;
                   last_failed_date := last_failed_date defaults;
                   failed_reason_backup := failed_reason_backup defaults;
                   create_time := current_time;
                   update_time := current_time |}]> (fx_account_status db);
          fx_compensation_history := fx_compensation_history db;
          fx_crawl_exception := fx_crawl_exception db |})
  end.

(** *** The single-row updates

    [UPDATE fx_account_status SET ... WHERE account_id = %s], then
    [if affected: return True / else: return False]. *)
Definition where_account_id (account_id : string) (k : string)
    (_ : AccountStatus) : bool :=
  bool_decide (k = account_id).

Definition update_account_row (set : AccountStatus → AccountStatus)
    (account_id : string) (db : DB) : bool * DB :=
  let affected := sql_affected (where_account_id account_id) set (fx_account_status db) in
  (negb (bool_decide (affected = 0)),
   {| fx_account_status :=
        sql_update (where_account_id account_id) set (fx_account_status db);
      fx_compensation_history := fx_compensation_history db;
      fx_crawl_exception := fx_crawl_exception db |}).

(** update_account_status: [last_exception_msg] is assigned only when an
    [exception_msg] is passed. *)
Definition update_status_set (new_status : Status) (exception_msg : option string)
    (current_time : Z) (r : AccountStatus) : AccountStatus :=
  {| account_name := account_name r;
     status := new_status;
     last_update_time := current_time;
     retry_count := retry_count r;
     last_exception_msg :=
       match exception_msg with Some m => Some m | None => last_exception_msg r end;
     next_retry_time := next_retry_time r;
     compensation_priority := compensation_priority r;
     consecutive_failures := consecutive_failures r;
     last_failed_date := last_failed_date r;
     failed_reason_backup := failed_reason_backup r;
     create_time := create_time r;
     update_time := current_time |}.

Definition update_account_status (current_time : Z) (account_id : string)
    (new_status : Status) (exception_msg : option string) (db : DB) : bool * DB :=
  update_account_row (update_status_set new_status exception_msg current_time)
                     account_id db.

(** increment_retry_count *)
Definition increment_retry_set (current_time : Z) (r : AccountStatus)
    : AccountStatus :=
  {| account_name := account_name r;
     status := status r;
     last_update_time := last_update_time r;
     retry_count := retry_count r + 1;
     last_exception_msg := last_exception_msg r;
     next_retry_time := next_retry_time r;
     compensation_priority := compensation_priority r;
     consecutive_failures := consecutive_failures r;
     last_failed_date := last_failed_date r;
     failed_reason_backup := failed_reason_backup r;
     create_time := create_time r;
     update_time := current_time |}.

Definition increment_retry_count (current_time : Z) (account_id : string)
    (db : DB) : bool * DB :=
  update_account_row (increment_retry_set current_time) account_id db.

(** set_next_retry_time *)
Definition next_retry_set (retry_time current_time : Z) (r : AccountStatus)
    : AccountStatus :=
  {| account_name := account_name r;
     status := status r;
     last_update_time := last_update_time r;
     retry_count := retry_count r;
     last_exception_msg := last_exception_msg r;
     next_retry_time := Some retry_time;
     compensation_priority := compensation_priority r;
     consecutive_failures := consecutive_failures r;
     last_failed_date := last_failed_date r;
     failed_reason_backup := failed_reason_backup r;
     create_time := create_time r;
     update_time := current_time |}.

Definition set_next_retry_time (current_time : Z) (account_id : string)
    (retry_time : Z) (db : DB) : bool * DB :=
  update_account_row (next_retry_set retry_time current_time) account_id db.

(** reset_account_for_retry: RETRYING, one more retry, the next one five
    minutes from now. *)
Definition retry_set (exception_msg : option string) (current_time : Z)
    (r : AccountStatus) : AccountStatus :=
  {| account_name := account_name r;
     status := RETRYING;
     last_update_time := current_time;
     retry_count := retry_count r + 1;
     last_exception_msg :=
       match exception_msg with Some m => Some m | None => last_exception_msg r end;
     next_retry_time := Some (current_time + timedelta_seconds (5 * 60));
     compensation_priority := compensation_priority r;
     consecutive_failures := consecutive_failures r;
     last_failed_date := last_failed_date r;
     failed_reason_backup := failed_reason_backup r;
     create_time := create_time r;
     update_time := current_time |}.

Definition reset_account_for_retry (current_time : Z) (account_id : string)
    (exception_msg : option string) (db : DB) : bool * DB :=
  update_account_row (retry_set exception_msg current_time) account_id db.

(** update_last_crawl_time *)
Definition last_crawl_set (current_time : Z) (r : AccountStatus) : AccountStatus :=
  {| account_name := account_name r;
     status := ACTIVE;
     last_update_time := current_time;
     retry_count := retry_count r;
     last_exception_msg := last_exception_msg r;
     next_retry_time := next_retry_time r;
     compensation_priority := compensation_priority r;
     consecutive_failures := consecutive_failures r;
     last_failed_date := last_failed_date r;
     failed_reason_backup := failed_reason_backup r;
     create_time := create_time r;
     update_time := current_time |}.

Definition update_last_crawl_time (current_time : Z) (account_id : string)
    (db : DB) : bool * DB :=
  update_account_row (last_crawl_set current_time) account_id db.

(** record_crawl_exception and clear_crawl_exception write nothing. *)
Definition record_crawl_exception (db : DB) : bool * DB := (true, db).
Definition clear_crawl_exception (db : DB) : bool * DB := (true, db).

(** *** The read-only queries *)

Definition get_account_status (account_id : string) (db : DB)
    : option AccountStatus :=
  fx_account_status db !! account_id.

Definition get_all_accounts_by_status (s : Status) (db : DB)
    : list (string * AccountStatus) :=
  filter (λ kv, status kv.2 = s) (map_to_list (fx_account_status db)).

(** get_accounts_summary: [GROUP BY status ORDER BY status] yields one row
    per status that has rows; the loop copies them into the dict and sums
    them into ['TOTAL']. *)
Definition statuses_in_order : list Status :=
  [ACTIVE; COMPLETED; EXCEPTION; FAILED; PENDING; PROCESSING; RETRYING].

Definition status_count (accounts : gmap string AccountStatus) (s : Status) : Z :=
  Z.of_nat (length (filter (λ kv, status kv.2 = s) (map_to_list accounts))).

Definition summary_rows (accounts : gmap string AccountStatus)
    : list (Status * Z) :=
  filter (λ row, 0 < row.2)
         ((λ s, (s, status_count accounts s)) <$> statuses_in_order).

Definition get_accounts_summary (db : DB) : gmap string Z :=
  let acc :=
    foldl (λ (acc : gmap string Z * Z) (row : Status * Z),
             (<[status_name row.1 := row.2]> acc.1, acc.2 + row.2))
          (∅, 0) (summary_rows (fx_account_status db)) in
  <["TOTAL" := acc.2]> acc.1.

(** *** get_pending_compensation_accounts *)

(** [WHERE compensation_status = 'PENDING'] *)
Definition pending_rows (history : gmap (string * Z) CompensationRecord)
    : list (string * Z * CompensationRecord) :=
  filter (λ kv, compensation_status kv.2 = COMP_PENDING) (map_to_list history).

(** [GROUP BY account_id, account_name] with [MIN(failed_date)] and
    [MAX(update_time)]: the groups, each with its two aggregates. *)
Definition add_to_group (groups : gmap (string * string) (Z * Z))
    (kv : string * Z * CompensationRecord) : gmap (string * string) (Z * Z) :=
  let key := (kv.1.1, h_account_name kv.2) in
  match groups !! key with
  | None => <[key := (kv.1.2, h_update_time kv.2)]> groups
  | Some agg =>
      <[key := (Z.min agg.1 kv.1.2, Z.max agg.2 (h_update_time kv.2))]> groups
  end.

Definition pending_groups (history : gmap (string * Z) CompensationRecord)
    : gmap (string * string) (Z * Z) :=
  foldl add_to_group ∅ (pending_rows history).

(** [ORDER BY first_failed_date ASC, last_update DESC] *)
Definition group_order (x y : string * string * (Z * Z)) : Prop :=
  x.2.1 < y.2.1 ∨ (x.2.1 = y.2.1 ∧ y.2.2 ≤ x.2.2).

#[global] Instance group_order_dec x y : Decision (group_order x y).
Proof. unfold group_order. apply _. Defined.

(** Groups that tie on both sort keys come in an order the server chooses,
    anew for each statement.  [tie] is the choice made for one statement: a
    rank the server gives to each group, consulted only between groups
    that tie.  Every order a server can return is that of some [tie] (rank
    each group by its place in the result). *)
Definition served_order (tie : string * string → Z)
    (x y : string * string * (Z * Z)) : Prop :=
  x.2.1 < y.2.1 ∨
  (x.2.1 = y.2.1 ∧ (y.2.2 < x.2.2 ∨ (y.2.2 = x.2.2 ∧ tie x.1 ≤ tie y.1))).

#[global] Instance served_order_dec tie x y : Decision (served_order tie x y).
Proof. unfold served_order. apply _. Defined.

(** The groups as one statement returns them. *)
Definition ordered_pending_groups (tie : string * string → Z)
    (history : gmap (string * Z) CompensationRecord)
    : list (string * string * (Z * Z)) :=
  merge_sort (served_order tie) (map_to_list (pending_groups history)).

(** [limit = 0] (or negative) means no [LIMIT]; the result keeps
    [account_id] and [account_name] only.  [tie] is the server's choice
    for this statement. *)
Definition get_pending_compensation_accounts (tie : string * string → Z)
    (limit : Z) (db : DB) : list (string * string) :=
  let groups := ordered_pending_groups tie (fx_compensation_history db) in
  fst <$> (if 0 <? limit then take (Z.to_nat limit) groups else groups).

(** *** Sequences of calls

    The methods that write to the store, each call with the instant
    [datetime.now()] gives it, and a client making any sequence of them. *)
Inductive StoreCall :=
  | InitializeAccountStatus (account_id name : string)
  | UpdateAccountStatus (account_id : string) (new_status : Status)
                        (exception_msg : option string)
  | IncrementRetryCount (account_id : string)
  | SetNextRetryTime (account_id : string) (retry_time : Z)
  | ResetAccountForRetry (account_id : string) (exception_msg : option string)
  | UpdateLastCrawlTime (account_id : string)
  | RecordCrawlException
  | ClearCrawlException
  | ResolveCrawlException
  | MarkCrawlUnfinished
  | MarkCompensationCompleted (account_id : string)
  | MarkCompensationFailed (account_id : string) (reason : option string)
  | RecordCurrentFailuresToCompensation
  | ResetAllAccountsToPending.

Definition run_call (defaults : AccountStatus) (now : Z) (c : StoreCall)
    (db : DB) : DB :=
  match c with
  | InitializeAccountStatus a n => (initialize_account_status defaults now a n db).2
  | UpdateAccountStatus a s m => (update_account_status now a s m db).2
  | IncrementRetryCount a => (increment_retry_count now a db).2
  | SetNextRetryTime a t => (set_next_retry_time now a t db).2
  | ResetAccountForRetry a m => (reset_account_for_retry now a m db).2
  | UpdateLastCrawlTime a => (update_last_crawl_time now a db).2
  | RecordCrawlException => (record_crawl_exception db).2
  | ClearCrawlException => (clear_crawl_exception db).2
  | ResolveCrawlException => (resolve_crawl_exception now db).2
  | MarkCrawlUnfinished => (mark_crawl_unfinished now db).2
  | MarkCompensationCompleted a => (mark_compensation_completed now a db).2
  | MarkCompensationFailed a r => (mark_compensation_failed now a r db).2
  | RecordCurrentFailuresToCompensation =>
      (record_current_failures_to_compensation now db).2
  | ResetAllAccountsToPending => (reset_all_accounts_to_pending now db).2
  end.

Definition run_calls (defaults : AccountStatus) (calls : list (Z * StoreCall))
    (db : DB) : DB :=
  foldl (λ d c, run_call defaults c.1 c.2 d) db calls.

(** The ledger row a call appends, if it appends one. *)
Definition ledger_entry_of (c : Z * StoreCall) : option CrawlExceptionEvent :=
  match c.2 with
  | ResolveCrawlException =>
      Some {| finished_date := c.1; ev_status := finished;
              e_create_time := c.1; e_update_time := c.1 |}
  | MarkCrawlUnfinished =>
      Some {| finished_date := c.1; ev_status := unfinished;
              e_create_time := c.1; e_update_time := c.1 |}
  | _ => None
  end.

(** What a later state of an account's row keeps of an earlier one. *)
Definition row_evolves (r r' : AccountStatus) : Prop :=
  account_name r' = account_name r ∧
  create_time r' = create_time r ∧
  retry_count r ≤ retry_count r'.

(** What a later state of a compensation record keeps of an earlier one. *)
Definition record_evolves (h h' : CompensationRecord) : Prop :=
  h_account_name h' = h_account_name h ∧
  h_create_time h' = h_create_time h ∧
  (compensation_status h ≠ COMP_PENDING →
   compensation_status h' = compensation_status h ∧
   compensation_date h' = compensation_date h).

(** The group a PENDING row falls in, and what [MIN(failed_date)] and
    [MAX(update_time)] of a group are over a list of rows: [None] when no
    row falls in the group. *)
Definition group_key (kv : string * Z * CompensationRecord) : string * string :=
  (kv.1.1, h_account_name kv.2).

Definition is_aggregate (rows : list (string * Z * CompensationRecord))
    (key : string * string) (agg : option (Z * Z)) : Prop :=
  match agg with
  | None => ∀ kv, kv ∈ rows → group_key kv ≠ key
  | Some a =>
      (∃ kv, kv ∈ rows ∧ group_key kv = key ∧ kv.1.2 = a.1) ∧
      (∃ kv, kv ∈ rows ∧ group_key kv = key ∧ h_update_time kv.2 = a.2) ∧
      (∀ kv, kv ∈ rows → group_key kv = key →
             a.1 ≤ kv.1.2 ∧ h_update_time kv.2 ≤ a.2)
  end.

End Store.

(** ** The round orchestrator ([loop_crawler.py]) *)

Module Orchestrator.
Import Store.

(** An entry of [attempted_accounts]. *)
Record Account := mkAccount {
  account_id : string;
  attempted_name : string
}.

(** *** Test mode: ['test' in excel_basename.lower()]

    Strings are byte strings; [lower] folds the ASCII capitals, which is
    what [str.lower] does to every character that can take part in a match
    with ["test"]. *)
Definition lower_ascii (c : Ascii.ascii) : Ascii.ascii :=
  let n := Ascii.nat_of_ascii c in
  if ((65 <=? n) && (n <=? 90))%nat then Ascii.ascii_of_nat (n + 32) else c.

Fixpoint lower (s : string) : string :=
  match s with
  | EmptyString => EmptyString
  | String c s' => String (lower_ascii c) (lower s')
  end.

(** [needle in hay] *)
Fixpoint contains (needle hay : string) : bool :=
  String.prefix needle hay ||
  match hay with
  | EmptyString => false
  | String _ hay' => contains needle hay'
  end.

Definition is_test_mode (excel_basename : string) : bool :=
  contains "test" (lower excel_basename).

(** [os.path.basename(full_excel_path or 'target_articles.xlsx')], the
    library function [os.path.basename] being a parameter. *)
Definition excel_basename (basename : string → string)
    (full_excel_path : option string) : string :=
  match full_excel_path with
  | Some p => if bool_decide (p = "") then basename "target_articles.xlsx" else basename p
  | None => basename "target_articles.xlsx"
  end.

(** *** _is_full_success

    [db] is the store as the crawl left it.  The query returns the rows whose
    [account_id] is among [ids]; the check then runs over the rows
    returned.  (The stored status names are upper case, so [.upper()]
    changes nothing.) *)
Definition _is_full_success (attempted_accounts : list Account) (db : DB)
    : bool :=
  match attempted_accounts with
  | [] => false
  | _ =>
      let ids := filter (λ i, i ≠ "") (account_id <$> attempted_accounts) in
      match ids with
      | [] => false
      | _ =>
          let rows := filter (λ kv, kv.1 ∈ ids) (map_to_list (fx_account_status db)) in
          match rows with
          | [] => false
          | _ => forallb (λ kv, bool_decide (status kv.2 = COMPLETED)) rows
          end
      end
  end.

(** *** _run_cmd *)

Inductive Mode := full | compensation.

(** How [subprocess.run] ended. *)
Inductive SubprocessOutcome :=
  | Exit (returncode : Z)
  | TimeoutExpired
  | OtherException (message : string).

(** [str(e)[:200]]: the first 200 characters.  A string of the model is
    the UTF-8 encoding of the Python string, so a character is a leading
    byte with the continuation bytes (binary 10xxxxxx) that follow it. *)
Definition is_continuation_byte (c : Ascii.ascii) : bool :=
  let n := Ascii.nat_of_ascii c in ((128 <=? n) && (n <? 192))%nat.

Fixpoint take_characters (n : nat) (s : string) : string :=
  match s with
  | EmptyString => EmptyString
  | String c s' =>
      if is_continuation_byte c then String c (take_characters n s')
      else
        match n with
        | O => EmptyString
        | S n' => String c (take_characters n' s')
        end
  end.

Definition truncate200 (s : string) : string := take_characters 200 s.

(** Non-zero exit, timeout, or an exception raised by the invocation. *)
Definition abnormal (result : SubprocessOutcome) : bool :=
  match result with
  | Exit returncode => negb (bool_decide (returncode = 0))
  | TimeoutExpired | OtherException _ => true
  end.

(** The bookkeeping of a failed full pass. *)
Definition record_failures_and_mark_unfinished (now : Z) (db : DB) : DB :=
  (mark_crawl_unfinished now (record_current_failures_to_compensation now db).2).2.

Definition mark_all_failed (now : Z) (reason : string)
    (attempted_accounts : list Account) (db : DB) : DB :=
  foldl (λ d r, (mark_compensation_failed now (account_id r) (Some reason) d).2)
        db attempted_accounts.

Definition mark_all_completed (now : Z) (attempted_accounts : list Account)
    (db : DB) : DB :=
  foldl (λ d r, (mark_compensation_completed now (account_id r) d).2)
        db attempted_accounts.

(** [db] is the store at the moment [subprocess.run] returns or raises; the
    bookkeeping of one call is stamped with one instant [now]. *)
Definition _run_cmd (is_test_mode script_exists : bool) (mode : Mode)
    (attempted_accounts : list Account) (result : SubprocessOutcome)
    (now : Z) (db : DB) : DB :=
  if negb script_exists then db
  else
    match result with
    | Exit returncode =>
        if bool_decide (returncode = 0) then
          match mode with
          | full =>
              if _is_full_success attempted_accounts db then
                if negb is_test_mode then (resolve_crawl_exception now db).2
                else db
              else
                if negb is_test_mode
                then record_failures_and_mark_unfinished now db
                else db
          | compensation => mark_all_completed now attempted_accounts db
          end
        else
          match mode with
          | full => record_failures_and_mark_unfinished now db
          | compensation =>
              mark_all_failed now "subprocess failed; see console"
                              attempted_accounts db
          end
    | TimeoutExpired =>
        match mode with
        | full => record_failures_and_mark_unfinished now db
        | compensation => mark_all_failed now "timeout" attempted_accounts db
        end
    | OtherException message =>
        match mode with
        | full => record_failures_and_mark_unfinished now db
        | compensation =>
            mark_all_failed now (truncate200 message) attempted_accounts db
        end
    end.

(** *** run_one_round

    The round, step by step.  What lies outside is given: whether the files
    exist, the accounts collected from the target Excel ([attempted], empty
    when it cannot be read), the order the server gives to tying groups of
    the backlog query, the instants of the bookkeeping, and the crawl
    executable itself, which is run on a target list against the store and
    ends in some way, leaving the store in some state.  Writing the
    temporary Excel of the compensation pass is taken to succeed. *)
Inductive Target :=
  | CompensationList (pending : list Account)
  | FullList (full_excel_path : option string).

Record RoundEnv := mkRoundEnv {
  target_excel_exists : bool;
  crawler_script_exists : bool;
  excel_accounts : list Account;
  pending_tie : string * string → Z;
  t_reset : Z;
  t_compensation : Z;
  t_full : Z
}.

Section Round.

Variable basename : string → string.
Variable crawler : Target → DB → SubprocessOutcome * DB.

(** [_run_cmd] with its subprocess: nothing runs when the script is
    missing. *)
Definition run_crawler (is_test script_exists : bool) (mode : Mode)
    (target : Target) (attempted_accounts : list Account) (now : Z) (db : DB) : DB :=
  if script_exists then
    _run_cmd is_test true mode attempted_accounts (crawler target db).1 now
             (crawler target db).2
  else db.

(** Step 1. *)
Definition reset_step (env : RoundEnv) (db : DB) : DB :=
  (reset_all_accounts_to_pending (t_reset env) db).2.

(** Step 2: [get_pending_compensation_accounts() or []]. *)
Definition pending_accounts (env : RoundEnv) (db : DB) : list Account :=
  (λ p, mkAccount p.1 p.2)
    <$> get_pending_compensation_accounts (pending_tie env) 0 db.

(** Step 3. *)
Definition compensation_step (is_test dry_run : bool) (env : RoundEnv) (db : DB) : DB :=
  match pending_accounts env db with
  | [] => db
  | pending =>
      if dry_run then mark_all_completed (t_compensation env) pending db
      else run_crawler is_test (crawler_script_exists env) compensation
                       (CompensationList pending) pending (t_compensation env) db
  end.

(** Step 4. *)
Definition full_step (is_test dry_run : bool) (full_excel_path : option string)
    (env : RoundEnv) (db : DB) : DB :=
  if negb (target_excel_exists env) then db
  else if dry_run then (resolve_crawl_exception (t_full env) db).2
  else run_crawler is_test (crawler_script_exists env) full
                   (FullList full_excel_path) (excel_accounts env) (t_full env) db.

(** The round leaves [self.is_test_mode] set and the store updated. *)
Definition run_one_round (dry_run : bool) (full_excel_path : option string)
    (env : RoundEnv) (db : DB) : bool * DB :=
  let is_test := is_test_mode (excel_basename basename full_excel_path) in
  (is_test,
   full_step is_test dry_run full_excel_path env
     (compensation_step is_test dry_run env (reset_step env db))).

End Round.

(** The ledger row the full pass writes, if any, given how the crawl ended
    and what the success check said. *)
Definition full_pass_entry (is_test : bool) (result : SubprocessOutcome)
    (all_ok : bool) (now : Z) : list CrawlExceptionEvent :=
  let entry st := [ {| finished_date := now; ev_status := st;
                       e_create_time := now; e_update_time := now |} ] in
  if abnormal result then entry unfinished
  else if is_test then []
  else if all_ok then entry finished else entry unfinished.

End Orchestrator.

(** ** The proxy lease ([enhanced_proxy_manager.py]) *)

Module Proxy.

(** A decoded JSON value ([response.json()]); numbers are integers and an
    object is the list of its members. *)
#[warnings="-register-all"]
Inductive json :=
  | JNull
  | JBool (b : bool)
  | JInt (n : Z)
  | JStr (s : string)
  | JList (items : list json)
  | JDict (members : list (string * json)).

(** Python truth value. *)
Definition truthy (j : json) : bool :=
  match j with
  | JNull => false
  | JBool b => b
  | JInt n => negb (n =? 0)
  | JStr s => negb (bool_decide (s = ""))
  | JList items => match items with [] => false | _ => true end
  | JDict members => match members with [] => false | _ => true end
  end.

(** [d.get(key)]: the member's value, [None] when there is none. *)
Fixpoint dict_get (members : list (string * json)) (key : string) : json :=
  match members with
  | [] => JNull
  | (k, v) :: rest => if bool_decide (k = key) then v else dict_get rest key
  end.

Definition is_success_code (j : json) : bool :=
  match j with JStr s => bool_decide (s = "SUCCESS") | _ => false end.

(** The three accepted shapes of [data]. *)
Definition proxy_item_of (data : json) : json :=
  match data with
  | JDict members =>
      match dict_get members "ips" with
      | JList (first :: _) => first
      | _ => data
      end
  | JList (first :: _) => first
  | _ => JNull
  end.

Definition server_of (proxy_item : json) : json :=
  match proxy_item with
  | JDict members => dict_get members "server"
  | _ => JNull
  end.

(** What [requests.get(...)], [raise_for_status()] and [response.json()]
    produce for one attempt. *)
Inductive HttpResult :=
  | RequestException
  | NotJson
  | Body (result : json).

Record Reply := mkReply {
  latency : Z;
  http_result : HttpResult
}.

Inductive Event :=
  | EvAcquire
  | EvRelease
  | EvGetNewProxy
  | EvHttpGet
  | EvSleep (seconds : Z).

#[global] Instance Event_eq_dec : EqDecision Event.
Proof. solve_decision. Defined.

(** Everything outside the manager: the clock, the provider's future
    replies (a request that finds none fails as a connection error), and
    the trace of what the manager did. *)
Record World := mkWorld {
  clock : Z;
  replies : list Reply;
  events : list Event
}.

(** The [pool] section of the configuration; durations in seconds.
    [qg_key] is the provider key as the YAML file gives it: a string, or,
    written without quotes, a number, or nothing at all ([null]). *)
Record Config := mkConfig {
  qg_key : json;
  ip_lifetime : Z;
  refresh_buffer : Z;
  max_retries : Z;
  retry_delay : Z;
  fallback_after_failures : Z
}.

Record Lease := mkLease {
  enabled : bool;
  upstream_proxy : option string;
  proxy_expiry_time : option Z;
  last_proxy_refresh : option Z;
  consecutive_failures : Z
}.

(** The exceptions that leave the manager's methods. *)
Inductive Exn := AttributeError | ValueError | TypeError | OverflowError | KeyError.

(** What the manager's behaviour owes to the interpreter it runs on:
    the longest pause [time.sleep] accepts, in seconds (the bound differs
    between versions and platforms), and the exception raised by slicing a
    [dict], which is [TypeError] before Python 3.12 and [KeyError] from
    there on. *)
Record Runtime := mkRuntime {
  sleep_limit : Z;
  mapping_slice_error : Exn
}.

Inductive Outcome (A : Type) :=
  | Ret (a : A)
  | Raise (e : Exn).
Arguments Ret {A} a.
Arguments Raise {A} e.

(** Computations of the manager: they read and write the lease and the
    world, and return or raise. *)
Definition M (A : Type) : Type := Lease → World → Outcome A * Lease * World.

Definition ret {A} (a : A) : M A := λ l w, (Ret a, l, w).
Definition raise {A} (e : Exn) : M A := λ l w, (Raise e, l, w).
Definition bind {A B} (m : M A) (k : A → M B) : M B :=
  λ l w, match m l w with
         | (Ret a, l', w') => k a l' w'
         | (Raise e, l', w') => (Raise e, l', w')
         end.

(** [try: m finally: h] *)
Definition finally {A} (m : M A) (h : M unit) : M A :=
  λ l w, match m l w with
         | (o, l', w') =>
             match h l' w' with
             | (Ret _, l'', w'') => (o, l'', w'')
             | (Raise e, l'', w'') => (Raise e, l'', w'')
             end
         end.

#[global] Instance M_ret : MRet M := @ret.
#[global] Instance M_bind : MBind M := λ A B k m, bind m k.

Definition get_lease : M Lease := λ l w, (Ret l, l, w).
Definition put_lease (l' : Lease) : M unit := λ _ w, (Ret tt, l', w).
Definition now : M Z := λ l w, (Ret (clock w), l, w).
Definition emit (e : Event) : M unit :=
  λ l w, (Ret tt, l, {| clock := clock w; replies := replies w;
                        events := events w ++ [e] |}).

(** [time.sleep(seconds)]: a negative length raises [ValueError], one
    beyond what the platform can wait raises [OverflowError]; neither
    pauses. *)
Definition sleep (rt : Runtime) (seconds : Z) : M unit :=
  if seconds <? 0 then raise ValueError
  else if sleep_limit rt <? seconds then raise OverflowError
  else
    λ l w, (Ret tt, l, {| clock := clock w + timedelta_seconds seconds;
                          replies := replies w;
                          events := events w ++ [EvSleep seconds] |}).

(** The range of [datetime]: from 0001-01-01 00:00:00 to 9999-12-31
    23:59:59.999999, instants being counted from 1970-01-01 00:00:00. *)
Definition datetime_min : Z := timedelta_days (-719162).
Definition datetime_max : Z := timedelta_days 2932897 - 1.

(** [t + timedelta(seconds=n)], for [t] a [datetime]: [OverflowError]
    when the sum falls outside the range (as it does whenever the
    [timedelta] itself cannot be built). *)
Definition datetime_add_seconds (t n : Z) : M Z :=
  if (datetime_min <=? t + timedelta_seconds n)
     && (t + timedelta_seconds n <=? datetime_max)
  then ret (t + timedelta_seconds n)
  else raise OverflowError.

(** One request to the provider. *)
Definition http_get : M HttpResult :=
  λ l w, match replies w with
         | [] => (Ret RequestException, l,
                  {| clock := clock w; replies := [];
                     events := events w ++ [EvHttpGet] |})
         | r :: rest => (Ret (http_result r), l,
                  {| clock := clock w + latency r; replies := rest;
                     events := events w ++ [EvHttpGet] |})
         end.

Section Manager.

(** [str()] of a decoded JSON value, as the f-string applies it to
    [server]; a library function, taken as a parameter. *)
Variable py_str : json → string.

Variable rt : Runtime.

Variable cfg : Config.

(** *** _is_proxy_valid *)
Definition _is_proxy_valid (l : Lease) (current_time : Z) : bool :=
  if negb (enabled l) then false
  else
    match proxy_expiry_time l with
    | None => false
    | Some expiry =>
        let buffer_time := expiry - timedelta_seconds (refresh_buffer cfg) in
        if buffer_time <=? current_time then false else true
    end.

(** [if attempt < self.max_retries - 1: time.sleep(self.retry_delay)].
    The pause stands in the [try] body after a reply that is no success
    and in both handlers.  An exception of [time.sleep] leaves the method
    from each of the three: in the handlers nothing catches it, and a
    [ValueError] raised in the [try] body is caught by the [ValueError]
    handler, whose own pause raises it again. *)
Definition wait_before_retry (attempt : Z) : M unit :=
  if attempt <? max_retries cfg - 1 then sleep rt (retry_delay cfg) else ret tt.

(** The assignments of a successful attempt, in their order: the address
    first, then the expiry time, whose computation can raise, then the
    time of the refresh and the failure count. *)
Definition store_new_proxy (server : json) : M unit :=
  l ← get_lease;
  put_lease {| enabled := enabled l;
               upstream_proxy := Some ("http://" +:+ py_str server);
               proxy_expiry_time := proxy_expiry_time l;
               last_proxy_refresh := last_proxy_refresh l;
               consecutive_failures := consecutive_failures l |};;
  t ← now;
  expiry ← datetime_add_seconds t (ip_lifetime cfg);
  put_lease {| enabled := enabled l;
               upstream_proxy := Some ("http://" +:+ py_str server);
               proxy_expiry_time := Some expiry;
               last_proxy_refresh := Some t;
               consecutive_failures := 0 |}.

(** The body of [for attempt in range(self.max_retries)], with [remaining]
    iterations to go; [true] is the [return True] inside the loop, [false]
    is the loop running out. *)
Fixpoint attempt_loop (remaining : nat) (attempt : Z) : M bool :=
  match remaining with
  | O => ret false
  | S remaining' =>
      r ← http_get;
      match r with
      | RequestException | NotJson =>
          wait_before_retry attempt;;
          attempt_loop remaining' (attempt + 1)
      | Body (JDict result) =>
          if is_success_code (dict_get result "code")
             && truthy (dict_get result "data")
          then
            let server := server_of (proxy_item_of (dict_get result "data")) in
            if truthy server then
              store_new_proxy server;;
              ret true
            else
              wait_before_retry attempt;;
              attempt_loop remaining' (attempt + 1)
          else
            wait_before_retry attempt;;
            attempt_loop remaining' (attempt + 1)
      | Body _ => raise AttributeError
      end
  end.

(** The bookkeeping after the loop ran out. *)
Definition record_failed_round : M unit :=
  l ← get_lease;
  let failures := consecutive_failures l + 1 in
  put_lease {| enabled := if fallback_after_failures cfg <=? failures
                          then false else enabled l;
               upstream_proxy := upstream_proxy l;
               proxy_expiry_time := proxy_expiry_time l;
               last_proxy_refresh := last_proxy_refresh l;
               consecutive_failures := failures |}.

(** The message logged once the loop has run out shows
    [self.qg_proxy_key[:4]] and [self.qg_proxy_key[-4:]].  A string or a
    list can be sliced; [None], a number or a boolean cannot. *)
Definition log_proxy_key : M unit :=
  match qg_key cfg with
  | JStr _ | JList _ => ret tt
  | JNull | JBool _ | JInt _ => raise TypeError
  | JDict _ => raise (mapping_slice_error rt)
  end.

(** *** _get_new_proxy *)
Definition _get_new_proxy : M bool :=
  emit EvGetNewProxy;;
  ok ← attempt_loop (Z.to_nat (max_retries cfg)) 0;
  if (ok : bool) then ret true
  else
    log_proxy_key;;
    record_failed_round;;
    ret false.

(** *** _refresh_proxy_if_needed *)
Definition _refresh_proxy_if_needed : M bool :=
  l ← get_lease;
  if negb (enabled l) then ret false
  else
    emit EvAcquire;;
    finally
      (l ← get_lease;
       t ← now;
       if _is_proxy_valid l t then ret true else _get_new_proxy)
      (emit EvRelease).

(** *** get_current_proxy *)
Definition get_current_proxy : M (option string) :=
  l ← get_lease;
  if negb (enabled l) then ret None
  else
    ok ← _refresh_proxy_if_needed;
    if negb ok then ret None
    else
      l' ← get_lease;
      ret (upstream_proxy l').

(** The methods of the manager that touch the lease, and a caller running
    any sequence of them (going on after an exception). *)
Inductive Op := CallGetCurrentProxy | CallRefreshProxyIfNeeded | CallGetNewProxy.

Definition run_op (op : Op) (l : Lease) (w : World) : Lease * World :=
  match op with
  | CallGetCurrentProxy => let '(_, l', w') := get_current_proxy l w in (l', w')
  | CallRefreshProxyIfNeeded => let '(_, l', w') := _refresh_proxy_if_needed l w in (l', w')
  | CallGetNewProxy => let '(_, l', w') := _get_new_proxy l w in (l', w')
  end.

Definition run_ops (ops : list Op) (l : Lease) (w : World) : Lease * World :=
  foldl (λ s op, run_op op s.1 s.2) (l, w) ops.

End Manager.

(** A computation that never turns a disabled lease back on. *)
Definition keeps_disabled {A} (m : M A) : Prop :=
  ∀ l w, enabled l = false → enabled (m l w).1.2 = false.

(** A computation that only appends events satisfying [P] to the trace. *)
Definition appends_only {A} (P : Event → Prop) (m : M A) : Prop :=
  ∀ l w, ∃ tr, events (m l w).2 = events w ++ tr ∧ Forall P tr.

(** What a computation started in [w] and ended in [w'] added to the trace. *)
Definition new_events (w w' : World) : list Event :=
  drop (length (events w)) (events w').

(** The events of the provider loop. *)
Definition is_attempt_event (e : Event) : Prop :=
  e = EvHttpGet ∨ ∃ seconds, e = EvSleep seconds.

(** Whether an attempt's reply makes the attempt fail (neither a success
    nor an uncaught exception). *)
Definition reply_fails (r : HttpResult) : bool :=
  match r with
  | RequestException | NotJson => true
  | Body (JDict result) =>
      negb (is_success_code (dict_get result "code")
            && truthy (dict_get result "data")
            && truthy (server_of (proxy_item_of (dict_get result "data"))))
  | Body _ => false
  end.

(** The configured pause is one [time.sleep] takes. *)
Definition can_pause (rt : Runtime) (cfg : Config) : Prop :=
  0 ≤ retry_delay cfg ≤ sleep_limit rt.


(** No pause raises: none is made, or the configured one can be taken. *)
Definition pauses_return (rt : Runtime) (cfg : Config) : Prop :=
  max_retries cfg ≤ 1 ∨ can_pause rt cfg.

(** The provider key is a YAML scalar that is not a string. *)
Definition key_is_not_text (cfg : Config) : bool :=
  match qg_key cfg with
  | JNull | JBool _ | JInt _ => true
  | _ => false
  end.

(** The provider key can be sliced. *)
Definition key_can_be_sliced (cfg : Config) : bool :=
  match qg_key cfg with
  | JStr _ | JList _ => true
  | _ => false
  end.

(** The server address an attempt's reply yields, when the attempt
    succeeds. *)
Definition reply_server (r : HttpResult) : option json :=
  match r with
  | Body (JDict result) =>
      if is_success_code (dict_get result "code") && truthy (dict_get result "data")
      then
        let server := server_of (proxy_item_of (dict_get result "data")) in
        if truthy server then Some server else None
      else None
  | _ => None
  end.

(** The time the provider took over the replies [rs]. *)
Definition total_latency (rs : list Reply) : Z :=
  foldr (λ r acc, latency r + acc) 0 rs.

(** The trace of [k] attempts each followed by a pause, and one more
    attempt. *)
Definition attempts_trace (delay : Z) (k : nat) : list Event :=
  mjoin (replicate k [EvHttpGet; EvSleep delay]) ++ [EvHttpGet].

(** The world after [k] attempts, each followed by a pause. *)
Definition after_failures (delay : Z) (k : nat) (w : World) : World :=
  {| clock := clock w + total_latency (take k (replies w))
              + Z.of_nat k * timedelta_seconds delay;
     replies := drop k (replies w);
     events := events w ++ mjoin (replicate k [EvHttpGet; EvSleep delay]) |}.

(** [threading.Lock] is not reentrant: taking it while it is held blocks
    for ever, and releasing it while it is free raises.  [lock_discipline
    held tr] follows the lock through the trace [tr] and gives its final
    state, or [None] if the trace does either of the two. *)
Fixpoint lock_discipline (held : bool) (tr : list Event) : option bool :=
  match tr with
  | [] => Some held
  | EvAcquire :: tr' => if held then None else lock_discipline true tr'
  | EvRelease :: tr' => if held then lock_discipline false tr' else None
  | _ :: tr' => lock_discipline held tr'
  end.

Definition is_lock_event (e : Event) : Prop := e = EvAcquire ∨ e = EvRelease.

(** *** start_enhanced_mitmproxy

    The command line the method hands to [subprocess.Popen]; [port] is
    [str(self.proxy_port)].  The class defines the method twice, with the
    same command; the later definition is the one in force. *)
Definition mitmdump_command (port : string) (current_proxy : option string)
    : list string :=
  let cmd :=
    [ "mitmdump"; "-s"; "cookie_extractor.py"; "--listen-port"; port;
      "--ssl-insecure"; "--set"; "confdir=~/.mitmproxy";
      "--set"; "ssl_insecure=true"; "--set"; "upstream_cert=false";
      "--anticache"; "--anticomp" ] in
  match current_proxy with
  | Some p =>
      if bool_decide (p = "") then cmd
      else cmd ++ [ "--mode"; "upstream:" +:+ p ]
  | None => cmd
  end.

Definition start_enhanced_mitmproxy (py_str : json → string) (rt : Runtime)
    (cfg : Config) (port : string) : M (list string) :=
  current_proxy ← get_current_proxy py_str rt cfg;
  ret (mitmdump_command port current_proxy).

End Proxy.

(** ** Concrete tables used by the examples below *)

Module Examples.
Import Store.

(** Noon of day 20000. *)
Definition noon : Z := timedelta_days 20000 + timedelta_seconds 43200.

Definition account_row (s : Status) (failures : option Z)
    (last_failed : option Z) (msg : option string) : AccountStatus :=
  {| account_name := "name";
     status := s;
     last_update_time := 0;
     retry_count := 0;
     last_exception_msg := msg;
     next_retry_time := None;
     compensation_priority := Some 0;
     consecutive_failures := failures;
     last_failed_date := last_failed;
     failed_reason_backup := None;
     create_time := 0;
     update_time := 0 |}.

Definition history_row (s : CompensationStatus) : CompensationRecord :=
  {| h_account_name := "name";
     failure_reason := Some "earlier";
     compensation_status := s;
     compensation_date := None;
     h_create_time := 0;
     h_update_time := 0 |}.

(** Account A failed for the first time: no failure date recorded yet. *)
Definition first_failure : DB :=
  {| fx_account_status :=
       {[ "A" := account_row EXCEPTION (Some 0) None (Some "boom") ]};
     fx_compensation_history := ∅;
     fx_crawl_exception := [] |}.

(** Account A was compensated earlier today and failed again in the full
    pass that followed. *)
Definition failed_after_compensation : DB :=
  {| fx_account_status :=
       {[ "A" := account_row EXCEPTION (Some 0) (Some 20000) (Some "boom") ]};
     fx_compensation_history :=
       {[ ("A", 20000) := history_row COMP_COMPLETED ]};
     fx_crawl_exception := [] |}.

(** Account A has one PENDING record, ten days old. *)
Definition stale_pending : DB :=
  {| fx_account_status :=
       {[ "A" := account_row PENDING (Some 3) (Some 19990) None ]};
     fx_compensation_history :=
       {[ ("A", 19990) := history_row COMP_PENDING ]};
     fx_crawl_exception := [] |}.

(** The crawl exited 0 but recorded a failure for A, whose PENDING record
    is one day old. *)
Definition crawl_failed_for_A : DB :=
  {| fx_account_status :=
       {[ "A" := account_row EXCEPTION (Some 1) (Some 19999) (Some "boom") ]};
     fx_compensation_history :=
       {[ ("A", 19999) := history_row COMP_PENDING ]};
     fx_crawl_exception := [] |}.

(** A is COMPLETED; B was attempted but has no row. *)
Definition only_A_has_a_row : DB :=
  {| fx_account_status :=
       {[ "A" := account_row COMPLETED (Some 0) None None ]};
     fx_compensation_history := ∅;
     fx_crawl_exception := [] |}.

Definition attempted_A : list Orchestrator.Account :=
  [ Orchestrator.mkAccount "A" "name" ].

Definition attempted_A_B : list Orchestrator.Account :=
  [ Orchestrator.mkAccount "A" "name"; Orchestrator.mkAccount "B" "other" ].

(** [str()] as the examples need it: the identity on a string. *)
Definition str_of_server (j : Proxy.json) : string :=
  match j with Proxy.JStr s => s | _ => "" end.

Definition pool_config : Proxy.Config :=
  {| Proxy.qg_key := Proxy.JStr "0123456789ABCDEF";
     Proxy.ip_lifetime := 60; Proxy.refresh_buffer := 10; Proxy.max_retries := 3;
     Proxy.retry_delay := 5; Proxy.fallback_after_failures := 3 |}.

(** The same pool, the key written without quotes in the YAML file. *)
Definition numeric_key_config : Proxy.Config :=
  {| Proxy.qg_key := Proxy.JInt 12345678;
     Proxy.ip_lifetime := 60; Proxy.refresh_buffer := 10; Proxy.max_retries := 3;
     Proxy.retry_delay := 5; Proxy.fallback_after_failures := 3 |}.


Definition endless_lease_config : Proxy.Config :=
  {| Proxy.qg_key := Proxy.JStr "0123456789ABCDEF";
     Proxy.ip_lifetime := 1000000000000; Proxy.refresh_buffer := 10;
     Proxy.max_retries := 3;
     Proxy.retry_delay := 5; Proxy.fallback_after_failures := 3 |}.

(** CPython 3.11 on a 64-bit platform: durations are 64-bit counts of
    nanoseconds. *)
Definition cpython : Proxy.Runtime :=
  {| Proxy.sleep_limit := 9223372036; Proxy.mapping_slice_error := Proxy.TypeError |}.

Definition fresh_lease : Proxy.Lease :=
  {| Proxy.enabled := true; Proxy.upstream_proxy := None;
     Proxy.proxy_expiry_time := None; Proxy.last_proxy_refresh := None;
     Proxy.consecutive_failures := 0 |}.

Definition good_reply : Proxy.Reply :=
  {| Proxy.latency := 0;
     Proxy.http_result :=
       Proxy.Body (Proxy.JDict
         [ ("code", Proxy.JStr "SUCCESS");
           ("data", Proxy.JList [ Proxy.JDict [ ("server", Proxy.JStr "10.0.0.1:8000") ] ]) ]) |}.

Definition bad_reply : Proxy.Reply :=
  {| Proxy.latency := 0;
     Proxy.http_result :=
       Proxy.Body (Proxy.JDict [ ("code", Proxy.JStr "ERROR"); ("msg", Proxy.JStr "no balance") ]) |}.

Definition world_at (t : Z) (rs : list Proxy.Reply) : Proxy.World :=
  {| Proxy.clock := t; Proxy.replies := rs; Proxy.events := [] |}.

(** The lease right after a refresh that succeeded at [noon]. *)
Definition leased : Proxy.Lease :=
  {| Proxy.enabled := true;
     Proxy.upstream_proxy := Some "http://10.0.0.1:8000";
     Proxy.proxy_expiry_time := Some (noon + timedelta_seconds 60);
     Proxy.last_proxy_refresh := Some noon;
     Proxy.consecutive_failures := 0 |}.

(** The lease and the world after three failed rounds (see
    [breaker_is_one_way_witness]). *)
Definition tripped_lease : Proxy.Lease :=
  {| Proxy.enabled := false; Proxy.upstream_proxy := None;
     Proxy.proxy_expiry_time := None; Proxy.last_proxy_refresh := None;
     Proxy.consecutive_failures := 3 |}.

Definition one_failed_round : list Proxy.Event :=
  [ Proxy.EvAcquire; Proxy.EvGetNewProxy; Proxy.EvHttpGet; Proxy.EvSleep 5;
    Proxy.EvHttpGet; Proxy.EvSleep 5; Proxy.EvHttpGet; Proxy.EvRelease ].

Definition tripped_world : Proxy.World :=
  {| Proxy.clock := noon + timedelta_seconds 30;
     Proxy.replies := [good_reply];
     Proxy.events := one_failed_round ++ one_failed_round ++ one_failed_round |}.

(** A row in which the columns an INSERT leaves out are NULL. *)
Definition null_defaults : AccountStatus :=
  {| account_name := ""; status := PENDING; last_update_time := 0; retry_count := 0;
     last_exception_msg := None; next_retry_time := None;
     compensation_priority := None; consecutive_failures := None;
     last_failed_date := None; failed_reason_backup := None;
     create_time := 0; update_time := 0 |}.

(** A crawl that fails every target: it marks each account of a
    compensation list EXCEPTION and exits 1. *)
Definition failing_crawler (target : Orchestrator.Target) (db : DB)
    : Orchestrator.SubprocessOutcome * DB :=
  match target with
  | Orchestrator.CompensationList pending =>
      (Orchestrator.Exit 1,
       foldl (λ d a, (update_account_status noon (Orchestrator.account_id a)
                        EXCEPTION (Some "crawl failed") d).2) db pending)
  | Orchestrator.FullList _ => (Orchestrator.Exit 1, db)
  end.

Definition round_env : Orchestrator.RoundEnv :=
  {| Orchestrator.target_excel_exists := true;
     Orchestrator.crawler_script_exists := true;
     Orchestrator.excel_accounts := attempted_A;
     Orchestrator.pending_tie := λ _, 0;
     Orchestrator.t_reset := noon;
     Orchestrator.t_compensation := noon + timedelta_seconds 1;
     Orchestrator.t_full := noon + timedelta_seconds 2 |}.

End Examples.

(** * Properties *)

(** ** Tables and statements *)

Module StoreFacts.
Import Store.

Lemma DB_eq (a b : DB) :
  fx_account_status a = fx_account_status b →
  fx_compensation_history a = fx_compensation_history b →
  fx_crawl_exception a = fx_crawl_exception b →
  a = b.
Proof. destruct a, b; simpl; intros -> -> ->; reflexivity. Qed.

Section Update.
Context {K : Type} `{Countable K} {V : Type} `{EqDecision V}.
Implicit Types (c : K → V → bool) (set : V → V) (t : gmap K V).

Lemma lookup_sql_update c set t k :
  sql_update c set t !! k = (λ r, if c k r then set r else r) <$> (t !! k).
Proof.
  unfold sql_update. rewrite map_lookup_imap.
  destruct (t !! k); reflexivity.
Qed.

Lemma lookup_sql_update_Some c set t k r :
  t !! k = Some r →
  sql_update c set t !! k = Some (if c k r then set r else r).
Proof. intros Hk. rewrite lookup_sql_update, Hk. reflexivity. Qed.

(** An UPDATE whose WHERE clause matches no row leaves the table alone. *)
Lemma sql_update_no_match c set t :
  (∀ k r, t !! k = Some r → c k r = false) → sql_update c set t = t.
Proof.
  intros Hno. apply map_eq. intros k. rewrite lookup_sql_update.
  destruct (t !! k) as [r|] eqn:Hk; simpl; [|reflexivity].
  rewrite (Hno k r Hk). reflexivity.
Qed.

Lemma sql_affected_no_match c set t :
  (∀ k r, t !! k = Some r → c k r = false) → sql_affected c set t = 0.
Proof.
  intros Hno. unfold sql_affected.
  destruct (filter _ (map_to_list t)) as [|[k r] l] eqn:F; [reflexivity|].
  exfalso.
  assert ((k, r) ∈ filter (λ kv : K * V, c kv.1 kv.2 = true ∧ set kv.2 ≠ kv.2)
                    (map_to_list t)) as Hin by (rewrite F; left).
  apply list_elem_of_filter in Hin as [[Hc _] Hin]. simpl in Hc.
  apply elem_of_map_to_list in Hin. rewrite (Hno _ _ Hin) in Hc. discriminate.
Qed.
End Update.


(** *** The flush of failed accounts into the compensation table *)

Lemma elem_of_failed_accounts (accounts : gmap string AccountStatus) id r :
  (id, r) ∈ failed_accounts accounts ↔
  accounts !! id = Some r ∧ in_exception_or_failed (status r) = true.
Proof.
  unfold failed_accounts. rewrite list_elem_of_filter, elem_of_map_to_list.
  simpl. tauto.
Qed.

Lemma NoDup_fst_filter {A B} (P : A * B → Prop) `{∀ x, Decision (P x)}
    (l : list (A * B)) :
  NoDup (l.*1) → NoDup ((filter P l).*1).
Proof.
  induction l as [|x l IH]; simpl; [constructor|].
  rewrite NoDup_cons. intros [Hx Hl].
  rewrite filter_cons. destruct (decide (P x)); [|auto].
  rewrite fmap_cons, NoDup_cons. split; [|auto].
  intros Hin. apply Hx.
  apply list_elem_of_fmap in Hin as (y & -> & Hy).
  apply list_elem_of_filter in Hy as [_ Hy].
  apply list_elem_of_fmap. eauto.
Qed.

Lemma NoDup_failed_accounts (accounts : gmap string AccountStatus) :
  NoDup ((failed_accounts accounts).*1).
Proof. apply NoDup_fst_filter, NoDup_fst_map_to_list. Qed.

Section Flush.
Variables now current_date : Z.
Abbreviation step := (insert_failed_account now current_date).

Lemma flush_lookup_other_date l t id d :
  d ≠ current_date → foldl step t l !! (id, d) = t !! (id, d).
Proof.
  intros Hd. revert t. induction l as [|[a r] l IH]; intros t; simpl; [reflexivity|].
  rewrite IH. unfold insert_failed_account, upsert_pending; simpl.
  apply lookup_insert_ne. congruence.
Qed.

Lemma flush_lookup_other_account l t id d :
  id ∉ l.*1 → foldl step t l !! (id, d) = t !! (id, d).
Proof.
  revert t. induction l as [|[a r] l IH]; intros t Hid; simpl; [reflexivity|].
  rewrite fmap_cons, not_elem_of_cons in Hid. destruct Hid as [Hne Hid].
  rewrite IH by exact Hid. unfold insert_failed_account, upsert_pending; simpl.
  apply lookup_insert_ne. simpl in Hne. congruence.
Qed.

Lemma flush_lookup_account l t id r :
  NoDup (l.*1) → (id, r) ∈ l →
  foldl step t l !! (id, current_date) =
    Some (upsert_row now (account_name r) (failure_reason_of r)
                     (t !! (id, current_date))).
Proof.
  revert t. induction l as [|[a r'] l IH]; intros t Hnd Hin.
  - inversion Hin.
  - rewrite fmap_cons, NoDup_cons in Hnd. destruct Hnd as [Ha Hnd]. simpl in Ha.
    simpl. apply elem_of_cons in Hin as [Heq | Hin].
    + injection Heq as <- <-.
      rewrite flush_lookup_other_account by exact Ha.
      unfold insert_failed_account, upsert_pending; simpl.
      apply lookup_insert_eq.
    + assert (a ≠ id) as Hne.
      { intros ->. apply Ha. apply list_elem_of_fmap. exists (id, r). eauto. }
      rewrite IH by assumption. f_equal. f_equal.
      unfold insert_failed_account, upsert_pending; simpl.
      apply lookup_insert_ne. congruence.
Qed.
End Flush.

Lemma record_failed_accounts_tables now current_date db :
  let db' := (_record_failed_accounts_for_compensation now current_date db).2 in
  fx_account_status db' = fx_account_status db ∧
  fx_compensation_history db' =
    foldl (insert_failed_account now current_date) (fx_compensation_history db)
          (failed_accounts (fx_account_status db)) ∧
  fx_crawl_exception db' = fx_crawl_exception db.
Proof.
  unfold _record_failed_accounts_for_compensation.
  destruct (failed_accounts (fx_account_status db)); simpl; auto.
Qed.


(** *** reset_all_accounts_to_pending *)

Lemma reset_result now db :
  reset_all_accounts_to_pending now db =
  (true,
   {| fx_account_status :=
        sql_update not_pending (reset_status_set now)
          (sql_update needs_compensation_update
                      (update_compensation_set (date_of now))
                      (fx_account_status db));
      fx_compensation_history :=
        foldl (insert_failed_account now (date_of now))
              (fx_compensation_history db)
              (failed_accounts (fx_account_status db));
      fx_crawl_exception := fx_crawl_exception db |}).
Proof.
  unfold reset_all_accounts_to_pending.
  destruct (record_failed_accounts_tables now (date_of now) db) as (Ha & Hh & Hl).
  cbv zeta in *. rewrite Ha, Hh, Hl.
  destruct (0 <? _); reflexivity.
Qed.

Lemma reset_lookup_account now db id :
  fx_account_status (reset_all_accounts_to_pending now db).2 !! id =
  reset_row now <$> (fx_account_status db !! id).
Proof.
  rewrite reset_result. simpl. rewrite !lookup_sql_update.
  destruct (fx_account_status db !! id) as [r|]; reflexivity.
Qed.

Lemma status_reset_row now r : status (reset_row now r) = PENDING.
Proof.
  unfold reset_row.
  set (r1 := if in_exception_failed_retrying (status r) then _ else r).
  destruct (bool_decide (status r1 = PENDING)) eqn:E; simpl.
  - apply bool_decide_eq_true in E. exact E.
  - reflexivity.
Qed.

(** The fourth assignment never sees a stale date: the second one has
    already replaced it. *)
Lemma null_or_before_after_assignment d today :
  null_or_before (if null_or_before d today then Some today else d) today = false.
Proof.
  destruct d as [d|]; simpl.
  - destruct (d <? today) eqn:E; simpl; [apply Z.ltb_irrefl | exact E].
  - apply Z.ltb_irrefl.
Qed.

Lemma update_compensation_set_failures today r :
  in_exception_failed_retrying (status r) = true →
  consecutive_failures (update_compensation_set today r) = consecutive_failures r.
Proof.
  intros Hs. unfold update_compensation_set; simpl.
  destruct (in_exception_or_failed (status r)) eqn:Hf; simpl.
  - rewrite null_or_before_after_assignment. simpl.
    destruct (status r); try discriminate; reflexivity.
  - destruct (status r); try discriminate; reflexivity.
Qed.

(** Read with simultaneous assignment, the statement would count the
    failure exactly when the stored date is absent or before today. *)
Lemma update_compensation_set_simultaneous_failures today r :
  in_exception_or_failed (status r) = true →
  consecutive_failures (update_compensation_set_simultaneous today r) =
    if null_or_before (last_failed_date r) today
    then Some (coalesce0 (consecutive_failures r) + 1)
    else consecutive_failures r.
Proof.
  intros Hf. unfold update_compensation_set_simultaneous; simpl.
  rewrite Hf; simpl.
  destruct (null_or_before _ _); [reflexivity|].
  destruct (status r); try discriminate; reflexivity.
Qed.

Lemma failed_is_matched s :
  in_exception_or_failed s = true → in_exception_failed_retrying s = true.
Proof. destruct s; simpl; congruence. Qed.

(** C1. On the store the code runs against, the reset leaves
    [consecutive_failures] of every EXCEPTION or FAILED account as it was,
    whatever [last_failed_date] held: the increment the statement spells out
    is never taken, although [last_failed_date] is moved to today. *)
Theorem reset_never_increments_consecutive_failures now db id r :
  fx_account_status db !! id = Some r →
  in_exception_or_failed (status r) = true →
  ∃ r', fx_account_status (reset_all_accounts_to_pending now db).2 !! id = Some r' ∧
        consecutive_failures r' = consecutive_failures r ∧
        last_failed_date r' =
          (if null_or_before (last_failed_date r) (date_of now)
           then Some (date_of now) else last_failed_date r).
Proof.
  intros Hid Hf. exists (reset_row now r). split.
  - rewrite reset_lookup_account, Hid. reflexivity.
  - unfold reset_row. rewrite (failed_is_matched _ Hf).
    assert (status (update_compensation_set (date_of now) r) = status r) as Hst
      by reflexivity.
    rewrite Hst.
    assert (bool_decide (status r = PENDING) = false) as ->
      by (destruct (status r); try discriminate; reflexivity).
    simpl negb. cbv iota. split.
    + change (consecutive_failures (update_compensation_set (date_of now) r)
              = consecutive_failures r).
      apply update_compensation_set_failures, failed_is_matched, Hf.
    + simpl. rewrite Hf. reflexivity.
Qed.

Lemma reset_never_increments_witness :
  fx_account_status Examples.first_failure !! "A"
    = Some (Examples.account_row EXCEPTION (Some 0) None (Some "boom")) ∧
  ∃ r', fx_account_status
          (reset_all_accounts_to_pending Examples.noon Examples.first_failure).2 !! "A"
          = Some r' ∧
        consecutive_failures r' = Some 0 ∧
        last_failed_date r' = Some 20000.
Proof.
  split; [reflexivity|].
  exact (reset_never_increments_consecutive_failures Examples.noon
           Examples.first_failure "A"
           (Examples.account_row EXCEPTION (Some 0) None (Some "boom"))
           eq_refl eq_refl).
Defined.


(** C4, as stated, fails: when today's record of the account is already
    COMPLETED, the flush refreshes its reason and leaves its status, so
    after the reset the account has no PENDING record dated today. *)
Lemma reset_keeps_completed_record :
  fx_account_status Examples.failed_after_compensation !! "A"
    = Some (Examples.account_row EXCEPTION (Some 0) (Some 20000) (Some "boom")) ∧
  date_of Examples.noon = 20000 ∧
  ¬ ∃ h, fx_compensation_history
           (reset_all_accounts_to_pending Examples.noon
              Examples.failed_after_compensation).2 !! ("A", 20000) = Some h ∧
         compensation_status h = COMP_PENDING.
Proof.
  split; [reflexivity|]. split; [reflexivity|].
  intros (h & Hh & Hp).
  vm_compute in Hh. injection Hh as <-. discriminate Hp.
Qed.

(** C4, amended.  Every account that is EXCEPTION or FAILED before the
    reset is PENDING after it and has a compensation record dated today
    carrying its failure reason; that record is PENDING when the account
    had no record for today, and otherwise keeps the compensation status
    the existing record had. *)
Theorem reset_flushes_failed_accounts now db id r :
  fx_account_status db !! id = Some r →
  in_exception_or_failed (status r) = true →
  (∃ r', fx_account_status (reset_all_accounts_to_pending now db).2 !! id = Some r' ∧
         status r' = PENDING) ∧
  (∃ h, fx_compensation_history (reset_all_accounts_to_pending now db).2
          !! (id, date_of now) = Some h ∧
        failure_reason h = Some (failure_reason_of r) ∧
        compensation_status h =
          match fx_compensation_history db !! (id, date_of now) with
          | Some old => compensation_status old
          | None => COMP_PENDING
          end).
Proof.
  intros Hid Hf. split.
  - exists (reset_row now r). split; [|apply status_reset_row].
    rewrite reset_lookup_account, Hid. reflexivity.
  - rewrite reset_result. simpl.
    erewrite flush_lookup_account;
      [|apply NoDup_failed_accounts|apply elem_of_failed_accounts; eauto].
    eexists. split; [reflexivity|].
    destruct (fx_compensation_history db !! (id, date_of now)); simpl; auto.
Qed.

Lemma reset_flushes_failed_accounts_witness :
  (∃ r', fx_account_status
           (reset_all_accounts_to_pending Examples.noon Examples.first_failure).2 !! "A"
           = Some r' ∧ status r' = PENDING) ∧
  (∃ h, fx_compensation_history
          (reset_all_accounts_to_pending Examples.noon Examples.first_failure).2
          !! ("A", date_of Examples.noon) = Some h ∧
        failure_reason h = Some "boom" ∧
        compensation_status h = COMP_PENDING).
Proof.
  exact (reset_flushes_failed_accounts Examples.noon Examples.first_failure "A"
           (Examples.account_row EXCEPTION (Some 0) None (Some "boom"))
           eq_refl eq_refl).
Defined.

Lemma reset_all_pending now db id r :
  fx_account_status (reset_all_accounts_to_pending now db).2 !! id = Some r →
  status r = PENDING.
Proof.
  rewrite reset_lookup_account.
  destruct (fx_account_status db !! id) as [r0|]; simpl; [|discriminate].
  intros [= <-]. apply status_reset_row.
Qed.

Lemma failed_accounts_nil (accounts : gmap string AccountStatus) :
  (∀ id r, accounts !! id = Some r → status r = PENDING) →
  failed_accounts accounts = [].
Proof.
  intros Hp. destruct (failed_accounts accounts) as [|[id r] l] eqn:E; [reflexivity|].
  assert ((id, r) ∈ failed_accounts accounts) as Hin by (rewrite E; left).
  apply elem_of_failed_accounts in Hin as [Hid Hf].
  rewrite (Hp _ _ Hid) in Hf. discriminate.
Qed.

(** C9. After one reset every row is PENDING; a second reset, at any later
    time, selects no failed account to flush, its two UPDATE statements
    change no row, the three tables are what the first reset left, and both
    calls return [True]. *)
Theorem reset_twice now1 now2 db :
  (∀ id r, fx_account_status (reset_all_accounts_to_pending now1 db).2 !! id = Some r →
           status r = PENDING) ∧
  failed_accounts (fx_account_status (reset_all_accounts_to_pending now1 db).2) = [] ∧
  sql_affected needs_compensation_update (update_compensation_set (date_of now2))
               (fx_account_status (reset_all_accounts_to_pending now1 db).2) = 0 ∧
  sql_affected not_pending (reset_status_set now2)
               (fx_account_status (reset_all_accounts_to_pending now1 db).2) = 0 ∧
  reset_all_accounts_to_pending now2 (reset_all_accounts_to_pending now1 db).2
    = (true, (reset_all_accounts_to_pending now1 db).2) ∧
  (reset_all_accounts_to_pending now1 db).1 = true.
Proof.
  pose proof (reset_all_pending now1 db) as Hp.
  set (db1 := (reset_all_accounts_to_pending now1 db).2) in *.
  assert (∀ id r, fx_account_status db1 !! id = Some r →
                  needs_compensation_update id r = false) as Hn1.
  { intros id r Hid. unfold needs_compensation_update.
    rewrite (Hp _ _ Hid). reflexivity. }
  assert (∀ id r, fx_account_status db1 !! id = Some r → not_pending id r = false) as Hn2.
  { intros id r Hid. unfold not_pending. rewrite (Hp _ _ Hid). reflexivity. }
  split; [exact Hp|].
  split; [apply failed_accounts_nil, Hp|].
  split; [apply sql_affected_no_match, Hn1|].
  split; [apply sql_affected_no_match, Hn2|].
  split; [|rewrite reset_result; reflexivity].
  rewrite reset_result. f_equal. apply DB_eq; simpl.
  - rewrite (sql_update_no_match needs_compensation_update) by exact Hn1.
    apply sql_update_no_match, Hn2.
  - rewrite (failed_accounts_nil _ Hp). reflexivity.
  - reflexivity.
Qed.

(** *** mark_compensation_completed *)

(** C8. [mark_compensation_completed X] rewrites exactly the records of [X]
    that are PENDING and dated within the last seven days; every other
    record, in particular a PENDING one dated ten days ago, is left as it
    was, while the status row of [X] gets [compensation_priority = 0] and
    [consecutive_failures = 0]. *)
Theorem mark_compensation_completed_window now X db :
  (∀ k h, fx_compensation_history db !! k = Some h →
          k.1 ≠ X ∨ compensation_status h ≠ COMP_PENDING ∨ k.2 < date_of now - 7 →
          fx_compensation_history (mark_compensation_completed now X db).2 !! k = Some h) ∧
  (∀ h, fx_compensation_history db !! (X, date_of now - 10) = Some h →
        fx_compensation_history (mark_compensation_completed now X db).2
          !! (X, date_of now - 10) = Some h) ∧
  (∀ d h, fx_compensation_history db !! (X, d) = Some h →
          compensation_status h = COMP_PENDING → date_of now - 7 ≤ d →
          fx_compensation_history (mark_compensation_completed now X db).2 !! (X, d)
            = Some (history_completed_set (date_of now) now h)) ∧
  (∀ k, fx_compensation_history db !! k = None →
        fx_compensation_history (mark_compensation_completed now X db).2 !! k = None) ∧
  (∀ r, fx_account_status db !! X = Some r →
        ∃ r', fx_account_status (mark_compensation_completed now X db).2 !! X = Some r' ∧
              compensation_priority r' = Some 0 ∧ consecutive_failures r' = Some 0 ∧
              status r' = status r) ∧
  (mark_compensation_completed now X db).1 = true.
Proof.
  assert (∀ k h, fx_compensation_history db !! k = Some h →
            k.1 ≠ X ∨ compensation_status h ≠ COMP_PENDING ∨ k.2 < date_of now - 7 →
            fx_compensation_history (mark_compensation_completed now X db).2 !! k
              = Some h) as Hframe.
  { intros k h Hk Hout. simpl. rewrite (lookup_sql_update_Some _ _ _ _ _ Hk).
    unfold pending_in_window.
    destruct Hout as [Hne | [Hne | Hlt]].
    - rewrite (bool_decide_eq_false_2 _ Hne). reflexivity.
    - rewrite (bool_decide_eq_false_2 _ Hne), andb_false_r. reflexivity.
    - assert ((date_of now - 7 <=? k.2) = false) as -> by lia.
      rewrite andb_false_r. reflexivity. }
  split; [exact Hframe|].
  split.
  { intros h Hk. apply Hframe; [exact Hk|]. right; right; simpl; lia. }
  split.
  { intros d h Hk Hp Hd. simpl. rewrite (lookup_sql_update_Some _ _ _ _ _ Hk).
    unfold pending_in_window; simpl.
    rewrite (bool_decide_eq_true_2 _ eq_refl), (bool_decide_eq_true_2 _ Hp).
    assert ((date_of now - 7 <=? d) = true) as -> by lia. reflexivity. }
  split.
  { intros k Hk. simpl. rewrite lookup_sql_update, Hk. reflexivity. }
  split; [|reflexivity].
  intros r Hr. simpl. rewrite (lookup_sql_update_Some _ _ _ _ _ Hr).
  rewrite (bool_decide_eq_true_2 _ eq_refl).
  eexists. split; [reflexivity|]. simpl. auto.
Qed.

Lemma mark_compensation_completed_window_witness :
  fx_compensation_history
    (mark_compensation_completed Examples.noon "A" Examples.stale_pending).2
    !! ("A", date_of Examples.noon - 10) = Some (Examples.history_row COMP_PENDING) ∧
  ∃ r', fx_account_status
          (mark_compensation_completed Examples.noon "A" Examples.stale_pending).2 !! "A"
          = Some r' ∧
        compensation_priority r' = Some 0 ∧ consecutive_failures r' = Some 0 ∧
        status r' = PENDING.
Proof.
  pose proof (mark_compensation_completed_window Examples.noon "A"
                Examples.stale_pending) as (_ & Hstale & _ & _ & Hrow & _).
  split.
  - exact (Hstale (Examples.history_row COMP_PENDING) eq_refl).
  - exact (Hrow (Examples.account_row PENDING (Some 3) (Some 19990) None) eq_refl).
Defined.

End StoreFacts.

(** ** The round orchestrator *)

Module OrchestratorFacts.
Import Store Orchestrator StoreFacts.

(** *** _is_full_success *)

Lemma elem_of_attempted_ids (attempted : list Account) id :
  id ∈ filter (λ i : string, i ≠ "") (account_id <$> attempted) ↔
  id ≠ "" ∧ ∃ a, a ∈ attempted ∧ account_id a = id.
Proof.
  rewrite list_elem_of_filter, list_elem_of_fmap. split.
  - intros [Hne (a & -> & Ha)]. eauto.
  - intros [Hne (a & Ha & <-)]. eauto.
Qed.

(** What the check decides: some attempted account has a row, and every
    attempted account that has a row is COMPLETED.  Attempted accounts
    without a row do not count against success. *)
Lemma is_full_success_iff attempted db :
  _is_full_success attempted db = true ↔
  (∃ a r, a ∈ attempted ∧ account_id a ≠ "" ∧
          fx_account_status db !! account_id a = Some r) ∧
  (∀ a r, a ∈ attempted → account_id a ≠ "" →
          fx_account_status db !! account_id a = Some r → status r = COMPLETED).
Proof.
  unfold _is_full_success.
  set (ids := filter (λ i : string, i ≠ "") (account_id <$> attempted)).
  set (rows := filter (λ kv : string * AccountStatus, kv.1 ∈ ids)
                      (map_to_list (fx_account_status db))).
  assert (∀ id r, (id, r) ∈ rows ↔
            (id ≠ "" ∧ ∃ a, a ∈ attempted ∧ account_id a = id) ∧
            fx_account_status db !! id = Some r) as Hrows.
  { intros id r. unfold rows. rewrite list_elem_of_filter, elem_of_map_to_list.
    simpl. unfold ids. rewrite elem_of_attempted_ids. tauto. }
  assert (forallb (λ kv : string * AccountStatus, bool_decide (status kv.2 = COMPLETED))
                  rows = true ↔
          ∀ id r, (id, r) ∈ rows → status r = COMPLETED) as Hall.
  { rewrite forallb_forall. split.
    - intros Hf id r Hin. apply list_elem_of_In in Hin.
      specialize (Hf _ Hin). simpl in Hf. apply bool_decide_eq_true in Hf. exact Hf.
    - intros Hf [id r] Hin. apply list_elem_of_In in Hin. simpl.
      apply bool_decide_eq_true. eauto. }
  split.
  - intros Hs.
    destruct attempted as [|a0 att]; [discriminate|]. fold ids in Hs.
    destruct ids as [|i0 ids'] eqn:Eids; [discriminate|]. fold rows in Hs.
    destruct rows as [|[k0 r0] rows'] eqn:Erows; [discriminate|].
    split.
    + assert ((k0, r0) ∈ (k0, r0) :: rows') as Hin by left.
      apply Hrows in Hin as [[Hne (a & Ha & <-)] Hk]. eauto.
    + intros a r Ha Hne Hk. apply (proj1 Hall Hs (account_id a)).
      apply Hrows. eauto.
  - intros [(a & r & Ha & Hne & Hk) Hc].
    assert (account_id a ∈ ids) as Hid by (apply elem_of_attempted_ids; eauto).
    assert ((account_id a, r) ∈ rows) as Hrow by (apply Hrows; eauto).
    destruct attempted as [|a0 att]; [inversion Ha|]. fold ids.
    destruct ids as [|i0 ids'] eqn:Eids; [inversion Hid|]. fold rows.
    destruct rows as [|[k0 r0] rows'] eqn:Erows; [inversion Hrow|].
    apply Hall. intros id r' Hin.
    apply Hrows in Hin as [[Hne' (a' & Ha' & <-)] Hk']. eauto.
Qed.

(** C2. With A COMPLETED and B attempted but absent from the store, the
    check answers [True]: an attempted account without a row is not
    noticed. *)
Theorem is_full_success_ignores_missing_row :
  fx_account_status Examples.only_A_has_a_row !! "B" = None ∧
  _is_full_success Examples.attempted_A_B Examples.only_A_has_a_row = true.
Proof. split; reflexivity. Qed.


(** *** The compensation pass after exit code 0 *)

Lemma mark_all_completed_cons now a l db :
  mark_all_completed now (a :: l) db =
  mark_all_completed now l (mark_compensation_completed now (account_id a) db).2.
Proof. reflexivity. Qed.

Lemma clear_compensation_set_idem now r :
  clear_compensation_set now (clear_compensation_set now r) = clear_compensation_set now r.
Proof. reflexivity. Qed.

Lemma mark_all_completed_ledger now l db :
  fx_crawl_exception (mark_all_completed now l db) = fx_crawl_exception db.
Proof.
  revert db. induction l as [|a l IH]; intros db; [reflexivity|].
  rewrite mark_all_completed_cons, IH. reflexivity.
Qed.

Lemma mark_all_completed_account now l db id :
  fx_account_status (mark_all_completed now l db) !! id =
  (λ r, if bool_decide (id ∈ account_id <$> l)
        then clear_compensation_set now r else r) <$> (fx_account_status db !! id).
Proof.
  revert db. induction l as [|a l IH]; intros db.
  - simpl. destruct (fx_account_status db !! id); reflexivity.
  - rewrite mark_all_completed_cons, IH. simpl fx_account_status.
    rewrite lookup_sql_update.
    destruct (fx_account_status db !! id) as [r|]; simpl; [|reflexivity].
    f_equal. change (list_fmap Account string account_id l) with (account_id <$> l).
    destruct (decide (id = account_id a)) as [->|Hne].
    + rewrite (bool_decide_eq_true_2 (account_id a = account_id a)) by reflexivity.
      rewrite (bool_decide_eq_true_2 (account_id a ∈ account_id a :: _)) by left.
      destruct (bool_decide _); reflexivity.
    + rewrite (bool_decide_eq_false_2 (id = account_id a)) by exact Hne.
      rewrite (bool_decide_ext (id ∈ account_id a :: (account_id <$> l))
                               (id ∈ account_id <$> l)); [reflexivity|].
      rewrite elem_of_cons. tauto.
Qed.


Lemma mark_all_completed_history now l db k :
  fx_compensation_history (mark_all_completed now l db) !! k =
  (λ h, if bool_decide (k.1 ∈ account_id <$> l)
           && bool_decide (compensation_status h = COMP_PENDING)
           && (date_of now - 7 <=? k.2)
        then history_completed_set (date_of now) now h else h)
    <$> (fx_compensation_history db !! k).
Proof.
  revert db. induction l as [|a l IH]; intros db.
  - simpl. destruct (fx_compensation_history db !! k); reflexivity.
  - rewrite mark_all_completed_cons, IH. simpl fx_compensation_history.
    rewrite lookup_sql_update.
    destruct (fx_compensation_history db !! k) as [h|]; simpl; [|reflexivity].
    f_equal. change (list_fmap Account string account_id l) with (account_id <$> l).
    unfold pending_in_window.
    destruct (date_of now - 7 <=? k.2);
      [|rewrite !andb_false_r; reflexivity].
    rewrite !andb_true_r.
    destruct (decide (compensation_status h = COMP_PENDING)) as [Hp|Hp].
    + rewrite !(bool_decide_eq_true_2 _ Hp), !andb_true_r.
      destruct (decide (k.1 = account_id a)) as [He|Hne].
      * rewrite (bool_decide_eq_true_2 _ He).
        rewrite (bool_decide_eq_true_2 (k.1 ∈ account_id a :: _))
          by (rewrite He; left).
        simpl. rewrite andb_false_r. reflexivity.
      * rewrite (bool_decide_eq_false_2 _ Hne).
        rewrite (bool_decide_eq_true_2 _ Hp), andb_true_r.
        rewrite (bool_decide_ext (k.1 ∈ account_id a :: (account_id <$> l))
                                 (k.1 ∈ account_id <$> l)); [reflexivity|].
        rewrite elem_of_cons. tauto.
    + rewrite !(bool_decide_eq_false_2 _ Hp), !andb_false_r.
      rewrite (bool_decide_eq_false_2 _ Hp), andb_false_r. reflexivity.
Qed.




(** *** The full pass *)

Lemma record_failures_and_mark_unfinished_tables now db :
  fx_account_status (record_failures_and_mark_unfinished now db) = fx_account_status db ∧
  fx_compensation_history (record_failures_and_mark_unfinished now db) =
    fx_compensation_history (record_current_failures_to_compensation now db).2 ∧
  fx_crawl_exception (record_failures_and_mark_unfinished now db) =
    fx_crawl_exception db ++
    [ {| finished_date := now; ev_status := unfinished;
         e_create_time := now; e_update_time := now |} ].
Proof.
  unfold record_failures_and_mark_unfinished, mark_crawl_unfinished,
    record_current_failures_to_compensation. simpl.
  destruct (record_failed_accounts_tables now (date_of now) db) as (Ha & _ & Hl).
  cbv zeta in *. rewrite Ha, Hl. auto.
Qed.

(** C5, as stated, fails: in test mode a full pass that exits 0 with a
    failed account writes no ledger entry and no compensation record. *)
Lemma test_mode_partial_failure_records_nothing :
  _is_full_success Examples.attempted_A Examples.crawl_failed_for_A = false ∧
  fx_crawl_exception
    (_run_cmd true true full Examples.attempted_A (Exit 0) Examples.noon
              Examples.crawl_failed_for_A) = [] ∧
  fx_compensation_history
    (_run_cmd true true full Examples.attempted_A (Exit 0) Examples.noon
              Examples.crawl_failed_for_A) !! ("A", date_of Examples.noon) = None.
Proof. repeat split; vm_compute; reflexivity. Qed.

(** C5, amended.  For the full pass, a non-zero exit code, a timeout and
    an exception of the invocation are handled alike, in test mode or not:
    [record_current_failures_to_compensation] runs and then one
    [unfinished] entry is appended to the ledger.  An exit code 0 whose
    success check fails is handled the same way only outside test mode. *)
Theorem full_pass_failure_bookkeeping is_test attempted result now db :
  abnormal result = true ∨
  (result = Exit 0 ∧ _is_full_success attempted db = false ∧ is_test = false) →
  _run_cmd is_test true full attempted result now db =
    (mark_crawl_unfinished now (record_current_failures_to_compensation now db).2).2 ∧
  fx_crawl_exception (_run_cmd is_test true full attempted result now db) =
    fx_crawl_exception db ++
    [ {| finished_date := now; ev_status := unfinished;
         e_create_time := now; e_update_time := now |} ] ∧
  (∀ id r, fx_account_status db !! id = Some r →
     in_exception_or_failed (status r) = true →
     is_Some (fx_compensation_history (_run_cmd is_test true full attempted result now db)
                !! (id, date_of now))).
Proof.
  intros Hcase.
  assert (_run_cmd is_test true full attempted result now db =
          record_failures_and_mark_unfinished now db) as ->.
  { destruct Hcase as [Hab | (-> & Hs & ->)].
    - destruct result as [rc| |msg]; unfold _run_cmd; simpl in *; [|reflexivity..].
      destruct (bool_decide (rc = 0)); [discriminate|reflexivity].
    - unfold _run_cmd. simpl. rewrite Hs. reflexivity. }
  split; [reflexivity|].
  destruct (record_failures_and_mark_unfinished_tables now db) as (_ & Hh & Hl).
  split; [exact Hl|].
  intros id r Hid Hf. rewrite Hh.
  unfold record_current_failures_to_compensation.
  destruct (record_failed_accounts_tables now (date_of now) db) as (_ & Hh' & _).
  cbv zeta in Hh'. rewrite Hh'.
  erewrite flush_lookup_account;
    [eauto|apply NoDup_failed_accounts|apply elem_of_failed_accounts; eauto].
Qed.

Lemma full_pass_failure_bookkeeping_witness :
  fx_crawl_exception
    (_run_cmd true true full Examples.attempted_A TimeoutExpired Examples.noon
              Examples.first_failure) =
    [ {| finished_date := Examples.noon; ev_status := unfinished;
         e_create_time := Examples.noon; e_update_time := Examples.noon |} ] ∧
  is_Some (fx_compensation_history
             (_run_cmd true true full Examples.attempted_A TimeoutExpired Examples.noon
                       Examples.first_failure) !! ("A", date_of Examples.noon)).
Proof.
  pose proof (full_pass_failure_bookkeeping true Examples.attempted_A TimeoutExpired
                Examples.noon Examples.first_failure (or_introl eq_refl))
    as (_ & Hledger & Hrecord).
  split; [exact Hledger|].
  exact (Hrecord "A" (Examples.account_row EXCEPTION (Some 0) None (Some "boom"))
           eq_refl eq_refl).
Defined.

(** *** Test mode *)

Lemma prefix_iff (n h : string) :
  String.prefix n h = true ↔ ∃ post, h = n +:+ post.
Proof.
  revert h. induction n as [|c n IH]; intros h.
  - split; [intros _; exists h; reflexivity | intros _; destruct h; reflexivity].
  - destruct h as [|c' h]; simpl.
    + split; [discriminate | intros [post Hp]; discriminate].
    + destruct (Ascii.ascii_dec c c') as [->|Hne].
      * rewrite IH. split; intros [post Hp]; exists post.
        -- rewrite Hp. reflexivity.
        -- injection Hp as ->. reflexivity.
      * split; [discriminate|]. intros [post Hp].
        change (String c n +:+ post) with (String c (n +:+ post)) in Hp.
        congruence.
Qed.

(** [needle in hay] holds exactly when [hay] splits around [needle]. *)
Lemma contains_iff (n h : string) :
  contains n h = true ↔ ∃ pre post, h = pre +:+ n +:+ post.
Proof.
  induction h as [|c h IH].
  - change (contains n "") with (String.prefix n "" || false).
    rewrite orb_false_r, prefix_iff. split.
    + intros [post Hp]. exists "", post. exact Hp.
    + intros (pre & post & Hp). destruct pre; [eauto|discriminate].
  - change (contains n (String c h)) with (String.prefix n (String c h) || contains n h).
    rewrite orb_true_iff, prefix_iff, IH. split.
    + intros [[post Hp] | (pre & post & Hp)].
      * exists "", post. exact Hp.
      * exists (String c pre), post. rewrite Hp. reflexivity.
    + intros (pre & post & Hp). destruct pre as [|c' pre].
      * left. eauto.
      * right.
        change (String c' pre +:+ n +:+ post) with (String c' (pre +:+ n +:+ post)) in Hp.
        injection Hp as -> ->. eauto.
Qed.

(** C10. When the lower-cased base name of the target list contains
    [test], the flag is set, and a full pass that exits 0 leaves the three
    tables exactly as the crawl left them, whether or not the success check
    passes: no ledger entry, no compensation record. *)
Theorem test_mode_exit0_full_pass_writes_nothing
    basename pre post script_exists attempted now db :
  lower basename = pre +:+ "test" +:+ post →
  is_test_mode basename = true ∧
  _run_cmd (is_test_mode basename) script_exists full attempted (Exit 0) now db = db.
Proof.
  intros Hsub.
  assert (is_test_mode basename = true) as Ht
    by (apply contains_iff; eauto).
  split; [exact Ht|].
  rewrite Ht. unfold _run_cmd.
  destruct script_exists; simpl; [|reflexivity].
  destruct (_is_full_success attempted db); reflexivity.
Qed.

Lemma test_mode_exit0_full_pass_writes_nothing_witness :
  is_test_mode "Test1.xlsx" = true ∧
  _run_cmd (is_test_mode "Test1.xlsx") true full Examples.attempted_A (Exit 0)
           Examples.noon Examples.crawl_failed_for_A = Examples.crawl_failed_for_A.
Proof.
  exact (test_mode_exit0_full_pass_writes_nothing "Test1.xlsx" "" "1.xlsx" true
           Examples.attempted_A Examples.noon Examples.crawl_failed_for_A eq_refl).
Defined.

End OrchestratorFacts.

(** ** The proxy lease *)

Module ProxyFacts.
Import Proxy.

Lemma bind_run {A B} (m : M A) (k : A → M B) l w :
  (m ≫= k) l w =
  match m l w with
  | (Ret a, l', w') => k a l' w'
  | (Raise e, l', w') => (Raise e, l', w')
  end.
Proof. reflexivity. Qed.

(** *** The breaker never closes again *)

Create HintDb breaker.

Lemma keeps_disabled_ret {A} (a : A) : keeps_disabled (ret a).
Proof. intros l w H. exact H. Qed.

Lemma keeps_disabled_raise {A} e : keeps_disabled (@raise A e).
Proof. intros l w H. exact H. Qed.

Lemma keeps_disabled_bind {A B} (m : M A) (k : A → M B) :
  keeps_disabled m → (∀ a, keeps_disabled (k a)) → keeps_disabled (m ≫= k).
Proof.
  intros Hm Hk l w H. rewrite bind_run.
  specialize (Hm l w H). destruct (m l w) as [[[a|e] l'] w']; simpl in Hm.
  - apply Hk, Hm.
  - exact Hm.
Qed.

Lemma keeps_disabled_finally {A} (m : M A) (h : M unit) :
  keeps_disabled m → keeps_disabled h → keeps_disabled (finally m h).
Proof.
  intros Hm Hh l w H. unfold finally.
  specialize (Hm l w H). destruct (m l w) as [[o l'] w']; simpl in Hm.
  specialize (Hh l' w' Hm). destruct (h l' w') as [[[[]|e] l''] w'']; exact Hh.
Qed.

Lemma keeps_disabled_get_lease : keeps_disabled get_lease.
Proof. intros l w H. exact H. Qed.

Lemma keeps_disabled_now : keeps_disabled now.
Proof. intros l w H. exact H. Qed.

Lemma keeps_disabled_emit e : keeps_disabled (emit e).
Proof. intros l w H. exact H. Qed.

Lemma keeps_disabled_sleep rt s : keeps_disabled (sleep rt s).
Proof.
  intros l w H. unfold sleep.
  destruct (s <? 0); [exact H|]. destruct (sleep_limit rt <? s); exact H.
Qed.

Lemma keeps_disabled_http_get : keeps_disabled http_get.
Proof. intros l w H. unfold http_get. destruct (replies w); exact H. Qed.

#[local] Hint Resolve keeps_disabled_ret keeps_disabled_raise keeps_disabled_get_lease
  keeps_disabled_now keeps_disabled_emit keeps_disabled_sleep
  keeps_disabled_http_get : breaker.

Section ManagerFacts.
Variable py_str : json → string.
Variable rt : Runtime.
Variable cfg : Config.

Lemma keeps_disabled_wait attempt : keeps_disabled (wait_before_retry rt cfg attempt).
Proof. unfold wait_before_retry. destruct (_ <? _); auto with breaker. Qed.

(** A successful attempt stores the address and the expiry, and keeps
    [enabled] as it finds it. *)
Lemma keeps_disabled_store server : keeps_disabled (store_new_proxy py_str cfg server).
Proof.
  intros l w H.
  cbv [store_new_proxy mbind M_bind bind get_lease put_lease now
       datetime_add_seconds ret raise].
  destruct (_ && _); exact H.
Qed.

Lemma keeps_disabled_log_proxy_key : keeps_disabled (log_proxy_key rt cfg).
Proof.
  intros l w H. unfold log_proxy_key. destruct (qg_key cfg); exact H.
Qed.

Lemma keeps_disabled_record_failed_round : keeps_disabled (record_failed_round cfg).
Proof.
  intros l w H. unfold record_failed_round. simpl.
  destruct (_ <=? _); [reflexivity | exact H].
Qed.

Lemma keeps_disabled_attempt_loop remaining attempt :
  keeps_disabled (attempt_loop py_str rt cfg remaining attempt).
Proof.
  revert attempt. induction remaining as [|n IH]; intros attempt; simpl.
  - auto with breaker.
  - apply keeps_disabled_bind; [auto with breaker|].
    assert (keeps_disabled (wait_before_retry rt cfg attempt ≫=
                            λ _, attempt_loop py_str rt cfg n (attempt + 1))) as Hretry.
    { apply keeps_disabled_bind; [apply keeps_disabled_wait | intros _; apply IH]. }
    intros [| |[| | | | |result]]; auto with breaker.
    destruct (_ && _); [|exact Hretry].
    destruct (truthy _); [|exact Hretry].
    apply keeps_disabled_bind; [apply keeps_disabled_store | auto with breaker].
Qed.

Lemma keeps_disabled_get_new_proxy : keeps_disabled (_get_new_proxy py_str rt cfg).
Proof.
  unfold _get_new_proxy.
  apply keeps_disabled_bind; [auto with breaker | intros _].
  apply keeps_disabled_bind; [apply keeps_disabled_attempt_loop | intros [|]].
  - auto with breaker.
  - apply keeps_disabled_bind; [apply keeps_disabled_log_proxy_key | intros _].
    apply keeps_disabled_bind;
      [apply keeps_disabled_record_failed_round | auto with breaker].
Qed.

Lemma keeps_disabled_refresh : keeps_disabled (_refresh_proxy_if_needed py_str rt cfg).
Proof.
  unfold _refresh_proxy_if_needed.
  apply keeps_disabled_bind; [auto with breaker | intros l0].
  destruct (negb (enabled l0)); [auto with breaker|].
  apply keeps_disabled_bind; [auto with breaker | intros _].
  apply keeps_disabled_finally; [|auto with breaker].
  apply keeps_disabled_bind; [auto with breaker | intros l1].
  apply keeps_disabled_bind; [auto with breaker | intros t].
  destruct (_is_proxy_valid cfg l1 t);
    [auto with breaker | apply keeps_disabled_get_new_proxy].
Qed.

Lemma keeps_disabled_get_current_proxy : keeps_disabled (get_current_proxy py_str rt cfg).
Proof.
  unfold get_current_proxy.
  apply keeps_disabled_bind; [auto with breaker | intros l0].
  destruct (negb (enabled l0)); [auto with breaker|].
  apply keeps_disabled_bind; [apply keeps_disabled_refresh | intros ok].
  destruct (negb ok); [auto with breaker|].
  apply keeps_disabled_bind; auto with breaker.
Qed.

Lemma run_op_keeps_disabled op l w :
  enabled l = false → enabled (run_op py_str rt cfg op l w).1 = false.
Proof.
  intros H. destruct op; simpl.
  - pose proof (keeps_disabled_get_current_proxy l w H) as K.
    destruct (get_current_proxy py_str rt cfg l w) as [[o l'] w']. exact K.
  - pose proof (keeps_disabled_refresh l w H) as K.
    destruct (_refresh_proxy_if_needed py_str rt cfg l w) as [[o l'] w']. exact K.
  - pose proof (keeps_disabled_get_new_proxy l w H) as K.
    destruct (_get_new_proxy py_str rt cfg l w) as [[o l'] w']. exact K.
Qed.

Lemma run_ops_keeps_disabled ops l w :
  enabled l = false → enabled (run_ops py_str rt cfg ops l w).1 = false.
Proof.
  unfold run_ops. revert l w. induction ops as [|op ops IH]; intros l w H; simpl.
  - exact H.
  - pose proof (run_op_keeps_disabled op l w H) as K.
    destruct (run_op py_str rt cfg op l w) as [l' w']. apply IH, K.
Qed.


(** *** A refresh whose attempts all fail *)

(** A pause ends the method with an exception, touching nothing, or
    returns. *)
Lemma wait_before_retry_cases attempt l w :
  (∃ e, wait_before_retry rt cfg attempt l w = (Raise e, l, w)) ∨
  (∃ w', wait_before_retry rt cfg attempt l w = (Ret tt, l, w') ∧
         replies w' = replies w ∧
         ∃ tr, events w' = events w ++ tr ∧ Forall is_attempt_event tr).
Proof.
  unfold wait_before_retry, sleep. destruct (_ <? _).
  - destruct (retry_delay cfg <? 0); [left; eexists; reflexivity|].
    destruct (sleep_limit rt <? retry_delay cfg); [left; eexists; reflexivity|].
    right. eexists. split; [reflexivity|]. split; [reflexivity|].
    exists [EvSleep (retry_delay cfg)]. split; [reflexivity|].
    apply Forall_cons. split; [right; eauto | constructor].
  - right. exists w. split; [reflexivity|]. split; [reflexivity|].
    exists []. rewrite app_nil_r. split; [reflexivity | constructor].
Qed.

Lemma wait_before_retry_run attempt l w :
  pauses_return rt cfg → 0 ≤ attempt →
  ∃ w', wait_before_retry rt cfg attempt l w = (Ret tt, l, w') ∧
        replies w' = replies w ∧
        ∃ tr, events w' = events w ++ tr ∧ Forall is_attempt_event tr.
Proof.
  intros Hp Ha.
  destruct (wait_before_retry_cases attempt l w) as [[e He]|Hret]; [|exact Hret].
  exfalso. revert He. unfold wait_before_retry, sleep.
  destruct (attempt <? max_retries cfg - 1) eqn:Hlt; [|discriminate].
  destruct Hp as [Hone|[Hlo Hhi]]; [lia|].
  assert ((retry_delay cfg <? 0) = false) as -> by lia.
  assert ((sleep_limit rt <? retry_delay cfg) = false) as -> by lia.
  discriminate.
Qed.

Lemma http_get_run l w :
  ∃ w', http_get l w =
          (Ret (match replies w with [] => RequestException | r :: _ => http_result r end),
           l, w') ∧
        replies w' = drop 1 (replies w) ∧
        events w' = events w ++ [EvHttpGet].
Proof.
  unfold http_get. destruct (replies w); eexists; repeat split.
Qed.

(** When each of the replies the loop is going to read makes its attempt
    fail, the loop runs out: the lease is untouched and one reply per
    iteration has been consumed. *)
Lemma attempt_loop_all_fail remaining :
  ∀ attempt l w,
    pauses_return rt cfg → 0 ≤ attempt →
    Forall (λ r, reply_fails (http_result r) = true) (take remaining (replies w)) →
    ∃ w', attempt_loop py_str rt cfg remaining attempt l w = (Ret false, l, w') ∧
          replies w' = drop remaining (replies w).
Proof.
  induction remaining as [|n IH]; intros attempt l w Hp Ha Hall.
  - exists w. split; reflexivity.
  - simpl attempt_loop. rewrite bind_run.
    destruct (http_get_run l w) as (w1 & -> & Hr1 & _).
    assert (∀ w2, replies w2 = replies w1 →
              ∃ w', attempt_loop py_str rt cfg n (attempt + 1) l w2 = (Ret false, l, w') ∧
                    replies w' = drop (S n) (replies w)) as Hnext.
    { intros w2 Hw2.
      destruct (IH (attempt + 1) l w2) as (w' & Hrun & Hrep); [exact Hp|lia| |].
      - rewrite Hw2, Hr1. destruct (replies w) as [|r rest]; simpl in *.
        + rewrite take_nil. constructor.
        + rewrite drop_0. apply Forall_cons in Hall. tauto.
      - exists w'. split; [exact Hrun|].
        rewrite Hrep, Hw2, Hr1, drop_drop. reflexivity. }
    assert (∃ w', (wait_before_retry rt cfg attempt ≫=
                   λ _, attempt_loop py_str rt cfg n (attempt + 1)) l w1 = (Ret false, l, w') ∧
                  replies w' = drop (S n) (replies w)) as Hretry.
    { rewrite bind_run.
      destruct (wait_before_retry_run attempt l w1 Hp Ha) as (w2 & -> & Hw2 & _).
      apply Hnext, Hw2. }
    destruct (replies w) as [|r rest] eqn:Er; [exact Hretry|].
    simpl in Hall. apply Forall_cons in Hall as [Hfail _].
    destruct (http_result r) as [| |[| | | | |result]]; simpl in Hfail;
      try discriminate; try exact Hretry.
    apply negb_true_iff in Hfail.
    destruct (is_success_code _ && truthy _) eqn:E1; [|exact Hretry].
    simpl in Hfail. rewrite Hfail. exact Hretry.
Qed.

(** When the loop runs out, what is left of [_get_new_proxy] is the log
    message and the bookkeeping. *)
Lemma get_new_proxy_loop_runs_out l w :
  pauses_return rt cfg →
  Forall (λ r, reply_fails (http_result r) = true)
         (take (Z.to_nat (max_retries cfg)) (replies w)) →
  ∃ w', _get_new_proxy py_str rt cfg l w =
          (log_proxy_key rt cfg ≫= λ _, record_failed_round cfg ≫= λ _, ret false) l w' ∧
        replies w' = drop (Z.to_nat (max_retries cfg)) (replies w).
Proof.
  intros Hp Hall. unfold _get_new_proxy. rewrite bind_run.
  unfold emit at 1. cbv beta iota. rewrite bind_run.
  destruct (attempt_loop_all_fail (Z.to_nat (max_retries cfg)) 0 l
              {| clock := clock w; replies := replies w;
                 events := events w ++ [EvGetNewProxy] |} Hp (Z.le_refl 0) Hall)
    as (w' & -> & Hrep).
  exists w'. split; [reflexivity | exact Hrep].
Qed.

Lemma get_new_proxy_all_fail l w :
  key_can_be_sliced cfg = true →
  pauses_return rt cfg →
  Forall (λ r, reply_fails (http_result r) = true)
         (take (Z.to_nat (max_retries cfg)) (replies w)) →
  ∃ w', _get_new_proxy py_str rt cfg l w =
          (Ret false,
           {| enabled := if fallback_after_failures cfg <=? consecutive_failures l + 1
                         then false else enabled l;
              upstream_proxy := upstream_proxy l;
              proxy_expiry_time := proxy_expiry_time l;
              last_proxy_refresh := last_proxy_refresh l;
              consecutive_failures := consecutive_failures l + 1 |},
           w') ∧
        replies w' = drop (Z.to_nat (max_retries cfg)) (replies w).
Proof.
  intros Hkey Hp Hall.
  destruct (get_new_proxy_loop_runs_out l w Hp Hall) as (w' & -> & Hrep).
  exists w'. split; [|exact Hrep].
  unfold log_proxy_key, key_can_be_sliced in *.
  destruct (qg_key cfg); try discriminate; reflexivity.
Qed.

(** With a key that is a number, a boolean or [None], the log message
    raises before the round is counted. *)
Lemma get_new_proxy_all_fail_uncounted l w :
  key_is_not_text cfg = true →
  pauses_return rt cfg →
  Forall (λ r, reply_fails (http_result r) = true)
         (take (Z.to_nat (max_retries cfg)) (replies w)) →
  ∃ w', _get_new_proxy py_str rt cfg l w = (Raise TypeError, l, w') ∧
        replies w' = drop (Z.to_nat (max_retries cfg)) (replies w).
Proof.
  intros Hkey Hp Hall.
  destruct (get_new_proxy_loop_runs_out l w Hp Hall) as (w' & -> & Hrep).
  exists w'. split; [|exact Hrep].
  unfold log_proxy_key, key_is_not_text in *.
  destruct (qg_key cfg); try discriminate; reflexivity.
Qed.


(** *** The trace of a refresh *)

Lemma appends_only_nothing {A} P (m : M A) :
  (∀ l w, events (m l w).2 = events w) → appends_only P m.
Proof.
  intros Hm l w. exists []. rewrite Hm, app_nil_r. split; [reflexivity | constructor].
Qed.

Lemma appends_only_bind {A B} P (m : M A) (k : A → M B) :
  appends_only P m → (∀ a, appends_only P (k a)) → appends_only P (m ≫= k).
Proof.
  intros Hm Hk l w. rewrite bind_run.
  destruct (Hm l w) as (tr1 & E1 & F1).
  destruct (m l w) as [[[a|e] l'] w']; simpl in E1.
  - destruct (Hk a l' w') as (tr2 & E2 & F2).
    exists (tr1 ++ tr2). rewrite E2, E1, app_assoc. split; [reflexivity|].
    apply Forall_app. auto.
  - exists tr1. auto.
Qed.

Lemma appends_only_wait attempt :
  appends_only is_attempt_event (wait_before_retry rt cfg attempt).
Proof.
  intros l w.
  destruct (wait_before_retry_cases attempt l w) as [[e ->] | (w' & -> & _ & Htr)].
  - exists []. rewrite app_nil_r. split; [reflexivity | constructor].
  - exact Htr.
Qed.

Lemma store_new_proxy_run server l w :
  store_new_proxy py_str cfg server l w =
  if (datetime_min <=? clock w + timedelta_seconds (ip_lifetime cfg))
     && (clock w + timedelta_seconds (ip_lifetime cfg) <=? datetime_max)
  then
    (Ret tt,
     {| enabled := enabled l;
        upstream_proxy := Some ("http://" +:+ py_str server);
        proxy_expiry_time := Some (clock w + timedelta_seconds (ip_lifetime cfg));
        last_proxy_refresh := Some (clock w);
        consecutive_failures := 0 |}, w)
  else
    (Raise OverflowError,
     {| enabled := enabled l;
        upstream_proxy := Some ("http://" +:+ py_str server);
        proxy_expiry_time := proxy_expiry_time l;
        last_proxy_refresh := last_proxy_refresh l;
        consecutive_failures := consecutive_failures l |}, w).
Proof.
  cbv [store_new_proxy mbind M_bind bind get_lease put_lease now
       datetime_add_seconds ret raise].
  destruct (_ && _); reflexivity.
Qed.

Lemma store_new_proxy_events server l w :
  events (store_new_proxy py_str cfg server l w).2 = events w.
Proof. rewrite store_new_proxy_run. destruct (_ && _); reflexivity. Qed.

Lemma log_proxy_key_events l w : events (log_proxy_key rt cfg l w).2 = events w.
Proof. unfold log_proxy_key. destruct (qg_key cfg); reflexivity. Qed.

Lemma appends_only_http_get : appends_only is_attempt_event http_get.
Proof.
  intros l w. destruct (http_get_run l w) as (w' & -> & _ & Hev).
  exists [EvHttpGet]. split; [exact Hev|].
  apply Forall_cons. split; [left; reflexivity | constructor].
Qed.

Lemma appends_only_attempt_loop remaining attempt :
  appends_only is_attempt_event (attempt_loop py_str rt cfg remaining attempt).
Proof.
  revert attempt. induction remaining as [|n IH]; intros attempt; simpl.
  - apply appends_only_nothing. reflexivity.
  - apply appends_only_bind; [apply appends_only_http_get|].
    assert (appends_only is_attempt_event
              (wait_before_retry rt cfg attempt ≫=
               λ _, attempt_loop py_str rt cfg n (attempt + 1))) as Hretry.
    { apply appends_only_bind; [apply appends_only_wait | intros _; apply IH]. }
    intros [| |[| | | | |result]];
      try exact Hretry; try (apply appends_only_nothing; reflexivity).
    destruct (_ && _); [|exact Hretry].
    destruct (truthy _); [|exact Hretry].
    apply appends_only_nothing. intros l w. rewrite bind_run.
    pose proof (store_new_proxy_events
                  (server_of (proxy_item_of (dict_get result "data"))) l w) as E.
    destruct (store_new_proxy py_str cfg _ l w) as [[[[]|e] l1] w1]; exact E.
Qed.

Lemma get_new_proxy_events l w :
  ∃ tr, events (_get_new_proxy py_str rt cfg l w).2 = events w ++ EvGetNewProxy :: tr ∧
        Forall is_attempt_event tr.
Proof.
  unfold _get_new_proxy. rewrite bind_run. unfold emit at 1. cbv beta iota.
  match goal with |- context [(?m ≫= ?k) l ?w1] =>
    assert (appends_only is_attempt_event (m ≫= k)) as Happ;
    [|destruct (Happ l w1) as (tr & E & F)]
  end.
  - apply appends_only_bind; [apply appends_only_attempt_loop|].
    intros [|]; apply appends_only_nothing; [reflexivity|].
    intros l1 w2. rewrite bind_run.
    pose proof (log_proxy_key_events l1 w2) as E.
    destruct (log_proxy_key rt cfg l1 w2) as [[[[]|e] l3] w3]; exact E.
  - exists tr. rewrite E. simpl. rewrite <- app_assoc. auto.
Qed.

(** *** get_current_proxy *)


Lemma get_current_proxy_disabled l w :
  enabled l = false → get_current_proxy py_str rt cfg l w = (Ret None, l, w).
Proof.
  intros He. unfold get_current_proxy. rewrite bind_run. unfold get_lease.
  rewrite He. reflexivity.
Qed.

Lemma get_current_proxy_valid l w :
  enabled l = true → _is_proxy_valid cfg l (clock w) = true →
  get_current_proxy py_str rt cfg l w =
    (Ret (upstream_proxy l), l,
     {| clock := clock w; replies := replies w;
        events := events w ++ [EvAcquire; EvRelease] |}).
Proof.
  intros He Hv.
  cbv [get_current_proxy _refresh_proxy_if_needed mbind M_bind bind get_lease
       now emit finally ret].
  rewrite He. simpl. rewrite He. simpl. rewrite Hv. simpl.
  rewrite <- app_assoc. reflexivity.
Qed.



(** [get_current_proxy], by what [_get_new_proxy] does under the mutex. *)
Lemma get_current_proxy_refresh l w :
  enabled l = true → _is_proxy_valid cfg l (clock w) = false →
  get_current_proxy py_str rt cfg l w =
  match _get_new_proxy py_str rt cfg l
          {| clock := clock w; replies := replies w;
             events := events w ++ [EvAcquire] |} with
  | (o, l1, w1) =>
      (match o with
       | Ret true => Ret (upstream_proxy l1)
       | Ret false => Ret None
       | Raise e => Raise e
       end, l1,
       {| clock := clock w1; replies := replies w1;
          events := events w1 ++ [EvRelease] |})
  end.
Proof.
  intros He Hv.
  cbv [get_current_proxy _refresh_proxy_if_needed mbind M_bind bind get_lease
       now emit finally ret].
  rewrite He. simpl. rewrite He. simpl. rewrite Hv.
  destruct (_get_new_proxy py_str rt cfg l _) as [[[[|]|e] l1] w1]; reflexivity.
Qed.

Lemma refresh_proxy_if_needed_run l w :
  _refresh_proxy_if_needed py_str rt cfg l w =
  if negb (enabled l) then (Ret false, l, w)
  else if _is_proxy_valid cfg l (clock w)
  then (Ret true, l, {| clock := clock w; replies := replies w;
                        events := events w ++ [EvAcquire; EvRelease] |})
  else
    match _get_new_proxy py_str rt cfg l
            {| clock := clock w; replies := replies w;
               events := events w ++ [EvAcquire] |} with
    | (o, l1, w1) =>
        (o, l1, {| clock := clock w1; replies := replies w1;
                   events := events w1 ++ [EvRelease] |})
    end.
Proof.
  cbv [_refresh_proxy_if_needed mbind M_bind bind get_lease now emit finally ret].
  destruct (enabled l); simpl; [|reflexivity].
  destruct (_is_proxy_valid cfg l (clock w)).
  - simpl. rewrite <- ?app_assoc. reflexivity.
  - destruct (_get_new_proxy py_str rt cfg l _) as [[[a|e] l1] w1]; reflexivity.
Qed.

(** *** Failed rounds and the breaker *)

Lemma run_op_uncounted op l w :
  key_is_not_text cfg = true →
  pauses_return rt cfg →
  Forall (λ r, reply_fails (http_result r) = true) (replies w) →
  (run_op py_str rt cfg op l w).1 = l ∧
  Forall (λ r, reply_fails (http_result r) = true)
         (replies (run_op py_str rt cfg op l w).2).
Proof.
  intros Hkey Hp Hall.
  assert (∀ w0, replies w0 = replies w →
            ∃ w', _get_new_proxy py_str rt cfg l w0 = (Raise TypeError, l, w') ∧
                  Forall (λ r, reply_fails (http_result r) = true) (replies w'))
    as Hnew.
  { intros w0 Hw0.
    destruct (get_new_proxy_all_fail_uncounted l w0 Hkey Hp) as (w' & Hrun & Hrep).
    - rewrite Hw0. apply Forall_take, Hall.
    - exists w'. split; [exact Hrun|]. rewrite Hrep, Hw0. apply Forall_drop, Hall. }
  destruct op; simpl.
  - destruct (enabled l) eqn:He;
      [|rewrite (get_current_proxy_disabled l w He); auto].
    destruct (_is_proxy_valid cfg l (clock w)) eqn:Hv.
    + rewrite (get_current_proxy_valid l w He Hv). auto.
    + rewrite (get_current_proxy_refresh l w He Hv).
      destruct (Hnew {| clock := clock w; replies := replies w;
                        events := events w ++ [EvAcquire] |} eq_refl)
        as (w' & -> & Hrep).
      auto.
  - rewrite refresh_proxy_if_needed_run.
    destruct (enabled l); simpl; [|auto].
    destruct (_is_proxy_valid cfg l (clock w)); [auto|].
    destruct (Hnew {| clock := clock w; replies := replies w;
                      events := events w ++ [EvAcquire] |} eq_refl)
      as (w' & -> & Hrep).
    auto.
  - destruct (Hnew w eq_refl) as (w' & -> & Hrep). auto.
Qed.

(** C6.  The claim fails for a provider key that is not text.  When the
    key is a number, a boolean or [None] (a key written without quotes in
    the YAML file, or left empty), a call of [_get_new_proxy] whose
    attempts all fail leaves with [TypeError], raised by the log message
    that slices the key, before the round is counted: the lease is left as
    it was.  So while the provider keeps failing, no sequence of calls of
    the manager changes the lease: [consecutive_failures] never moves and
    [enabled] is never turned off, however many rounds fail. *)
Theorem failed_round_is_not_counted_when_key_is_not_text l w :
  key_is_not_text cfg = true →
  pauses_return rt cfg →
  Forall (λ r, reply_fails (http_result r) = true) (replies w) →
  (∃ w', _get_new_proxy py_str rt cfg l w = (Raise TypeError, l, w') ∧
         replies w' = drop (Z.to_nat (max_retries cfg)) (replies w)) ∧
  (∀ ops, (run_ops py_str rt cfg ops l w).1 = l).
Proof.
  intros Hkey Hp Hall. split.
  - apply get_new_proxy_all_fail_uncounted; [exact Hkey | exact Hp |].
    apply Forall_take, Hall.
  - intros ops. unfold run_ops. revert w Hall.
    induction ops as [|op ops IH]; intros w Hall; [reflexivity|].
    simpl. destruct (run_op_uncounted op l w Hkey Hp Hall) as [Hl Hrep].
    destruct (run_op py_str rt cfg op l w) as [l' w']. simpl in *. subst l'.
    apply IH, Hrep.
Qed.

(** X28. With a provider key that can be sliced (a string) and pauses that
    can be taken, a call of [_get_new_proxy] whose attempts all fail adds
    exactly one to [consecutive_failures], however many attempts it made,
    and turns [enabled] off as soon as the count has reached
    [fallback_after_failures].  Once [enabled] is off, whatever the
    configuration, no sequence of calls of the manager turns it on again,
    whatever the provider answers, and [get_current_proxy] returns [None]
    leaving the world as it is: no request is sent. *)
Theorem breaker_is_one_way l w :
  (key_can_be_sliced cfg = true →
   pauses_return rt cfg →
   Forall (λ r, reply_fails (http_result r) = true)
          (take (Z.to_nat (max_retries cfg)) (replies w)) →
   ∃ l' w', _get_new_proxy py_str rt cfg l w = (Ret false, l', w') ∧
            consecutive_failures l' = consecutive_failures l + 1 ∧
            replies w' = drop (Z.to_nat (max_retries cfg)) (replies w) ∧
            (fallback_after_failures cfg ≤ consecutive_failures l + 1 →
             enabled l' = false) ∧
            (consecutive_failures l + 1 < fallback_after_failures cfg →
             enabled l' = enabled l)) ∧
  (enabled l = false →
   ∀ ops, enabled (run_ops py_str rt cfg ops l w).1 = false) ∧
  (enabled l = false →
   get_current_proxy py_str rt cfg l w = (Ret None, l, w)).
Proof.
  split; [|split].
  - intros Hkey Hp Hall.
    destruct (get_new_proxy_all_fail l w Hkey Hp Hall) as (w' & Hrun & Hrep).
    eexists _, w'. split; [exact Hrun|]. simpl.
    split; [reflexivity|]. split; [exact Hrep|]. split; intros Hc.
    + assert ((fallback_after_failures cfg <=? consecutive_failures l + 1) = true)
        as -> by lia. reflexivity.
    + assert ((fallback_after_failures cfg <=? consecutive_failures l + 1) = false)
        as -> by lia. reflexivity.
  - intros He ops. apply run_ops_keeps_disabled, He.
  - apply get_current_proxy_disabled.
Qed.


End ManagerFacts.

(** The same three rounds of failing replies that open the breaker of a
    pool whose key is text (below) leave the pool whose key is the number
    12345678 as it was: enabled, with no failure counted. *)
Lemma failed_round_is_not_counted_witness :
  (∃ w', _get_new_proxy Examples.str_of_server Examples.cpython
           Examples.numeric_key_config Examples.fresh_lease
           (Examples.world_at Examples.noon (replicate 9 Examples.bad_reply))
         = (Raise TypeError, Examples.fresh_lease, w') ∧
         replies w' = replicate 6 Examples.bad_reply) ∧
  (run_ops Examples.str_of_server Examples.cpython Examples.numeric_key_config
           [CallGetCurrentProxy; CallGetCurrentProxy; CallGetCurrentProxy]
           Examples.fresh_lease
           (Examples.world_at Examples.noon (replicate 9 Examples.bad_reply))).1
    = Examples.fresh_lease.
Proof.
  destruct (failed_round_is_not_counted_when_key_is_not_text
              Examples.str_of_server Examples.cpython Examples.numeric_key_config
              Examples.fresh_lease
              (Examples.world_at Examples.noon (replicate 9 Examples.bad_reply)))
    as [Hround Hops].
  - reflexivity.
  - right. unfold can_pause. simpl. lia.
  - repeat constructor.
  - split; [exact Hround|].
    exact (Hops [CallGetCurrentProxy; CallGetCurrentProxy; CallGetCurrentProxy]).
Defined.

(** The breaker scenario: three calls that find only failing replies, with
    [fallback_after_failures = 3], leave the pool disabled with the good
    reply still unread.  From there [get_current_proxy] answers [None]
    without reading it, and a direct [_get_new_proxy] that does read it
    stores the address but leaves the pool disabled. *)
Lemma breaker_is_one_way_witness :
  (∃ l' w', _get_new_proxy Examples.str_of_server Examples.cpython Examples.pool_config
              Examples.fresh_lease
              (Examples.world_at Examples.noon (replicate 3 Examples.bad_reply))
              = (Ret false, l', w') ∧
            consecutive_failures l' = 1) ∧
  run_ops Examples.str_of_server Examples.cpython Examples.pool_config
          [CallGetCurrentProxy; CallGetCurrentProxy; CallGetCurrentProxy]
          Examples.fresh_lease
          (Examples.world_at Examples.noon
             (replicate 9 Examples.bad_reply ++ [Examples.good_reply]))
    = (Examples.tripped_lease, Examples.tripped_world) ∧
  get_current_proxy Examples.str_of_server Examples.cpython Examples.pool_config
                    Examples.tripped_lease Examples.tripped_world
    = (Ret None, Examples.tripped_lease, Examples.tripped_world) ∧
  enabled (run_ops Examples.str_of_server Examples.cpython Examples.pool_config [CallGetNewProxy]
                   Examples.tripped_lease Examples.tripped_world).1 = false ∧
  upstream_proxy (run_ops Examples.str_of_server Examples.cpython Examples.pool_config [CallGetNewProxy]
                          Examples.tripped_lease Examples.tripped_world).1
    = Some "http://10.0.0.1:8000".
Proof.
  pose proof (breaker_is_one_way Examples.str_of_server Examples.cpython Examples.pool_config
                Examples.fresh_lease
                (Examples.world_at Examples.noon (replicate 3 Examples.bad_reply)))
    as (Hcount & _ & _).
  pose proof (breaker_is_one_way Examples.str_of_server Examples.cpython Examples.pool_config
                Examples.tripped_lease Examples.tripped_world)
    as (_ & Hstay & Hnone).
  split.
  { destruct Hcount as (l' & w' & Hrun & Hcf & _).
    - reflexivity.
    - right. unfold can_pause. simpl. lia.
    - repeat constructor.
    - exists l', w'. split; [exact Hrun | exact Hcf]. }
  split; [vm_compute; reflexivity|].
  split; [exact (Hnone eq_refl)|].
  split; [exact (Hstay eq_refl [CallGetNewProxy])|].
  vm_compute; reflexivity.
Defined.


End ProxyFacts.

(** * Further properties of the store *)

Module StoreExtra.
Import Store StoreFacts.

(** ** The single-row methods *)

Lemma sql_affected_one (set : AccountStatus → AccountStatus) account_id
    (accounts : gmap string AccountStatus) :
  sql_affected (where_account_id account_id) set accounts =
  match accounts !! account_id with
  | Some r => if decide (set r = r) then 0 else 1
  | None => 0
  end.
Proof.
  unfold sql_affected.
  set (P := λ kv : string * AccountStatus,
              where_account_id account_id kv.1 kv.2 = true ∧ set kv.2 ≠ kv.2).
  assert (∀ kv, kv ∈ filter P (map_to_list accounts) ↔
                kv.1 = account_id ∧ accounts !! account_id = Some kv.2 ∧ set kv.2 ≠ kv.2)
    as Hin.
  { intros [k r]. rewrite list_elem_of_filter, elem_of_map_to_list. unfold P; simpl.
    unfold where_account_id. rewrite bool_decide_eq_true. split.
    - intros [[-> Hne] Hk]. auto.
    - intros (-> & Hk & Hne). auto. }
  assert (NoDup (filter P (map_to_list accounts))) as Hnd
    by (apply NoDup_filter, NoDup_map_to_list).
  destruct (filter P (map_to_list accounts)) as [|kv1 l] eqn:E.
  - destruct (accounts !! account_id) as [r|] eqn:Hr; [|reflexivity].
    destruct (decide (set r = r)) as [|Hne]; [reflexivity|]. exfalso.
    assert ((account_id, r) ∈ @nil (string * AccountStatus)) as Habs
      by (apply Hin; auto).
    inversion Habs.
  - assert (kv1 ∈ kv1 :: l) as H1 by left. apply Hin in H1 as (Hk1 & Hr1 & Hne1).
    rewrite Hr1. destruct (decide (set kv1.2 = kv1.2)) as [|_]; [contradiction|].
    destruct l as [|kv2 l]; [reflexivity|]. exfalso.
    assert (kv2 ∈ kv1 :: kv2 :: l) as H2 by (right; left).
    apply Hin in H2 as (Hk2 & Hr2 & _).
    apply NoDup_cons in Hnd as [Hnot _]. apply Hnot. apply elem_of_cons. left.
    destruct kv1, kv2; simpl in *. congruence.
Qed.


Lemma update_account_row_lookup set account_id db k :
  fx_account_status (update_account_row set account_id db).2 !! k =
  (λ r, if bool_decide (k = account_id) then set r else r) <$> (fx_account_status db !! k).
Proof. unfold update_account_row. simpl. apply lookup_sql_update. Qed.

Lemma update_account_row_tables set account_id db :
  fx_compensation_history (update_account_row set account_id db).2
    = fx_compensation_history db ∧
  fx_crawl_exception (update_account_row set account_id db).2 = fx_crawl_exception db.
Proof. split; reflexivity. Qed.

Lemma update_account_row_result set account_id db :
  (update_account_row set account_id db).1 =
  match fx_account_status db !! account_id with
  | Some r => negb (bool_decide (set r = r))
  | None => false
  end.
Proof.
  unfold update_account_row. simpl. rewrite sql_affected_one.
  destruct (fx_account_status db !! account_id) as [r|]; [|reflexivity].
  destruct (decide (set r = r)) as [He|Hne].
  - rewrite (bool_decide_eq_true_2 _ He). reflexivity.
  - rewrite (bool_decide_eq_false_2 _ Hne). reflexivity.
Qed.

(** A single-row update aimed at an account that has no row reports
    [False] and leaves the three tables as they are. *)
Lemma update_account_row_missing set account_id db :
  fx_account_status db !! account_id = None →
  update_account_row set account_id db = (false, db).
Proof.
  intros Hnone. apply injective_projections.
  - rewrite update_account_row_result, Hnone. reflexivity.
  - apply DB_eq; try reflexivity.
    apply map_eq. intros k. rewrite update_account_row_lookup.
    change (fx_account_status (false, db).2) with (fx_account_status db).
    destruct (fx_account_status db !! k) as [r|] eqn:Hk; [|reflexivity]. simpl.
    rewrite bool_decide_eq_false_2; [reflexivity | congruence].
Qed.

(** X1. [initialize_account_status] never overwrites: on an account that
    has a row it changes nothing; otherwise it inserts a PENDING row with
    [retry_count = 0] under the given name.  Rows of other accounts are
    untouched either way, and a second call (any name, any time) is a
    no-op. *)
Theorem initialize_account_status_never_overwrites
    defaults now now' account_id name name' db :
  (∀ r, fx_account_status db !! account_id = Some r →
        initialize_account_status defaults now account_id name db = (true, db)) ∧
  (fx_account_status db !! account_id = None →
   ∃ r', fx_account_status
           (initialize_account_status defaults now account_id name db).2 !! account_id
           = Some r' ∧
         status r' = PENDING ∧ retry_count r' = 0 ∧ account_name r' = name ∧
         create_time r' = now) ∧
  (∀ k, k ≠ account_id →
        fx_account_status (initialize_account_status defaults now account_id name db).2 !! k
          = fx_account_status db !! k) ∧
  initialize_account_status defaults now' account_id name'
    (initialize_account_status defaults now account_id name db).2
    = (true, (initialize_account_status defaults now account_id name db).2).
Proof.
  unfold initialize_account_status at 1 2 3 5 6.
  destruct (fx_account_status db !! account_id) as [r|] eqn:Hr; simpl.
  - split; [intros; reflexivity|]. split; [discriminate|]. split; [reflexivity|].
    unfold initialize_account_status. rewrite Hr. reflexivity.
  - split; [discriminate|]. split.
    + intros _. rewrite lookup_insert_eq. eexists. split; [reflexivity|]. auto.
    + split; [intros k Hk; apply lookup_insert_ne; congruence|].
      unfold initialize_account_status. simpl. rewrite lookup_insert_eq. reflexivity.
Qed.

(** X2. [update_account_status] on an account without a row returns
    [False] and changes nothing.  On an account with a row it sets the
    status, replaces [last_exception_msg] only when a message is passed,
    keeps the retry and compensation columns, leaves every other row and
    the other two tables alone, and returns [True] whenever the row's
    [update_time] differs from the instant of the call. *)
Theorem update_account_status_effect now account_id new_status msg db :
  (fx_account_status db !! account_id = None →
   update_account_status now account_id new_status msg db = (false, db)) ∧
  (∀ r, fx_account_status db !! account_id = Some r →
     ∃ r', fx_account_status (update_account_status now account_id new_status msg db).2
             !! account_id = Some r' ∧
           status r' = new_status ∧
           last_exception_msg r' =
             match msg with Some m => Some m | None => last_exception_msg r end ∧
           retry_count r' = retry_count r ∧
           compensation_priority r' = compensation_priority r ∧
           consecutive_failures r' = consecutive_failures r ∧
           (update_time r ≠ now →
            (update_account_status now account_id new_status msg db).1 = true)) ∧
  (∀ k, k ≠ account_id →
     fx_account_status (update_account_status now account_id new_status msg db).2 !! k
       = fx_account_status db !! k) ∧
  fx_compensation_history (update_account_status now account_id new_status msg db).2
    = fx_compensation_history db ∧
  fx_crawl_exception (update_account_status now account_id new_status msg db).2
    = fx_crawl_exception db.
Proof.
  unfold update_account_status. split; [apply update_account_row_missing|].
  split.
  { intros r Hr.
    assert (fx_account_status
              (update_account_row (update_status_set new_status msg now) account_id db).2
              !! account_id = Some (update_status_set new_status msg now r)) as Hr'.
    { rewrite update_account_row_lookup, Hr. simpl.
      rewrite (bool_decide_eq_true_2 _ eq_refl). reflexivity. }
    rewrite Hr'.
    eexists. split; [reflexivity|]. do 5 (split; [reflexivity|]).
    intros Hne. rewrite update_account_row_result, Hr.
    rewrite bool_decide_eq_false_2; [reflexivity|].
    intros Heq. apply Hne. rewrite <- Heq at 1. reflexivity. }
  split; [|split; reflexivity].
  intros k Hk. rewrite update_account_row_lookup.
  rewrite (bool_decide_eq_false_2 _ Hk).
  destruct (fx_account_status db !! k); reflexivity.
Qed.

(** X3. [increment_retry_count] returns [True] exactly when the account
    has a row, and then adds exactly one to its [retry_count], keeping its
    status. *)
Theorem increment_retry_count_iff_row now account_id db :
  ((increment_retry_count now account_id db).1 = true ↔
   is_Some (fx_account_status db !! account_id)) ∧
  (∀ r, fx_account_status db !! account_id = Some r →
     ∃ r', fx_account_status (increment_retry_count now account_id db).2 !! account_id
             = Some r' ∧
           retry_count r' = retry_count r + 1 ∧ status r' = status r).
Proof.
  unfold increment_retry_count. split.
  - rewrite update_account_row_result.
    destruct (fx_account_status db !! account_id) as [r|] eqn:Hr.
    + split; [eauto|]. intros _.
      rewrite bool_decide_eq_false_2; [reflexivity|].
      intros Heq. apply (f_equal retry_count) in Heq. simpl in Heq. lia.
    + split; [discriminate | intros [? ?]; discriminate].
  - intros r Hr. rewrite update_account_row_lookup, Hr. simpl.
    rewrite (bool_decide_eq_true_2 _ eq_refl). eexists. split; [reflexivity|]. auto.
Qed.

(** X4. An account put into RETRYING by [reset_account_for_retry] comes
    out of the next reset PENDING with [compensation_priority = 1], its
    retry time and message cleared and one more retry counted; but it is
    not flushed: no compensation record of it is created or changed. *)
Theorem retrying_account_through_reset t1 t2 account_id msg db r :
  fx_account_status db !! account_id = Some r →
  (∃ r', fx_account_status
           (reset_all_accounts_to_pending t2
              (reset_account_for_retry t1 account_id msg db).2).2 !! account_id
           = Some r' ∧
         status r' = PENDING ∧ compensation_priority r' = Some 1 ∧
         retry_count r' = retry_count r + 1 ∧
         next_retry_time r' = None ∧ last_exception_msg r' = None ∧
         consecutive_failures r' = consecutive_failures r) ∧
  (∀ d, fx_compensation_history
          (reset_all_accounts_to_pending t2
             (reset_account_for_retry t1 account_id msg db).2).2 !! (account_id, d)
        = fx_compensation_history db !! (account_id, d)).
Proof.
  intros Hr.
  assert (fx_account_status (reset_account_for_retry t1 account_id msg db).2 !! account_id
          = Some (retry_set msg t1 r)) as Hr1.
  { unfold reset_account_for_retry. rewrite update_account_row_lookup, Hr. simpl.
    rewrite (bool_decide_eq_true_2 _ eq_refl). reflexivity. }
  split.
  - rewrite reset_lookup_account, Hr1. simpl.
    eexists. split; [reflexivity|]. unfold reset_row. simpl. repeat split.
  - intros d. rewrite reset_result. cbn [snd fx_compensation_history].
    rewrite flush_lookup_other_account; [reflexivity|].
    intros Hin. apply list_elem_of_fmap in Hin as ([k r'] & Heq & Hin).
    simpl in Heq. subst k.
    apply elem_of_failed_accounts in Hin as [Hk Hf].
    rewrite Hr1 in Hk. injection Hk as <-. discriminate Hf.
Qed.

Lemma retrying_account_through_reset_witness :
  (∃ r', fx_account_status
           (reset_all_accounts_to_pending (Examples.noon + 1)
              (reset_account_for_retry Examples.noon "A" (Some "again")
                 Examples.stale_pending).2).2 !! "A" = Some r' ∧
         status r' = PENDING ∧ compensation_priority r' = Some 1 ∧
         retry_count r' = 0 + 1 ∧
         next_retry_time r' = None ∧ last_exception_msg r' = None ∧
         consecutive_failures r' = Some 3) ∧
  (∀ d, fx_compensation_history
          (reset_all_accounts_to_pending (Examples.noon + 1)
             (reset_account_for_retry Examples.noon "A" (Some "again")
                Examples.stale_pending).2).2 !! ("A", d)
        = fx_compensation_history Examples.stale_pending !! ("A", d)).
Proof.
  exact (retrying_account_through_reset Examples.noon (Examples.noon + 1) "A"
           (Some "again") Examples.stale_pending
           (Examples.account_row PENDING (Some 3) (Some 19990) None) eq_refl).
Defined.


(** ** mark_compensation_failed *)

Lemma sql_affected_zero_iff {K} `{Countable K} {V} `{EqDecision V}
    (c : K → V → bool) (set : V → V) (t : gmap K V) :
  sql_affected c set t = 0 ↔
  ∀ k r, t !! k = Some r → c k r = true → set r = r.
Proof.
  unfold sql_affected. split.
  - intros Hz k r Hk Hc. destruct (decide (set r = r)) as [|Hne]; [assumption|].
    exfalso.
    assert ((k, r) ∈ filter (λ kv : K * V, c kv.1 kv.2 = true ∧ set kv.2 ≠ kv.2)
                      (map_to_list t)) as Hin.
    { apply list_elem_of_filter. split; [auto|]. apply elem_of_map_to_list, Hk. }
    destruct (filter _ (map_to_list t)); [inversion Hin | discriminate Hz].
  - intros Hall.
    destruct (filter _ (map_to_list t)) as [|[k r] l] eqn:F; [reflexivity|]. exfalso.
    assert ((k, r) ∈ filter (λ kv : K * V, c kv.1 kv.2 = true ∧ set kv.2 ≠ kv.2)
                      (map_to_list t)) as Hin by (rewrite F; left).
    apply list_elem_of_filter in Hin as [[Hc Hne] Hin]. simpl in *.
    apply elem_of_map_to_list in Hin. apply Hne. eauto.
Qed.

Lemma history_failed_set_changes now reason k h account_id today :
  pending_in_window account_id today k h = true →
  history_failed_set now reason h ≠ h.
Proof.
  unfold pending_in_window. intros Hc Heq.
  apply andb_true_iff in Hc as [Hc _]. apply andb_true_iff in Hc as [_ Hp].
  apply bool_decide_eq_true in Hp.
  apply (f_equal compensation_status) in Heq. simpl in Heq. congruence.
Qed.

(** The UPDATE of [mark_compensation_failed] changes no row exactly when
    the account has no PENDING record in the window. *)
Lemma mark_failed_affected_zero now reason account_id history :
  sql_affected (pending_in_window account_id (date_of now))
               (history_failed_set now reason) history = 0 ↔
  ∀ k h, history !! k = Some h →
         pending_in_window account_id (date_of now) k h = false.
Proof.
  rewrite sql_affected_zero_iff. split.
  - intros Hall k h Hk.
    destruct (pending_in_window account_id (date_of now) k h) eqn:Hc; [|reflexivity].
    exfalso. exact (history_failed_set_changes _ _ _ _ _ _ Hc (Hall k h Hk Hc)).
  - intros Hall k h Hk Hc. rewrite (Hall k h Hk) in Hc. discriminate.
Qed.

(** X5. When the account has a PENDING record dated within the last
    seven days, [mark_compensation_failed] turns every such record into
    FAILED, with the given reason or, when none is given, the reason the
    record had; it inserts nothing, touches no other record, no status row
    and no ledger entry, and returns [True]. *)
Theorem mark_compensation_failed_updates now account_id reason db d h :
  fx_compensation_history db !! (account_id, d) = Some h →
  compensation_status h = COMP_PENDING →
  date_of now - 7 ≤ d →
  (mark_compensation_failed now account_id reason db).1 = true ∧
  (∀ k, fx_compensation_history (mark_compensation_failed now account_id reason db).2 !! k =
        (λ h0, if pending_in_window account_id (date_of now) k h0
               then history_failed_set now reason h0 else h0)
          <$> (fx_compensation_history db !! k)) ∧
  fx_compensation_history (mark_compensation_failed now account_id reason db).2
    !! (account_id, d)
    = Some {| h_account_name := h_account_name h;
              failure_reason := match reason with
                                | Some x => Some x
                                | None => failure_reason h
                                end;
              compensation_status := COMP_FAILED;
              compensation_date := compensation_date h;
              h_create_time := h_create_time h;
              h_update_time := now |} ∧
  fx_account_status (mark_compensation_failed now account_id reason db).2
    = fx_account_status db ∧
  fx_crawl_exception (mark_compensation_failed now account_id reason db).2
    = fx_crawl_exception db.
Proof.
  intros Hh Hp Hd.
  assert (pending_in_window account_id (date_of now) (account_id, d) h = true) as Hc.
  { unfold pending_in_window; simpl.
    rewrite (bool_decide_eq_true_2 _ eq_refl), (bool_decide_eq_true_2 _ Hp). simpl. lia. }
  unfold mark_compensation_failed.
  destruct (bool_decide _) eqn:Hz.
  { apply bool_decide_eq_true in Hz.
    rewrite (proj1 (mark_failed_affected_zero _ _ _ _) Hz _ _ Hh) in Hc. discriminate. }
  simpl. split; [reflexivity|]. split; [intros k; apply lookup_sql_update|].
  split; [|split; reflexivity].
  rewrite (lookup_sql_update_Some _ _ _ _ _ Hh), Hc. reflexivity.
Qed.

Lemma mark_compensation_failed_updates_witness :
  (mark_compensation_failed Examples.noon "A" None Examples.crawl_failed_for_A).1 = true ∧
  fx_compensation_history
    (mark_compensation_failed Examples.noon "A" None Examples.crawl_failed_for_A).2
    !! ("A", 19999)
    = Some {| h_account_name := "name"; failure_reason := Some "earlier";
              compensation_status := COMP_FAILED; compensation_date := None;
              h_create_time := 0; h_update_time := Examples.noon |}.
Proof.
  pose proof (mark_compensation_failed_updates Examples.noon "A" None
                Examples.crawl_failed_for_A 19999 (Examples.history_row COMP_PENDING)
                eq_refl eq_refl) as H.
  destruct H as (Hres & _ & Hrec & _); [vm_compute; discriminate|].
  split; [exact Hres | exact Hrec].
Defined.

(** X6. When the account has no PENDING record within the window, has a
    status row, and has no record dated today, [mark_compensation_failed]
    inserts one FAILED record for today under the name of the status row,
    with the given reason, and changes nothing else. *)
Theorem mark_compensation_failed_inserts now account_id reason db r :
  (∀ k h, fx_compensation_history db !! k = Some h →
          pending_in_window account_id (date_of now) k h = false) →
  fx_account_status db !! account_id = Some r →
  fx_compensation_history db !! (account_id, date_of now) = None →
  (mark_compensation_failed now account_id reason db).1 = true ∧
  fx_compensation_history (mark_compensation_failed now account_id reason db).2
    !! (account_id, date_of now)
    = Some {| h_account_name := account_name r;
              failure_reason := reason;
              compensation_status := COMP_FAILED;
              compensation_date := None;
              h_create_time := now;
              h_update_time := now |} ∧
  (∀ k, k ≠ (account_id, date_of now) →
        fx_compensation_history (mark_compensation_failed now account_id reason db).2 !! k
          = fx_compensation_history db !! k) ∧
  fx_account_status (mark_compensation_failed now account_id reason db).2
    = fx_account_status db ∧
  fx_crawl_exception (mark_compensation_failed now account_id reason db).2
    = fx_crawl_exception db.
Proof.
  intros Hno Hr Htoday. unfold mark_compensation_failed.
  rewrite (bool_decide_eq_true_2 _ (proj2 (mark_failed_affected_zero _ _ _ _) Hno)).
  rewrite Hr, Htoday. simpl.
  rewrite (sql_update_no_match _ _ _ Hno).
  split; [reflexivity|]. split; [apply lookup_insert_eq|].
  split; [|split; reflexivity].
  intros k Hk. apply lookup_insert_ne. congruence.
Qed.

Lemma mark_compensation_failed_inserts_witness :
  (mark_compensation_failed Examples.noon "A" (Some "timeout") Examples.stale_pending).1
    = true ∧
  fx_compensation_history
    (mark_compensation_failed Examples.noon "A" (Some "timeout") Examples.stale_pending).2
    !! ("A", date_of Examples.noon)
    = Some {| h_account_name := "name"; failure_reason := Some "timeout";
              compensation_status := COMP_FAILED; compensation_date := None;
              h_create_time := Examples.noon; h_update_time := Examples.noon |} ∧
  fx_compensation_history
    (mark_compensation_failed Examples.noon "A" (Some "timeout") Examples.stale_pending).2
    !! ("A", 19990)
    = Some (Examples.history_row COMP_PENDING).
Proof.
  pose proof (mark_compensation_failed_inserts Examples.noon "A" (Some "timeout")
                Examples.stale_pending
                (Examples.account_row PENDING (Some 3) (Some 19990) None)) as H.
  destruct H as (Hres & Hrec & Hother & _).
  - intros k h Hk.
    destruct (decide (k = ("A", 19990))) as [->|Hne].
    + vm_compute in Hk. injection Hk as <-. vm_compute. reflexivity.
    + unfold Examples.stale_pending in Hk. simpl in Hk.
      rewrite lookup_singleton_ne in Hk by congruence. discriminate.
  - reflexivity.
  - reflexivity.
  - split; [exact Hres|]. split; [exact Hrec|].
    rewrite Hother by discriminate. reflexivity.
Defined.

(** X7. When the account has no PENDING record within the window but
    already has a record dated today (then COMPLETED or FAILED), the
    INSERT of [mark_compensation_failed] hits the unique key: the method
    returns [False] and nothing is recorded.  When the account has no
    status row either, nothing is inserted and the method returns
    [True]. *)
Theorem mark_compensation_failed_nothing_recorded now account_id reason db :
  (∀ k h, fx_compensation_history db !! k = Some h →
          pending_in_window account_id (date_of now) k h = false) →
  (is_Some (fx_account_status db !! account_id) →
   is_Some (fx_compensation_history db !! (account_id, date_of now)) →
   mark_compensation_failed now account_id reason db = (false, db)) ∧
  (fx_account_status db !! account_id = None →
   mark_compensation_failed now account_id reason db = (true, db)).
Proof.
  intros Hno. unfold mark_compensation_failed.
  rewrite (bool_decide_eq_true_2 _ (proj2 (mark_failed_affected_zero _ _ _ _) Hno)).
  split.
  - intros [r Hr] [h Hh]. rewrite Hr, Hh. reflexivity.
  - intros Hr. rewrite Hr. reflexivity.
Qed.

Lemma mark_compensation_failed_nothing_recorded_witness :
  mark_compensation_failed Examples.noon "A" (Some "timeout")
    Examples.failed_after_compensation
  = (false, Examples.failed_after_compensation).
Proof.
  pose proof (mark_compensation_failed_nothing_recorded Examples.noon "A"
                (Some "timeout") Examples.failed_after_compensation) as H.
  destruct H as (Hdup & _).
  - intros k h Hk.
    destruct (decide (k = ("A", 20000))) as [->|Hne].
    + vm_compute in Hk. injection Hk as <-. vm_compute. reflexivity.
    + unfold Examples.failed_after_compensation in Hk. simpl in Hk.
      rewrite lookup_singleton_ne in Hk by congruence. discriminate.
  - apply Hdup; vm_compute; eauto.
Defined.


(** ** Repeating a call *)

Lemma date_of_mono t t' : t ≤ t' → date_of t ≤ date_of t'.
Proof. intros Hle. unfold date_of. apply Z.div_le_mono; [reflexivity | exact Hle]. Qed.

(** X8. Marking the same account completed a second time, at the same or
    a later instant, changes no compensation record: the records the first
    call completed are no longer PENDING and the window has only moved
    forward.  The status row keeps priority 0 and failure count 0. *)
Theorem mark_compensation_completed_again t1 t2 account_id db :
  t1 ≤ t2 →
  fx_compensation_history
    (mark_compensation_completed t2 account_id
       (mark_compensation_completed t1 account_id db).2).2
    = fx_compensation_history (mark_compensation_completed t1 account_id db).2 ∧
  (∀ r, fx_account_status (mark_compensation_completed t1 account_id db).2 !! account_id
          = Some r →
        fx_account_status
          (mark_compensation_completed t2 account_id
             (mark_compensation_completed t1 account_id db).2).2 !! account_id
          = Some (clear_compensation_set t2 r)) ∧
  fx_crawl_exception
    (mark_compensation_completed t2 account_id
       (mark_compensation_completed t1 account_id db).2).2
    = fx_crawl_exception db.
Proof.
  intros Hle. pose proof (date_of_mono _ _ Hle) as Hd.
  split; [|split; [|reflexivity]].
  - simpl. apply sql_update_no_match. intros k h Hk.
    rewrite lookup_sql_update in Hk.
    destruct (fx_compensation_history db !! k) as [h0|]; [|discriminate].
    simpl in Hk. injection Hk as <-.
    unfold pending_in_window.
    destruct (bool_decide (k.1 = account_id)); [|reflexivity].
    destruct (decide (compensation_status h0 = COMP_PENDING)) as [Hp|Hp].
    + rewrite (bool_decide_eq_true_2 _ Hp). simpl.
      destruct (date_of t1 - 7 <=? k.2) eqn:Hw; simpl.
      * reflexivity.
      * rewrite (bool_decide_eq_true_2 _ Hp). simpl. lia.
    + rewrite (bool_decide_eq_false_2 _ Hp). simpl.
      rewrite (bool_decide_eq_false_2 _ Hp). reflexivity.
  - intros r Hr. simpl. rewrite lookup_sql_update.
    simpl in Hr. rewrite Hr. simpl.
    rewrite (bool_decide_eq_true_2 _ eq_refl). reflexivity.
Qed.

Lemma mark_compensation_completed_again_witness :
  fx_compensation_history
    (mark_compensation_completed (Examples.noon + 1) "A"
       (mark_compensation_completed Examples.noon "A" Examples.crawl_failed_for_A).2).2
    = fx_compensation_history
        (mark_compensation_completed Examples.noon "A" Examples.crawl_failed_for_A).2.
Proof.
  pose proof (mark_compensation_completed_again Examples.noon (Examples.noon + 1) "A"
                Examples.crawl_failed_for_A) as H.
  destruct H as (Hh & _); [vm_compute; discriminate | exact Hh].
Defined.

(** Two records that differ at most in [update_time]. *)
Lemma upsert_row_again t1 t2 name reason existing :
  upsert_row t2 name reason (Some (upsert_row t1 name reason existing)) =
  {| h_account_name := h_account_name (upsert_row t1 name reason existing);
     failure_reason := failure_reason (upsert_row t1 name reason existing);
     compensation_status := compensation_status (upsert_row t1 name reason existing);
     compensation_date := compensation_date (upsert_row t1 name reason existing);
     h_create_time := h_create_time (upsert_row t1 name reason existing);
     h_update_time := t2 |}.
Proof. destruct existing; reflexivity. Qed.

Lemma record_current_failures_tables now db :
  fx_account_status (record_current_failures_to_compensation now db).2
    = fx_account_status db ∧
  fx_compensation_history (record_current_failures_to_compensation now db).2 =
    foldl (insert_failed_account now (date_of now)) (fx_compensation_history db)
          (failed_accounts (fx_account_status db)) ∧
  fx_crawl_exception (record_current_failures_to_compensation now db).2
    = fx_crawl_exception db.
Proof. apply record_failed_accounts_tables. Qed.

Lemma flush_lookup now today (accounts : gmap string AccountStatus) t id d :
  foldl (insert_failed_account now today) t (failed_accounts accounts) !! (id, d) =
  match accounts !! id with
  | Some r =>
      if in_exception_or_failed (status r) && bool_decide (d = today)
      then Some (upsert_row now (account_name r) (failure_reason_of r) (t !! (id, d)))
      else t !! (id, d)
  | None => t !! (id, d)
  end.
Proof.
  destruct (accounts !! id) as [r|] eqn:Hr.
  - destruct (in_exception_or_failed (status r)) eqn:Hf; simpl.
    + destruct (decide (d = today)) as [->|Hne].
      * rewrite (bool_decide_eq_true_2 _ eq_refl).
        apply flush_lookup_account; [apply NoDup_failed_accounts|].
        apply elem_of_failed_accounts. auto.
      * rewrite (bool_decide_eq_false_2 _ Hne).
        apply flush_lookup_other_date, Hne.
    + apply flush_lookup_other_account. intros Hin.
      apply list_elem_of_fmap in Hin as ([k r'] & Heq & Hin). simpl in Heq. subst k.
      apply elem_of_failed_accounts in Hin as [Hk Hf']. congruence.
  - apply flush_lookup_other_account. intros Hin.
    apply list_elem_of_fmap in Hin as ([k r'] & Heq & Hin). simpl in Heq. subst k.
    apply elem_of_failed_accounts in Hin as [Hk _]. congruence.
Qed.

(** X9. Recording the current failures a second time on the same day adds
    no row and changes no column but [update_time]: every record the first
    call left is found again with the same name, reason, status,
    compensation date and creation time. *)
Theorem record_current_failures_again t1 t2 db k :
  date_of t1 = date_of t2 →
  match fx_compensation_history (record_current_failures_to_compensation t1 db).2 !! k with
  | Some h1 =>
      ∃ h2, fx_compensation_history
              (record_current_failures_to_compensation t2
                 (record_current_failures_to_compensation t1 db).2).2 !! k = Some h2 ∧
            h_account_name h2 = h_account_name h1 ∧
            failure_reason h2 = failure_reason h1 ∧
            compensation_status h2 = compensation_status h1 ∧
            compensation_date h2 = compensation_date h1 ∧
            h_create_time h2 = h_create_time h1
  | None =>
      fx_compensation_history
        (record_current_failures_to_compensation t2
           (record_current_failures_to_compensation t1 db).2).2 !! k = None
  end.
Proof.
  intros Hday. destruct k as [id d].
  destruct (record_current_failures_tables t1 db) as (Ha1 & Hh1 & _).
  destruct (record_current_failures_tables t2
              (record_current_failures_to_compensation t1 db).2) as (_ & Hh2 & _).
  rewrite Hh2, Ha1, Hh1, !flush_lookup, <- Hday.
  destruct (fx_account_status db !! id) as [r|].
  - destruct (in_exception_or_failed (status r) && bool_decide (d = date_of t1)).
    + rewrite upsert_row_again. eexists. split; [reflexivity|]. simpl. auto.
    + destruct (fx_compensation_history db !! (id, d)); eauto 10.
  - destruct (fx_compensation_history db !! (id, d)); eauto 10.
Qed.

Lemma record_current_failures_again_witness :
  ∃ h2, fx_compensation_history
          (record_current_failures_to_compensation (Examples.noon + 1)
             (record_current_failures_to_compensation Examples.noon
                Examples.first_failure).2).2 !! ("A", 20000) = Some h2 ∧
        h_account_name h2 = "name" ∧
        failure_reason h2 = Some "boom" ∧
        compensation_status h2 = COMP_PENDING ∧
        compensation_date h2 = None ∧
        h_create_time h2 = Examples.noon.
Proof.
  exact (record_current_failures_again Examples.noon (Examples.noon + 1)
           Examples.first_failure ("A", 20000) eq_refl).
Defined.


(** ** What no sequence of calls undoes *)

Lemma mark_compensation_failed_cases now account_id reason db :
  fx_account_status (mark_compensation_failed now account_id reason db).2
    = fx_account_status db ∧
  fx_crawl_exception (mark_compensation_failed now account_id reason db).2
    = fx_crawl_exception db ∧
  ∀ k h, fx_compensation_history db !! k = Some h →
    fx_compensation_history (mark_compensation_failed now account_id reason db).2 !! k
      = Some h ∨
    (pending_in_window account_id (date_of now) k h = true ∧
     fx_compensation_history (mark_compensation_failed now account_id reason db).2 !! k
       = Some (history_failed_set now reason h)).
Proof.
  unfold mark_compensation_failed.
  assert (∀ k h, fx_compensation_history db !! k = Some h →
            sql_update (pending_in_window account_id (date_of now))
                       (history_failed_set now reason) (fx_compensation_history db) !! k
              = Some h ∨
            (pending_in_window account_id (date_of now) k h = true ∧
             sql_update (pending_in_window account_id (date_of now))
                        (history_failed_set now reason) (fx_compensation_history db) !! k
               = Some (history_failed_set now reason h))) as Hupd.
  { intros k h Hk. rewrite (lookup_sql_update_Some _ _ _ _ _ Hk).
    destruct (pending_in_window _ _ k h); auto. }
  destruct (bool_decide _); [|simpl; auto].
  destruct (fx_account_status db !! account_id) as [r|]; [|simpl; auto].
  destruct (fx_compensation_history db !! (account_id, date_of now)) as [h0|] eqn:Ht;
    [simpl; auto|].
  simpl. split; [reflexivity|]. split; [reflexivity|].
  intros k h Hk. rewrite lookup_insert_ne by congruence. apply Hupd, Hk.
Qed.

Lemma record_evolves_refl h : record_evolves h h.
Proof. unfold record_evolves. repeat split; tauto. Qed.

Lemma record_evolves_trans h1 h2 h3 :
  record_evolves h1 h2 → record_evolves h2 h3 → record_evolves h1 h3.
Proof.
  unfold record_evolves. intros (Hn1 & Hc1 & Hs1) (Hn2 & Hc2 & Hs2).
  split; [congruence|]. split; [congruence|].
  intros Hp. destruct (Hs1 Hp) as [Hs Hd].
  destruct Hs2 as [Hs' Hd']; [congruence|]. split; congruence.
Qed.

Lemma flush_step_record now today l t k h :
  t !! k = Some h →
  ∃ h', foldl (insert_failed_account now today) t l !! k = Some h' ∧
        record_evolves h h' ∧ (k.2 ≠ today → h' = h).
Proof.
  revert t h. induction l as [|[a r] l IH]; intros t h Hk; simpl.
  - exists h. split; [exact Hk|]. split; [apply record_evolves_refl | reflexivity].
  - destruct (decide (k = (a, today))) as [->|Hne].
    + destruct (IH (insert_failed_account now today t (a, r))
                   (upsert_row now (account_name r) (failure_reason_of r) (Some h)))
        as (h' & Hl & (Hn & Hc & Hs) & Hd).
      { unfold insert_failed_account, upsert_pending. simpl.
        rewrite Hk. apply lookup_insert_eq. }
      exists h'. split; [exact Hl|]. split; [|simpl; congruence].
      unfold record_evolves. simpl in *. auto.
    + apply IH. unfold insert_failed_account, upsert_pending. simpl.
      rewrite lookup_insert_ne by congruence. exact Hk.
Qed.

(** One call: an existing record stays, keeps what [record_evolves] says,
    and is not touched at all when it is dated more than seven days before
    the day of the call. *)
Lemma run_call_record defaults now c db k h :
  fx_compensation_history db !! k = Some h →
  ∃ h', fx_compensation_history (run_call defaults now c db) !! k = Some h' ∧
        record_evolves h h' ∧ (k.2 < date_of now - 7 → h' = h).
Proof.
  intros Hk.
  assert (∃ h', Some h = Some h' ∧ record_evolves h h' ∧ (k.2 < date_of now - 7 → h' = h))
    as Hsame by (exists h; split; [reflexivity|];
                 split; [apply record_evolves_refl | reflexivity]).
  destruct c; simpl;
    try (unfold initialize_account_status;
         destruct (fx_account_status db !! _); simpl);
    try (rewrite Hk; exact Hsame).
  - (* mark_compensation_completed *)
    rewrite (lookup_sql_update_Some _ _ _ _ _ Hk).
    destruct (pending_in_window account_id (date_of now) k h) eqn:Hc;
      [|exact Hsame].
    unfold pending_in_window in Hc.
    apply andb_true_iff in Hc as [Hc Hw]. apply andb_true_iff in Hc as [_ Hp].
    apply bool_decide_eq_true in Hp.
    eexists. split; [reflexivity|]. split; [|intros; lia].
    unfold record_evolves. simpl. split; [reflexivity|]. split; [reflexivity|].
    intros Hnp. contradiction.
  - (* mark_compensation_failed *)
    destruct (mark_compensation_failed_cases now account_id reason db) as (_ & _ & Hcases).
    destruct (Hcases k h Hk) as [-> | [Hc ->]]; [exact Hsame|].
    unfold pending_in_window in Hc.
    apply andb_true_iff in Hc as [Hc Hw]. apply andb_true_iff in Hc as [_ Hp].
    apply bool_decide_eq_true in Hp.
    eexists. split; [reflexivity|]. split; [|intros; lia].
    unfold record_evolves. simpl. split; [reflexivity|]. split; [reflexivity|].
    intros Hnp. contradiction.
  - (* record_current_failures_to_compensation *)
    destruct (record_current_failures_tables now db) as (_ & -> & _).
    destruct (flush_step_record now (date_of now) (failed_accounts (fx_account_status db))
                _ k h Hk) as (h' & Hl & He & Hd).
    exists h'. split; [exact Hl|]. split; [exact He|]. intros Hlt. apply Hd. lia.
  - (* reset_all_accounts_to_pending *)
    rewrite reset_result. simpl.
    destruct (flush_step_record now (date_of now) (failed_accounts (fx_account_status db))
                _ k h Hk) as (h' & Hl & He & Hd).
    exists h'. split; [exact Hl|]. split; [exact He|]. intros Hlt. apply Hd. lia.
Qed.

Lemma run_calls_cons defaults c calls db :
  run_calls defaults (c :: calls) db =
  run_calls defaults calls (run_call defaults c.1 c.2 db).
Proof. reflexivity. Qed.

(** X10. Through any sequence of calls of the store's methods, a
    compensation record is never deleted, keeps its account name and
    creation time, and once it is COMPLETED or FAILED it keeps that status
    and its compensation date: no method sets a record back to PENDING. *)
Theorem compensation_status_is_final defaults calls db k h :
  fx_compensation_history db !! k = Some h →
  ∃ h', fx_compensation_history (run_calls defaults calls db) !! k = Some h' ∧
        h_account_name h' = h_account_name h ∧
        h_create_time h' = h_create_time h ∧
        (compensation_status h ≠ COMP_PENDING →
         compensation_status h' = compensation_status h ∧
         compensation_date h' = compensation_date h).
Proof.
  revert db h. induction calls as [|c calls IH]; intros db h Hk.
  - exists h. split; [exact Hk|]. apply record_evolves_refl.
  - rewrite run_calls_cons.
    destruct (run_call_record defaults c.1 c.2 db k h Hk) as (h1 & Hk1 & He1 & _).
    destruct (IH _ _ Hk1) as (h2 & Hk2 & He2).
    exists h2. split; [exact Hk2|].
    exact (record_evolves_trans _ _ _ He1 He2).
Qed.

Lemma compensation_status_is_final_witness :
  ∃ h', fx_compensation_history
          (run_calls Examples.null_defaults
             [ (Examples.noon, UpdateAccountStatus "A" EXCEPTION (Some "again"));
               (Examples.noon + 1, RecordCurrentFailuresToCompensation);
               (Examples.noon + 2, ResetAllAccountsToPending);
               (Examples.noon + 3, MarkCompensationFailed "A" None) ]
             Examples.failed_after_compensation) !! ("A", 20000) = Some h' ∧
        h_account_name h' = "name" ∧
        h_create_time h' = 0 ∧
        (COMP_COMPLETED ≠ COMP_PENDING →
         compensation_status h' = COMP_COMPLETED ∧ compensation_date h' = None).
Proof.
  exact (compensation_status_is_final Examples.null_defaults _
           Examples.failed_after_compensation ("A", 20000)
           (Examples.history_row COMP_COMPLETED) eq_refl).
Defined.

Lemma run_calls_frozen defaults t0 calls db k h :
  Forall (λ c : Z * StoreCall, t0 ≤ c.1) calls →
  fx_compensation_history db !! k = Some h →
  k.2 < date_of t0 - 7 →
  fx_compensation_history (run_calls defaults calls db) !! k = Some h.
Proof.
  intros Hall. revert db. induction Hall as [|c calls Hc Hall IH]; intros db Hk Hold.
  - exact Hk.
  - rewrite run_calls_cons.
    destruct (run_call_record defaults c.1 c.2 db k h Hk) as (h1 & Hk1 & _ & Hfrozen).
    rewrite Hfrozen in Hk1; [apply IH; assumption|].
    pose proof (date_of_mono _ _ Hc). lia.
Qed.

(** X11. A compensation record dated more than seven days before the
    earliest of a sequence of calls comes out of the sequence exactly as it
    went in, whatever the calls are: no method reaches behind the window.
    In particular a PENDING record that has aged out stays PENDING. *)
Theorem aged_record_is_frozen defaults t0 calls db k h :
  Forall (λ c : Z * StoreCall, t0 ≤ c.1) calls →
  fx_compensation_history db !! k = Some h →
  k.2 < date_of t0 - 7 →
  fx_compensation_history (run_calls defaults calls db) !! k = Some h.
Proof. apply run_calls_frozen. Qed.

Lemma aged_record_is_frozen_witness :
  fx_compensation_history
    (run_calls Examples.null_defaults
       [ (Examples.noon, MarkCompensationCompleted "A");
         (Examples.noon + 1, MarkCompensationFailed "A" (Some "timeout"));
         (Examples.noon + 2, ResetAllAccountsToPending) ]
       Examples.stale_pending) !! ("A", 19990)
  = Some (Examples.history_row COMP_PENDING).
Proof.
  apply (aged_record_is_frozen Examples.null_defaults Examples.noon).
  - repeat constructor; simpl; lia.
  - reflexivity.
  - vm_compute. reflexivity.
Defined.


Lemma run_call_ledger defaults now c db :
  fx_crawl_exception (run_call defaults now c db) =
  fx_crawl_exception db ++ option_list (ledger_entry_of (now, c)).
Proof.
  destruct c; simpl; rewrite ?app_nil_r; try reflexivity.
  - unfold initialize_account_status.
    destruct (fx_account_status db !! _); reflexivity.
  - apply mark_compensation_failed_cases.
  - apply record_current_failures_tables.
  - rewrite reset_result. reflexivity.
Qed.

(** X12. The ledger is append-only and has two writers: after any
    sequence of calls it is the ledger before, followed by one row for each
    [resolve_crawl_exception] and [mark_crawl_unfinished] of the sequence,
    in call order, stamped with the instant of its call.
    [record_crawl_exception], [clear_crawl_exception] and every other
    method leave it alone. *)
Theorem ledger_is_append_only defaults calls db :
  fx_crawl_exception (run_calls defaults calls db) =
  fx_crawl_exception db ++ omap ledger_entry_of calls.
Proof.
  revert db. induction calls as [|[now c] calls IH]; intros db.
  - simpl. rewrite app_nil_r. reflexivity.
  - rewrite run_calls_cons, IH, run_call_ledger. simpl.
    destruct (ledger_entry_of (now, c)); simpl; rewrite <- ?app_assoc, ?app_nil_r;
      reflexivity.
Qed.

Lemma row_evolves_refl r : row_evolves r r.
Proof. unfold row_evolves. repeat split; lia. Qed.

Lemma row_evolves_trans r1 r2 r3 :
  row_evolves r1 r2 → row_evolves r2 r3 → row_evolves r1 r3.
Proof.
  unfold row_evolves. intros (? & ? & ?) (? & ? & ?).
  repeat split; [congruence | congruence | lia].
Qed.

Lemma sql_update_row_evolves (c : string → AccountStatus → bool) set
    (t : gmap string AccountStatus) k r :
  (∀ r0, row_evolves r0 (set r0)) →
  t !! k = Some r →
  ∃ r', sql_update c set t !! k = Some r' ∧ row_evolves r r'.
Proof.
  intros Hset Hk. rewrite (lookup_sql_update_Some _ _ _ _ _ Hk).
  eexists. split; [reflexivity|].
  destruct (c k r); [apply Hset | apply row_evolves_refl].
Qed.

Lemma run_call_row defaults now c db k r :
  fx_account_status db !! k = Some r →
  ∃ r', fx_account_status (run_call defaults now c db) !! k = Some r' ∧
        row_evolves r r'.
Proof.
  intros Hk.
  assert (∃ r', Some r = Some r' ∧ row_evolves r r') as Hsame
    by (exists r; split; [reflexivity | apply row_evolves_refl]).
  destruct c; simpl;
    try (apply sql_update_row_evolves; [|exact Hk];
         intros r0; unfold row_evolves; simpl; repeat split; lia);
    try (rewrite Hk; exact Hsame).
  - unfold initialize_account_status.
    destruct (fx_account_status db !! account_id) eqn:Ha; simpl.
    + rewrite Hk. exact Hsame.
    + rewrite lookup_insert_ne by congruence. rewrite Hk. exact Hsame.
  - destruct (mark_compensation_failed_cases now account_id reason db) as (-> & _).
    rewrite Hk. exact Hsame.
  - destruct (record_current_failures_tables now db) as (-> & _).
    rewrite Hk. exact Hsame.
  - rewrite reset_lookup_account, Hk. simpl.
    eexists. split; [reflexivity|].
    unfold reset_row, row_evolves.
    destruct (in_exception_failed_retrying (status r));
      destruct (negb _); simpl; repeat split; lia.
Qed.

(** X13. Through any sequence of calls of the store's methods, the row
    of an account is never deleted, keeps the name and creation time it
    has, and its [retry_count] never decreases. *)
Theorem account_row_persists defaults calls db k r :
  fx_account_status db !! k = Some r →
  ∃ r', fx_account_status (run_calls defaults calls db) !! k = Some r' ∧
        account_name r' = account_name r ∧
        create_time r' = create_time r ∧
        retry_count r ≤ retry_count r'.
Proof.
  revert db r. induction calls as [|c calls IH]; intros db r Hk.
  - exists r. split; [exact Hk|]. apply row_evolves_refl.
  - rewrite run_calls_cons.
    destruct (run_call_row defaults c.1 c.2 db k r Hk) as (r1 & Hk1 & He1).
    destruct (IH _ _ Hk1) as (r2 & Hk2 & He2).
    exists r2. split; [exact Hk2|]. exact (row_evolves_trans _ _ _ He1 He2).
Qed.

Lemma account_row_persists_witness :
  ∃ r', fx_account_status
          (run_calls Examples.null_defaults
             [ (Examples.noon, InitializeAccountStatus "A" "renamed");
               (Examples.noon + 1, ResetAccountForRetry "A" None);
               (Examples.noon + 2, ResetAllAccountsToPending);
               (Examples.noon + 3, MarkCompensationCompleted "A") ]
             Examples.first_failure) !! "A" = Some r' ∧
        account_name r' = "name" ∧ create_time r' = 0 ∧ 0 ≤ retry_count r'.
Proof.
  exact (account_row_persists Examples.null_defaults _ Examples.first_failure "A"
           (Examples.account_row EXCEPTION (Some 0) None (Some "boom")) eq_refl).
Defined.


(** ** get_pending_compensation_accounts *)

Lemma elem_of_pending_rows (history : gmap (string * Z) CompensationRecord) kv :
  kv ∈ pending_rows history ↔
  history !! kv.1 = Some kv.2 ∧ compensation_status kv.2 = COMP_PENDING.
Proof.
  unfold pending_rows. rewrite list_elem_of_filter.
  destruct kv as [k h]. rewrite elem_of_map_to_list. simpl. tauto.
Qed.

Lemma add_to_group_aggregate done g kv :
  (∀ key, is_aggregate done key (g !! key)) →
  ∀ key, is_aggregate (done ++ [kv]) key (add_to_group g kv !! key).
Proof.
  intros Hg key. specialize (Hg key).
  unfold add_to_group. fold (group_key kv).
  destruct (decide (group_key kv = key)) as [<-|Hne].
  - destruct (g !! group_key kv) as [[f u]|] eqn:Hgk.
    + rewrite lookup_insert_eq. simpl in *.
      destruct Hg as ((k1 & Hin1 & Hk1 & Hf) & (k2 & Hin2 & Hk2 & Hu) & Hall).
      split; [|split].
      * destruct (Z.min_spec f kv.1.2) as [[_ ->] | [_ ->]].
        -- exists k1. rewrite elem_of_app. auto.
        -- exists kv. rewrite elem_of_app, list_elem_of_singleton. auto.
      * destruct (Z.max_spec u (h_update_time kv.2)) as [[_ ->] | [_ ->]].
        -- exists kv. rewrite elem_of_app, list_elem_of_singleton. auto.
        -- exists k2. rewrite elem_of_app. auto.
      * intros kv' Hin Hk. apply elem_of_app in Hin as [Hin|Hin].
        -- destruct (Hall kv' Hin Hk). lia.
        -- apply list_elem_of_singleton in Hin as ->. lia.
    + rewrite lookup_insert_eq. simpl in *.
      split; [|split].
      * exists kv. rewrite elem_of_app, list_elem_of_singleton. auto.
      * exists kv. rewrite elem_of_app, list_elem_of_singleton. auto.
      * intros kv' Hin Hk. apply elem_of_app in Hin as [Hin|Hin].
        -- destruct (Hg kv' Hin Hk).
        -- apply list_elem_of_singleton in Hin as ->. lia.
  - assert (add_to_group g kv !! key = g !! key) as Hsame.
    { unfold add_to_group. fold (group_key kv).
      destruct (g !! group_key kv); apply lookup_insert_ne; exact Hne. }
    unfold add_to_group in Hsame. fold (group_key kv) in Hsame. rewrite Hsame.
    destruct (g !! key) as [a|]; simpl in *.
    + destruct Hg as ((k1 & Hin1 & Hk1 & Hf) & (k2 & Hin2 & Hk2 & Hu) & Hall).
      split; [|split].
      * exists k1. rewrite elem_of_app. auto.
      * exists k2. rewrite elem_of_app. auto.
      * intros kv' Hin Hk. apply elem_of_app in Hin as [Hin|Hin]; [auto|].
        apply list_elem_of_singleton in Hin as ->. contradiction.
    + intros kv' Hin. apply elem_of_app in Hin as [Hin|Hin]; [auto|].
      apply list_elem_of_singleton in Hin as ->. exact Hne.
Qed.

Lemma foldl_add_to_group_aggregate l :
  ∀ done g,
    (∀ key, is_aggregate done key (g !! key)) →
    ∀ key, is_aggregate (done ++ l) key (foldl add_to_group g l !! key).
Proof.
  induction l as [|kv l IH]; intros done g Hg key; simpl.
  - rewrite app_nil_r. apply Hg.
  - replace (done ++ kv :: l) with ((done ++ [kv]) ++ l)
      by (rewrite <- app_assoc; reflexivity).
    apply IH. apply add_to_group_aggregate, Hg.
Qed.

(** Each group of the query carries the least failure date and the latest
    update time of the PENDING rows that fall in it. *)
Lemma pending_groups_aggregate history key :
  is_aggregate (pending_rows history) key (pending_groups history !! key).
Proof.
  unfold pending_groups.
  apply (foldl_add_to_group_aggregate (pending_rows history) [] ∅).
  intros key'. rewrite lookup_empty. simpl. intros kv Hin. inversion Hin.
Qed.

#[local] Instance served_order_total tie : Total (served_order tie).
Proof. intros x y. unfold served_order. lia. Qed.

#[local] Instance served_order_trans tie : Transitive (served_order tie).
Proof. intros x y z. unfold served_order. lia. Qed.

Lemma served_order_group_order tie x y : served_order tie x y → group_order x y.
Proof. unfold served_order, group_order. lia. Qed.

Lemma StronglySorted_weaken {A} (R R' : relation A) l :
  (∀ x y, R x y → R' x y) → StronglySorted R l → StronglySorted R' l.
Proof.
  intros HR. induction 1 as [|x l _ IH Hx]; constructor; [exact IH|].
  eapply Forall_impl; [exact Hx|]. intros y. apply HR.
Qed.

Lemma StronglySorted_take_drop {A} (R : relation A) n l x y :
  StronglySorted R l → x ∈ take n l → y ∈ drop n l → R x y.
Proof.
  intros Hs. revert n. induction Hs as [|z l _ IH Hz]; intros n Hx Hy.
  - rewrite take_nil in Hx. inversion Hx.
  - destruct n as [|n]; [inversion Hx|].
    simpl in Hx, Hy. apply elem_of_cons in Hx as [->|Hx].
    + rewrite Forall_forall in Hz. apply Hz.
      apply list_elem_of_lookup in Hy as [i Hi]. rewrite lookup_drop in Hi.
      apply list_elem_of_lookup. eauto.
    + eapply IH; eauto.
Qed.

Lemma elem_of_ordered_pending_groups tie history g :
  g ∈ ordered_pending_groups tie history ↔ pending_groups history !! g.1 = Some g.2.
Proof.
  unfold ordered_pending_groups. rewrite merge_sort_Permutation.
  destruct g as [key a]. apply elem_of_map_to_list.
Qed.

Lemma NoDup_ordered_pending_groups tie history :
  NoDup (fst <$> ordered_pending_groups tie history).
Proof.
  unfold ordered_pending_groups. rewrite merge_sort_Permutation.
  apply NoDup_fst_map_to_list.
Qed.

(** X14. Without a limit, [get_pending_compensation_accounts] returns
    exactly the (account_id, account_name) pairs under which some PENDING
    record is stored, each pair once; the age of the record plays no
    part. *)
Theorem get_pending_compensation_accounts_members tie limit db :
  limit ≤ 0 →
  (∀ account_id name,
     (account_id, name) ∈ get_pending_compensation_accounts tie limit db ↔
     ∃ d h, fx_compensation_history db !! (account_id, d) = Some h ∧
            compensation_status h = COMP_PENDING ∧ h_account_name h = name) ∧
  NoDup (get_pending_compensation_accounts tie limit db).
Proof.
  intros Hlim. unfold get_pending_compensation_accounts.
  assert ((0 <? limit) = false) as -> by lia.
  split.
  - intros account_id name. rewrite list_elem_of_fmap. split.
    + intros ([key a] & Hkey & Hin). simpl in Hkey. subst key.
      apply elem_of_ordered_pending_groups in Hin. simpl in Hin.
      pose proof (pending_groups_aggregate (fx_compensation_history db) (account_id, name))
        as Hagg.
      rewrite Hin in Hagg. destruct Hagg as (([[id d] h] & Hrow & Hk & _) & _).
      apply elem_of_pending_rows in Hrow as [Hl Hp]. unfold group_key in Hk.
      simpl in *. injection Hk as -> <-. eauto.
    + intros (d & h & Hl & Hp & Hn).
      pose proof (pending_groups_aggregate (fx_compensation_history db) (account_id, name))
        as Hagg.
      destruct (pending_groups (fx_compensation_history db) !! (account_id, name))
        as [a|] eqn:Hg.
      * exists (account_id, name, a). split; [reflexivity|].
        apply elem_of_ordered_pending_groups. exact Hg.
      * exfalso. apply (Hagg (account_id, d, h)).
        -- apply elem_of_pending_rows. auto.
        -- unfold group_key. simpl. congruence.
  - apply NoDup_ordered_pending_groups.
Qed.

Lemma get_pending_compensation_accounts_members_witness :
  (∀ account_id name,
     (account_id, name)
       ∈ get_pending_compensation_accounts (λ _, 0) 0 Examples.stale_pending ↔
     ∃ d h, fx_compensation_history Examples.stale_pending !! (account_id, d) = Some h ∧
            compensation_status h = COMP_PENDING ∧ h_account_name h = name) ∧
  NoDup (get_pending_compensation_accounts (λ _, 0) 0 Examples.stale_pending).
Proof.
  apply (get_pending_compensation_accounts_members (λ _, 0) 0 Examples.stale_pending).
  reflexivity.
Defined.

(** X15. Whatever order the server gives to groups that tie, the accounts
    come ordered by their earliest PENDING failure date and, among equal
    dates, by latest update first: the result lists, without repeats, the
    keys of groups that are sorted that way, each group carrying the least
    [failed_date] and the greatest [update_time] of its PENDING records.
    Without a limit every group is returned.  A positive limit returns
    that many groups, or all of them if there are fewer, and the groups
    left out all sort at or after each group returned. *)
Theorem get_pending_compensation_accounts_order tie limit db :
  let history := fx_compensation_history db in
  ∃ groups,
    get_pending_compensation_accounts tie limit db = fst <$> groups ∧
    NoDup (fst <$> groups) ∧
    StronglySorted group_order groups ∧
    (∀ g, g ∈ groups → is_aggregate (pending_rows history) g.1 (Some g.2)) ∧
    length groups =
      (if 0 <? limit
       then Nat.min (Z.to_nat limit) (size (pending_groups history))
       else size (pending_groups history)) ∧
    (∀ g g', g ∈ groups → pending_groups history !! g'.1 = Some g'.2 →
             g' ∉ groups → group_order g g').
Proof.
  cbv zeta. unfold get_pending_compensation_accounts.
  set (history := fx_compensation_history db).
  set (all := ordered_pending_groups tie history).
  assert (StronglySorted (served_order tie) all) as Hserved
    by (apply StronglySorted_merge_sort; apply _).
  assert (∀ g, g ∈ all → is_aggregate (pending_rows history) g.1 (Some g.2)) as Hagg.
  { intros g Hin. apply elem_of_ordered_pending_groups in Hin.
    rewrite <- Hin. apply pending_groups_aggregate. }
  assert (length all = size (pending_groups history)) as Hlen.
  { unfold all, ordered_pending_groups. rewrite merge_sort_Permutation.
    apply length_map_to_list. }
  pose proof (NoDup_ordered_pending_groups tie history) as Hnd. fold all in Hnd.
  destruct (0 <? limit) eqn:Hl.
  - exists (take (Z.to_nat limit) all).
    split; [reflexivity|]. split; [|split; [|split; [|split]]].
    + rewrite fmap_take. eapply sublist_NoDup; [exact Hnd | apply sublist_take].
    + apply (StronglySorted_weaken _ _ _ (served_order_group_order tie)).
      rewrite <- (take_drop (Z.to_nat limit) all) in Hserved.
      apply StronglySorted_app_1_l in Hserved. exact Hserved.
    + intros g Hin. apply Hagg. apply elem_of_take in Hin as (i & Hi & _).
      apply list_elem_of_lookup. eauto.
    + rewrite length_take, Hlen. reflexivity.
    + intros g g' Hg Hg' Hnot. apply (served_order_group_order tie).
      apply (StronglySorted_take_drop _ (Z.to_nat limit) all); [exact Hserved|exact Hg|].
      assert (g' ∈ all) as Hall by (apply elem_of_ordered_pending_groups; exact Hg').
      rewrite <- (take_drop (Z.to_nat limit) all) in Hall.
      apply elem_of_app in Hall as [Hin|Hin]; [contradiction | exact Hin].
  - exists all. split; [reflexivity|]. split; [exact Hnd|]. split; [|split; [|split]].
    + apply (StronglySorted_weaken _ _ _ (served_order_group_order tie)), Hserved.
    + exact Hagg.
    + exact Hlen.
    + intros g g' _ Hg' Hnot. exfalso. apply Hnot.
      apply elem_of_ordered_pending_groups. exact Hg'.
Qed.

Lemma run_calls_keeps_aged_pending defaults t0 calls db account_id d h :
  Forall (λ c : Z * StoreCall, t0 ≤ c.1) calls →
  fx_compensation_history db !! (account_id, d) = Some h →
  compensation_status h = COMP_PENDING →
  d < date_of t0 - 7 →
  ∃ d' h', fx_compensation_history (run_calls defaults calls db) !! (account_id, d')
             = Some h' ∧
           compensation_status h' = COMP_PENDING ∧
           h_account_name h' = h_account_name h.
Proof.
  intros Hall Hk Hp Hold. exists d, h. split; [|auto].
  apply (run_calls_frozen defaults t0); assumption.
Qed.

(** X16. An account with a PENDING record that is more than seven days
    old stays in the backlog whatever is called afterwards:
    [mark_compensation_completed] and [mark_compensation_failed] do not
    reach the record, and [get_pending_compensation_accounts] applies no
    window, so the account is returned after every later sequence of
    calls. *)
Theorem aged_pending_account_stays_in_backlog
    defaults tie t0 calls db account_id d h :
  Forall (λ c : Z * StoreCall, t0 ≤ c.1) calls →
  fx_compensation_history db !! (account_id, d) = Some h →
  compensation_status h = COMP_PENDING →
  d < date_of t0 - 7 →
  (account_id, h_account_name h)
    ∈ get_pending_compensation_accounts tie 0 (run_calls defaults calls db).
Proof.
  intros Hall Hk Hp Hold.
  destruct (run_calls_keeps_aged_pending defaults t0 calls db account_id d h
              Hall Hk Hp Hold) as (d' & h' & Hk' & Hp' & Hn').
  unfold get_pending_compensation_accounts. simpl (0 <? 0).
  apply list_elem_of_fmap.
  pose proof (pending_groups_aggregate
                (fx_compensation_history (run_calls defaults calls db))
                (account_id, h_account_name h)) as Hagg.
  destruct (pending_groups _ !! (account_id, h_account_name h)) as [a|] eqn:Hg.
  - exists (account_id, h_account_name h, a). split; [reflexivity|].
    apply elem_of_ordered_pending_groups. exact Hg.
  - exfalso. apply (Hagg (account_id, d', h')).
    + apply elem_of_pending_rows. auto.
    + unfold group_key. simpl. congruence.
Qed.

Lemma aged_pending_account_stays_in_backlog_witness :
  ("A", "name")
    ∈ get_pending_compensation_accounts (λ _, 0) 0
        (run_calls Examples.null_defaults
           [ (Examples.noon, MarkCompensationCompleted "A");
             (Examples.noon + 1, MarkCompensationFailed "A" (Some "timeout"));
             (Examples.noon + 2, ResetAllAccountsToPending) ]
           Examples.stale_pending).
Proof.
  apply (aged_pending_account_stays_in_backlog Examples.null_defaults (λ _, 0)
           Examples.noon _
           Examples.stale_pending "A" 19990 (Examples.history_row COMP_PENDING)).
  - repeat constructor; simpl; lia.
  - reflexivity.
  - reflexivity.
  - vm_compute. reflexivity.
Defined.


(** ** get_accounts_summary *)

Lemma status_name_inj s1 s2 : status_name s1 = status_name s2 → s1 = s2.
Proof. destruct s1, s2; simpl; intros E; try reflexivity; discriminate E. Qed.

Lemma status_name_not_total s : status_name s ≠ "TOTAL".
Proof. destruct s; discriminate. Qed.

Abbreviation summary_step :=
  (λ (acc : gmap string Z * Z) (row : Status * Z),
     (<[status_name row.1 := row.2]> acc.1, acc.2 + row.2)).

Lemma summary_fold_total rows : ∀ acc,
  (foldl summary_step acc rows).2 = acc.2 + foldr Z.add 0 (snd <$> rows).
Proof.
  induction rows as [|row rows IH]; intros acc.
  - simpl. lia.
  - change (foldl summary_step acc (row :: rows))
      with (foldl summary_step (summary_step acc row) rows).
    rewrite IH.
    change (snd <$> row :: rows) with (row.2 :: (snd <$> rows)).
    cbn [foldr snd]. lia.
Qed.

Lemma summary_fold_other rows : ∀ acc key,
  (∀ row, row ∈ rows → status_name row.1 ≠ key) →
  (foldl summary_step acc rows).1 !! key = acc.1 !! key.
Proof.
  induction rows as [|row rows IH]; intros acc key Hno; simpl; [reflexivity|].
  rewrite IH by (intros row' Hin; apply Hno; right; exact Hin).
  simpl. apply lookup_insert_ne. apply Hno. left.
Qed.

Lemma summary_fold_status rows : ∀ acc s n,
  NoDup (rows.*1) → (s, n) ∈ rows →
  (foldl summary_step acc rows).1 !! status_name s = Some n.
Proof.
  induction rows as [|row rows IH]; intros acc s n Hnd Hin; [inversion Hin|].
  rewrite fmap_cons, NoDup_cons in Hnd. destruct Hnd as [Hfirst Hnd]. simpl.
  apply elem_of_cons in Hin as [Hrow|Hin].
  - subst row. rewrite summary_fold_other.
    + simpl. apply lookup_insert_eq.
    + intros row' Hin' Heq. apply status_name_inj in Heq. apply Hfirst.
      simpl. rewrite <- Heq. apply list_elem_of_fmap. eauto.
  - apply IH; assumption.
Qed.

Lemma sum_positive_rows (count : Status → Z) (statuses : list Status) :
  (∀ s, 0 ≤ count s) →
  foldr Z.add 0
    (snd <$> filter (λ row : Status * Z, 0 < row.2) ((λ s, (s, count s)) <$> statuses))
  = foldr Z.add 0 (count <$> statuses).
Proof.
  intros Hpos. induction statuses as [|s statuses IH]; [reflexivity|].
  rewrite (fmap_cons (λ s, (s, count s))), filter_cons.
  destruct (decide (0 < (s, count s).2)) as [Hc|Hc].
  - rewrite !fmap_cons. cbn [foldr snd]. rewrite IH. reflexivity.
  - rewrite fmap_cons. cbn [foldr]. rewrite IH. simpl in Hc.
    specialize (Hpos s). lia.
Qed.

Lemma status_counts_add_up (l : list (string * AccountStatus)) :
  foldr Z.add 0
    ((λ s, Z.of_nat (length (filter (λ kv : string * AccountStatus, status kv.2 = s) l)))
       <$> statuses_in_order)
  = Z.of_nat (length l).
Proof.
  induction l as [|[k r] l IH]; [reflexivity|].
  simpl in *. rewrite !filter_cons. simpl.
  destruct (status r);
    repeat (destruct (decide _) as [?|?]; try discriminate; try congruence);
    simpl length; lia.
Qed.

(** X17. In the summary, ['TOTAL'] is the number of rows of
    [fx_account_status]; a status is a key exactly when some row has it,
    with the number of such rows as value, so a status without rows is
    missing from the dict rather than mapped to 0. *)
Theorem get_accounts_summary_counts db :
  get_accounts_summary db !! "TOTAL" = Some (Z.of_nat (size (fx_account_status db))) ∧
  ∀ s, get_accounts_summary db !! status_name s =
       if 0 <? status_count (fx_account_status db) s
       then Some (status_count (fx_account_status db) s) else None.
Proof.
  unfold get_accounts_summary. split.
  - rewrite lookup_insert_eq, summary_fold_total. simpl.
    unfold summary_rows.
    rewrite sum_positive_rows by (intros s; unfold status_count; lia).
    unfold status_count. rewrite status_counts_add_up, length_map_to_list.
    reflexivity.
  - intros s. rewrite lookup_insert_ne by (intros E; exact (status_name_not_total s (eq_sym E))).
    destruct (0 <? status_count (fx_account_status db) s) eqn:Hc.
    + apply summary_fold_status.
      * unfold summary_rows. apply NoDup_fst_filter.
        rewrite <- list_fmap_compose.
        apply (NoDup_fmap_2 _). apply (bool_decide_unpack _). vm_compute. exact I.
      * unfold summary_rows. apply list_elem_of_filter. split; [simpl; lia|].
        apply list_elem_of_fmap. exists s. split; [reflexivity|].
        destruct s; unfold statuses_in_order; set_solver.
    + rewrite summary_fold_other; [apply lookup_empty|].
      intros [s' n] Hin Heq. simpl in Heq. apply status_name_inj in Heq. subst s'.
      unfold summary_rows in Hin. apply list_elem_of_filter in Hin as [Hpos Hin].
      apply list_elem_of_fmap in Hin as (s'' & Heq & _). injection Heq as -> ->.
      simpl in Hpos. lia.
Qed.

End StoreExtra.

(** * Further properties of the round orchestrator *)

Module OrchestratorExtra.
Import Store Orchestrator StoreFacts OrchestratorFacts StoreExtra.

(** X18. What [_is_full_success] decides: it answers [True] exactly when
    some attempted account has a status row and every attempted account
    that has one is COMPLETED.  So it answers [False] on an empty list and
    whenever none of the attempted accounts has a row. *)
Theorem is_full_success_decides attempted db :
  (_is_full_success attempted db = true ↔
   (∃ a r, a ∈ attempted ∧ account_id a ≠ "" ∧
           fx_account_status db !! account_id a = Some r) ∧
   (∀ a r, a ∈ attempted → account_id a ≠ "" →
           fx_account_status db !! account_id a = Some r → status r = COMPLETED)) ∧
  _is_full_success [] db = false ∧
  ((∀ a, a ∈ attempted → fx_account_status db !! account_id a = None) →
   _is_full_success attempted db = false).
Proof.
  split; [apply is_full_success_iff|]. split; [reflexivity|].
  intros Hnone. destruct (_is_full_success attempted db) eqn:E; [|reflexivity].
  apply is_full_success_iff in E as [(a & r & Ha & _ & Hr) _].
  rewrite (Hnone a Ha) in Hr. discriminate.
Qed.

(** ** The compensation pass that ends badly *)

Lemma mark_compensation_failed_after now account_id reason db k h' :
  fx_compensation_history (mark_compensation_failed now account_id reason db).2 !! k
    = Some h' →
  compensation_status h' = COMP_FAILED ∨
  (fx_compensation_history db !! k = Some h' ∧
   pending_in_window account_id (date_of now) k h' = false).
Proof.
  unfold mark_compensation_failed.
  destruct (bool_decide _) eqn:Hz.
  - apply bool_decide_eq_true in Hz.
    pose proof (proj1 (mark_failed_affected_zero _ _ _ _) Hz) as Hno.
    destruct (fx_account_status db !! account_id) as [r|]; [|simpl; eauto].
    destruct (fx_compensation_history db !! (account_id, date_of now)) eqn:Ht;
      [simpl; eauto|].
    simpl. rewrite (sql_update_no_match _ _ _ Hno).
    destruct (decide (k = (account_id, date_of now))) as [->|Hne].
    + rewrite lookup_insert_eq. intros [= <-]. left. reflexivity.
    + rewrite lookup_insert_ne by congruence. eauto.
  - simpl. rewrite lookup_sql_update.
    destruct (fx_compensation_history db !! k) as [h|]; [|discriminate]. simpl.
    destruct (pending_in_window account_id (date_of now) k h) eqn:Hc.
    + intros [= <-]. left. reflexivity.
    + intros [= <-]. right. auto.
Qed.

Lemma mark_all_failed_cons now reason a l db :
  mark_all_failed now reason (a :: l) db =
  mark_all_failed now reason l
    (mark_compensation_failed now (account_id a) (Some reason) db).2.
Proof. reflexivity. Qed.

Lemma mark_all_failed_tables now reason l db :
  fx_account_status (mark_all_failed now reason l db) = fx_account_status db ∧
  fx_crawl_exception (mark_all_failed now reason l db) = fx_crawl_exception db.
Proof.
  revert db. induction l as [|a l IH]; intros db; [split; reflexivity|].
  rewrite mark_all_failed_cons.
  destruct (IH (mark_compensation_failed now (account_id a) (Some reason) db).2)
    as [-> ->].
  destruct (mark_compensation_failed_cases now (account_id a) (Some reason) db)
    as (-> & -> & _).
  split; reflexivity.
Qed.

(** No record of the accounts in [done] is PENDING within the window. *)
Lemma mark_all_failed_clears now reason l : ∀ db (done : list string),
  (∀ id d h, id ∈ done → fx_compensation_history db !! (id, d) = Some h →
             date_of now - 7 ≤ d → compensation_status h ≠ COMP_PENDING) →
  ∀ id d h, id ∈ done ++ (account_id <$> l) →
    fx_compensation_history (mark_all_failed now reason l db) !! (id, d) = Some h →
    date_of now - 7 ≤ d → compensation_status h ≠ COMP_PENDING.
Proof.
  induction l as [|a l IH]; intros db done Hdone id d h Hin Hk Hd.
  - rewrite app_nil_r in Hin. eapply Hdone; eauto.
  - rewrite mark_all_failed_cons in Hk.
    apply (IH (mark_compensation_failed now (account_id a) (Some reason) db).2
              (done ++ [account_id a])) with (id := id) (d := d); try assumption.
    + intros id' d' h' Hin' Hk' Hd'.
      apply mark_compensation_failed_after in Hk' as [Hf | [Hk' Hc]]; [congruence|].
      apply elem_of_app in Hin' as [Hin'|Hin'].
      * eapply Hdone; eauto.
      * apply list_elem_of_singleton in Hin' as ->.
        unfold pending_in_window in Hc. simpl in Hc.
        rewrite (bool_decide_eq_true_2 _ eq_refl) in Hc. simpl in Hc.
        intros Hp. rewrite (bool_decide_eq_true_2 _ Hp) in Hc. simpl in Hc. lia.
    + rewrite <- app_assoc. exact Hin.
Qed.

(** X19. When the compensation pass ends with a non-zero exit code, a
    timeout or an exception, afterwards no attempted account has a PENDING
    record dated within the last seven days (each was turned FAILED, or a
    FAILED record for today was added); status rows and the ledger are not
    written. *)
Theorem compensation_failure_leaves_no_pending is_test attempted result now db :
  abnormal result = true →
  (∀ a d h, a ∈ attempted →
     fx_compensation_history
       (_run_cmd is_test true compensation attempted result now db)
       !! (account_id a, d) = Some h →
     date_of now - 7 ≤ d → compensation_status h ≠ COMP_PENDING) ∧
  fx_account_status (_run_cmd is_test true compensation attempted result now db)
    = fx_account_status db ∧
  fx_crawl_exception (_run_cmd is_test true compensation attempted result now db)
    = fx_crawl_exception db.
Proof.
  intros Hab.
  assert (∃ reason, _run_cmd is_test true compensation attempted result now db
                    = mark_all_failed now reason attempted db) as [reason ->].
  { destruct result as [rc| |msg]; unfold _run_cmd; simpl in *; eauto.
    destruct (bool_decide (rc = 0)); [discriminate|eauto]. }
  split; [|apply mark_all_failed_tables].
  intros a d h Ha Hk Hd.
  apply (mark_all_failed_clears now reason attempted db []) with (id := account_id a) (d := d);
    try assumption.
  - intros id d' h' Hin. inversion Hin.
  - simpl. apply list_elem_of_fmap. eauto.
Qed.

Lemma compensation_failure_leaves_no_pending_witness :
  (∀ a d h, a ∈ Examples.attempted_A →
     fx_compensation_history
       (_run_cmd false true compensation Examples.attempted_A TimeoutExpired
                 Examples.noon Examples.crawl_failed_for_A)
       !! (account_id a, d) = Some h →
     date_of Examples.noon - 7 ≤ d → compensation_status h ≠ COMP_PENDING) ∧
  fx_account_status
    (_run_cmd false true compensation Examples.attempted_A TimeoutExpired
              Examples.noon Examples.crawl_failed_for_A)
    = fx_account_status Examples.crawl_failed_for_A ∧
  fx_crawl_exception
    (_run_cmd false true compensation Examples.attempted_A TimeoutExpired
              Examples.noon Examples.crawl_failed_for_A)
    = fx_crawl_exception Examples.crawl_failed_for_A.
Proof.
  exact (compensation_failure_leaves_no_pending false Examples.attempted_A
           TimeoutExpired Examples.noon Examples.crawl_failed_for_A eq_refl).
Defined.

(** ** The round *)

Lemma elem_of_pending_accounts env db id d h :
  fx_compensation_history db !! (id, d) = Some h →
  compensation_status h = COMP_PENDING →
  id ∈ account_id <$> pending_accounts env db.
Proof.
  intros Hl Hp. unfold pending_accounts, get_pending_compensation_accounts.
  simpl (0 <? 0).
  pose proof (pending_groups_aggregate (fx_compensation_history db)
                (id, h_account_name h)) as Hagg.
  destruct (pending_groups (fx_compensation_history db) !! (id, h_account_name h))
    as [a|] eqn:Hg.
  - apply list_elem_of_fmap. exists (mkAccount id (h_account_name h)).
    split; [reflexivity|].
    apply list_elem_of_fmap. exists (id, h_account_name h). split; [reflexivity|].
    apply list_elem_of_fmap. exists (id, h_account_name h, a). split; [reflexivity|].
    apply elem_of_ordered_pending_groups. exact Hg.
  - exfalso. apply (Hagg (id, d, h)); [|reflexivity].
    apply elem_of_pending_rows. auto.
Qed.

Lemma dry_compensation_step crawler is_test env db :
  compensation_step crawler is_test true env db =
  mark_all_completed (t_compensation env) (pending_accounts env db) db.
Proof.
  unfold compensation_step. destruct (pending_accounts env db); reflexivity.
Qed.

(** X20. A dry-run round never runs the crawler, whatever it is.  After it
    every status row is PENDING, every compensation record still PENDING is
    dated more than seven days before the compensation step (all the others
    were marked COMPLETED), and the ledger has gained one [finished] entry
    if the target Excel exists, also in test mode, and nothing otherwise. *)
Theorem dry_run_round basename crawler full_excel_path env db :
  let db' := (run_one_round basename crawler true full_excel_path env db).2 in
  (∀ crawler', run_one_round basename crawler' true full_excel_path env db
               = run_one_round basename crawler true full_excel_path env db) ∧
  (∀ id r, fx_account_status db' !! id = Some r → status r = PENDING) ∧
  (∀ id d h, fx_compensation_history db' !! (id, d) = Some h →
             compensation_status h = COMP_PENDING →
             d < date_of (t_compensation env) - 7) ∧
  fx_crawl_exception db' =
    fx_crawl_exception db ++
    (if target_excel_exists env
     then [ {| finished_date := t_full env; ev_status := finished;
               e_create_time := t_full env; e_update_time := t_full env |} ]
     else []).
Proof.
  cbv zeta. unfold run_one_round. cbn [snd].
  set (is_test := is_test_mode _).
  split; [|split; [|split]].
  - intros crawler'. unfold full_step. rewrite !dry_compensation_step. reflexivity.
  - intros id r. rewrite dry_compensation_step. unfold full_step.
    set (db1 := reset_step env db).
    assert (fx_account_status (mark_all_completed (t_compensation env)
                                 (pending_accounts env db1) db1) !! id = Some r →
            status r = PENDING) as H.
    { rewrite mark_all_completed_account.
      destruct (fx_account_status db1 !! id) as [r0|] eqn:Hr0; [|discriminate].
      simpl. intros [= <-].
      apply (reset_all_pending (t_reset env) db id) in Hr0.
      destruct (bool_decide _); exact Hr0. }
    destruct (target_excel_exists env); simpl; exact H.
  - intros id d h. rewrite dry_compensation_step. unfold full_step.
    set (db1 := reset_step env db).
    assert (fx_compensation_history (mark_all_completed (t_compensation env)
                                 (pending_accounts env db1) db1) !! (id, d) = Some h →
            compensation_status h = COMP_PENDING →
            d < date_of (t_compensation env) - 7) as H.
    { rewrite mark_all_completed_history.
      destruct (fx_compensation_history db1 !! (id, d)) as [h0|] eqn:Hh0;
        [|discriminate].
      cbn [fmap option_fmap option_map fst snd].
      destruct (decide (compensation_status h0 = COMP_PENDING)) as [Hp|Hp].
      - rewrite (bool_decide_eq_true_2 _ Hp).
        rewrite (bool_decide_eq_true_2 _ (elem_of_pending_accounts env db1 id d h0 Hh0 Hp)).
        destruct (date_of (t_compensation env) - 7 <=? d) eqn:Hd; simpl.
        + intros [= <-]. discriminate.
        + intros _ _. lia.
      - rewrite (bool_decide_eq_false_2 _ Hp), andb_false_r. simpl.
        intros [= <-] Hp'. contradiction. }
    destruct (target_excel_exists env); simpl; exact H.
  - rewrite dry_compensation_step. unfold full_step.
    destruct (target_excel_exists env); simpl.
    + rewrite mark_all_completed_ledger. unfold reset_step.
      rewrite reset_result. reflexivity.
    + rewrite mark_all_completed_ledger, app_nil_r. unfold reset_step.
      rewrite reset_result. reflexivity.
Qed.

(** ** The ledger over a round *)

Lemma run_cmd_ledger is_test mode attempted result now db :
  fx_crawl_exception (_run_cmd is_test true mode attempted result now db) =
  fx_crawl_exception db ++
  match mode with
  | full => full_pass_entry is_test result (_is_full_success attempted db) now
  | compensation => []
  end.
Proof.
  pose proof (record_failures_and_mark_unfinished_tables now db) as (_ & _ & Hu).
  pose proof (mark_all_completed_ledger now attempted db) as Hc.
  unfold _run_cmd, full_pass_entry, abnormal. simpl negb. cbv iota.
  destruct mode, result as [rc| |msg];
    try destruct (bool_decide (rc = 0)); simpl negb; cbv iota;
    try (destruct (_is_full_success attempted db), is_test; simpl;
         rewrite ?app_nil_r; solve [reflexivity | exact Hu]);
    try exact Hu;
    rewrite app_nil_r;
    try exact Hc;
    apply mark_all_failed_tables.
Qed.

Lemma failing_crawler_ledger target db :
  fx_crawl_exception (Examples.failing_crawler target db).2 = fx_crawl_exception db.
Proof.
  destruct target as [pending|path]; [|reflexivity]. simpl.
  revert db. induction pending as [|a l IH]; intros db; [reflexivity|].
  simpl. rewrite IH. reflexivity.
Qed.

(** X21. In a round that is not a dry run, with a crawler that does not
    write the ledger itself, the ledger gains at most one entry, and only
    from the full pass: nothing when the target Excel or the crawler script
    is missing; otherwise [unfinished] when the full crawl ends abnormally,
    and after exit code 0 nothing in test mode, else [finished] or
    [unfinished] as the success check over the Excel's accounts says.  The
    reset and the compensation pass never write it. *)
Theorem round_ledger basename crawler full_excel_path env db :
  (∀ target d, fx_crawl_exception (crawler target d).2 = fx_crawl_exception d) →
  let is_test := is_test_mode (excel_basename basename full_excel_path) in
  let db2 := compensation_step crawler is_test false env (reset_step env db) in
  let run := crawler (FullList full_excel_path) db2 in
  let entries :=
    if target_excel_exists env && crawler_script_exists env
    then full_pass_entry is_test run.1
           (_is_full_success (excel_accounts env) run.2) (t_full env)
    else [] in
  fx_crawl_exception (run_one_round basename crawler false full_excel_path env db).2
    = fx_crawl_exception db ++ entries ∧
  fx_crawl_exception db2 = fx_crawl_exception db ∧
  (length entries ≤ 1)%nat.
Proof.
  intros Hcrawler. cbv zeta. unfold run_one_round. cbn [snd].
  set (is_test := is_test_mode _).
  assert (fx_crawl_exception
            (compensation_step crawler is_test false env (reset_step env db))
          = fx_crawl_exception db) as H2.
  { unfold compensation_step.
    assert (fx_crawl_exception (reset_step env db) = fx_crawl_exception db) as H1
      by (unfold reset_step; rewrite reset_result; reflexivity).
    destruct (pending_accounts env (reset_step env db)) as [|a l]; [exact H1|].
    unfold run_crawler. destruct (crawler_script_exists env); [|exact H1].
    rewrite run_cmd_ledger, app_nil_r, Hcrawler. exact H1. }
  set (db2 := compensation_step crawler is_test false env (reset_step env db)) in *.
  split; [|split; [exact H2|]].
  - unfold full_step, run_crawler.
    destruct (target_excel_exists env); simpl;
      [|rewrite app_nil_r; exact H2].
    destruct (crawler_script_exists env); simpl;
      [|rewrite app_nil_r; exact H2].
    rewrite run_cmd_ledger, Hcrawler, H2. reflexivity.
  - destruct (target_excel_exists env && crawler_script_exists env); [|simpl; lia].
    unfold full_pass_entry.
    destruct (abnormal _); [simpl; lia|].
    destruct is_test; [simpl; lia|].
    destruct (_is_full_success _ _); simpl; lia.
Qed.

Lemma round_ledger_witness :
  let unfinished_entry :=
    [ {| finished_date := t_full Examples.round_env; ev_status := unfinished;
         e_create_time := t_full Examples.round_env;
         e_update_time := t_full Examples.round_env |} ] in
  fx_crawl_exception
    (run_one_round (λ p, p) Examples.failing_crawler false None Examples.round_env
       Examples.crawl_failed_for_A).2
    = fx_crawl_exception Examples.crawl_failed_for_A ++ unfinished_entry ∧
  fx_crawl_exception
    (compensation_step Examples.failing_crawler false false Examples.round_env
       (reset_step Examples.round_env Examples.crawl_failed_for_A))
    = fx_crawl_exception Examples.crawl_failed_for_A ∧
  (length unfinished_entry ≤ 1)%nat.
Proof.
  exact (round_ledger (λ p, p) Examples.failing_crawler None Examples.round_env
           Examples.crawl_failed_for_A failing_crawler_ledger).
Defined.

End OrchestratorExtra.

(** * Further properties of the proxy lease manager *)

Module ProxyExtra.
Import Proxy ProxyFacts.

Lemma World_eq (w1 w2 : World) :
  clock w1 = clock w2 → replies w1 = replies w2 → events w1 = events w2 → w1 = w2.
Proof. destruct w1, w2; simpl; intros; subst; reflexivity. Qed.

Lemma attempts_trace_S delay k :
  attempts_trace delay (S k) = EvHttpGet :: EvSleep delay :: attempts_trace delay k.
Proof. reflexivity. Qed.

Lemma after_failures_0 delay w : after_failures delay 0 w = w.
Proof.
  apply World_eq; simpl.
  - lia.
  - reflexivity.
  - apply app_nil_r.
Qed.

Section ManagerExtra.
Variable py_str : json → string.
Variable rt : Runtime.
Variable cfg : Config.

(** An attempt that fails and is not the last one: the request, the
    pause, and the loop goes on. *)
Lemma attempt_loop_fail_step n attempt l w :
  can_pause rt cfg →
  reply_fails (match replies w with [] => RequestException | r :: _ => http_result r end)
    = true →
  attempt < max_retries cfg - 1 →
  attempt_loop py_str rt cfg (S n) attempt l w =
  attempt_loop py_str rt cfg n (attempt + 1) l (after_failures (retry_delay cfg) 1 w).
Proof.
  intros [Hlo Hhi] Hfail Hlt.
  assert (wait_before_retry rt cfg attempt =
          λ l w, (Ret tt, l, {| clock := clock w + timedelta_seconds (retry_delay cfg);
                                replies := replies w;
                                events := events w ++ [EvSleep (retry_delay cfg)] |}))
    as Hwait.
  { unfold wait_before_retry, sleep.
    assert ((attempt <? max_retries cfg - 1) = true) as -> by lia.
    assert ((retry_delay cfg <? 0) = false) as -> by lia.
    assert ((sleep_limit rt <? retry_delay cfg) = false) as -> by lia.
    reflexivity. }
  assert (∀ w1 : World,
            (wait_before_retry rt cfg attempt ≫=
             λ _, attempt_loop py_str rt cfg n (attempt + 1)) l w1 =
            attempt_loop py_str rt cfg n (attempt + 1) l
              {| clock := clock w1 + timedelta_seconds (retry_delay cfg);
                 replies := replies w1;
                 events := events w1 ++ [EvSleep (retry_delay cfg)] |}) as Hretry.
  { intros w1. rewrite Hwait. reflexivity. }
  simpl attempt_loop. rewrite bind_run. unfold http_get.
  destruct (replies w) as [|r rest] eqn:Er.
  - rewrite Hretry. f_equal. apply World_eq; simpl.
    + rewrite Er. simpl. lia.
    + rewrite Er. reflexivity.
    + rewrite <- app_assoc. reflexivity.
  - assert (attempt_loop py_str rt cfg n (attempt + 1) l
              (after_failures (retry_delay cfg) 1 w) =
            (wait_before_retry rt cfg attempt ≫=
             λ _, attempt_loop py_str rt cfg n (attempt + 1)) l
              {| clock := clock w + latency r; replies := rest;
                 events := events w ++ [EvHttpGet] |}) as ->.
    { rewrite Hretry. f_equal. apply World_eq; simpl.
      - rewrite Er. simpl. lia.
      - rewrite Er. reflexivity.
      - rewrite <- app_assoc. reflexivity. }
    destruct (http_result r) as [| |[| | | | |result]]; simpl in Hfail;
      try discriminate; try reflexivity.
    apply negb_true_iff in Hfail.
    destruct (is_success_code _ && truthy _) eqn:E1; [|reflexivity].
    simpl in Hfail. rewrite Hfail. reflexivity.
Qed.

Lemma after_failures_S delay k w :
  after_failures delay (S k) w = after_failures delay k (after_failures delay 1 w).
Proof.
  apply World_eq; simpl.
  - destruct (replies w) as [|r rest]; simpl.
    + rewrite ?take_nil. simpl. lia.
    + rewrite drop_0. lia.
  - rewrite drop_drop. reflexivity.
  - rewrite <- app_assoc. reflexivity.
Qed.

(** After [k] failing replies, with attempts to spare, the loop stands at
    attempt [attempt + k] in the world [k] requests and [k] pauses later. *)
Lemma attempt_loop_skip k :
  ∀ remaining attempt l w,
    k = 0%nat ∨ can_pause rt cfg →
    (k < remaining)%nat →
    attempt + Z.of_nat remaining ≤ max_retries cfg →
    Forall (λ r, reply_fails (http_result r) = true) (take k (replies w)) →
    attempt_loop py_str rt cfg remaining attempt l w =
    attempt_loop py_str rt cfg (remaining - k) (attempt + Z.of_nat k) l
      (after_failures (retry_delay cfg) k w).
Proof.
  induction k as [|k IH]; intros remaining attempt l w Hpause Hk Hmax Hall.
  - rewrite after_failures_0, Nat.sub_0_r, Z.add_0_r. reflexivity.
  - destruct Hpause as [Hz|Hpause]; [discriminate|].
    destruct remaining as [|n]; [lia|].
    rewrite attempt_loop_fail_step; [|exact Hpause| |lia].
    + rewrite (after_failures_S _ k w).
      rewrite (IH n (attempt + 1) l (after_failures (retry_delay cfg) 1 w));
        [|right; exact Hpause|lia|lia|].
      * f_equal. lia.
      * simpl. destruct (replies w) as [|r rest]; simpl.
        -- rewrite take_nil. constructor.
        -- simpl in Hall. apply Forall_cons in Hall. tauto.
    + destruct (replies w) as [|r rest]; [reflexivity|].
      simpl in Hall. apply Forall_cons in Hall. tauto.
Qed.

Lemma total_latency_app rs1 rs2 :
  total_latency (rs1 ++ rs2) = total_latency rs1 + total_latency rs2.
Proof.
  unfold total_latency. induction rs1 as [|r rs1 IH]; simpl; [reflexivity|].
  rewrite IH. lia.
Qed.

(** The world in which the attempt after [k] failures reads the reply
    [r], and the world it leaves. *)
Lemma after_failures_next delay k w r :
  replies w !! k = Some r →
  replies (after_failures delay k w) = r :: drop (S k) (replies w) ∧
  clock (after_failures delay k w) + latency r =
    clock w + total_latency (take (S k) (replies w))
    + Z.of_nat k * timedelta_seconds delay.
Proof.
  intros Hr. simpl. split.
  - apply drop_S, Hr.
  - rewrite (take_S_r _ _ _ Hr), total_latency_app. simpl. lia.
Qed.

Lemma attempt_loop_success n attempt l w r rest server :
  replies w = r :: rest →
  reply_server (http_result r) = Some server →
  datetime_min ≤ clock w + latency r + timedelta_seconds (ip_lifetime cfg)
    ≤ datetime_max →
  attempt_loop py_str rt cfg (S n) attempt l w =
    (Ret true,
     {| enabled := enabled l;
        upstream_proxy := Some ("http://" +:+ py_str server);
        proxy_expiry_time :=
          Some (clock w + latency r + timedelta_seconds (ip_lifetime cfg));
        last_proxy_refresh := Some (clock w + latency r);
        consecutive_failures := 0 |},
     {| clock := clock w + latency r; replies := rest;
        events := events w ++ [EvHttpGet] |}).
Proof.
  intros Er Hs [Hlo Hhi]. simpl attempt_loop. rewrite bind_run. unfold http_get.
  rewrite Er.
  destruct (http_result r) as [| |[| | | | |result]]; simpl in Hs; try discriminate.
  destruct (is_success_code _ && truthy _); [|discriminate].
  destruct (truthy (server_of _)) eqn:Et; [|discriminate].
  injection Hs as <-.
  rewrite bind_run, store_new_proxy_run. cbn [clock].
  assert ((datetime_min <=? clock w + latency r + timedelta_seconds (ip_lifetime cfg))
          = true) as -> by lia.
  assert ((clock w + latency r + timedelta_seconds (ip_lifetime cfg) <=? datetime_max)
          = true) as -> by lia.
  reflexivity.
Qed.

(** A good reply that comes when [now + ip_lifetime] is no [datetime]: the
    address has been stored when [OverflowError] leaves the method, the
    rest of the lease has not. *)
Lemma attempt_loop_overflow n attempt l w r rest server :
  replies w = r :: rest →
  reply_server (http_result r) = Some server →
  ¬ (datetime_min ≤ clock w + latency r + timedelta_seconds (ip_lifetime cfg)
       ≤ datetime_max) →
  attempt_loop py_str rt cfg (S n) attempt l w =
    (Raise OverflowError,
     {| enabled := enabled l;
        upstream_proxy := Some ("http://" +:+ py_str server);
        proxy_expiry_time := proxy_expiry_time l;
        last_proxy_refresh := last_proxy_refresh l;
        consecutive_failures := consecutive_failures l |},
     {| clock := clock w + latency r; replies := rest;
        events := events w ++ [EvHttpGet] |}).
Proof.
  intros Er Hs Hout. simpl attempt_loop. rewrite bind_run. unfold http_get.
  rewrite Er.
  destruct (http_result r) as [| |[| | | | |result]]; simpl in Hs; try discriminate.
  destruct (is_success_code _ && truthy _); [|discriminate].
  destruct (truthy (server_of _)) eqn:Et; [|discriminate].
  injection Hs as <-.
  rewrite bind_run, store_new_proxy_run. cbn [clock].
  destruct (datetime_min <=? clock w + latency r + timedelta_seconds (ip_lifetime cfg))
    eqn:E1; [|reflexivity].
  destruct (clock w + latency r + timedelta_seconds (ip_lifetime cfg) <=? datetime_max)
    eqn:E2; [|rewrite andb_false_r; reflexivity].
  exfalso. apply Hout. lia.
Qed.


(** [_get_new_proxy] up to the attempt that follows [k] failures. *)
Lemma get_new_proxy_skip l w k :
  k = 0%nat ∨ can_pause rt cfg →
  (k < Z.to_nat (max_retries cfg))%nat →
  Forall (λ r, reply_fails (http_result r) = true) (take k (replies w)) →
  ∃ n, _get_new_proxy py_str rt cfg l w =
       (ok ← attempt_loop py_str rt cfg (S n) (0 + Z.of_nat k);
        if (ok : bool) then ret true
        else log_proxy_key rt cfg;; record_failed_round cfg;; ret false) l
         (after_failures (retry_delay cfg) k
            {| clock := clock w; replies := replies w;
               events := events w ++ [EvGetNewProxy] |}).
Proof.
  intros Hpause Hk Hall.
  assert (∃ n, (Z.to_nat (max_retries cfg) - k = S n)%nat) as [n Hn]
    by (exists (Z.to_nat (max_retries cfg) - k - 1)%nat; lia).
  exists n. unfold _get_new_proxy. rewrite bind_run. unfold emit at 1. cbv beta iota.
  rewrite !bind_run.
  rewrite (attempt_loop_skip k (Z.to_nat (max_retries cfg)) 0 l);
    [|exact Hpause|exact Hk|lia|exact Hall].
  rewrite Hn. reflexivity.
Qed.

(** X22. When the first [k] replies fail and the next one carries a server
    address, with [k] below [max_retries], the pauses being ones
    [time.sleep] takes (if there are any) and the new expiry time a
    [datetime], [_get_new_proxy] returns [True] after [k + 1] requests and
    [k] pauses.  The lease then holds ["http://" + server], expires
    [ip_lifetime] after the moment the good reply arrived, and
    [consecutive_failures] is back at 0 whatever it was; [enabled] stays as
    it was. *)
Theorem get_new_proxy_succeeds_after_failures l w k r server :
  k = 0%nat ∨ can_pause rt cfg →
  (k < Z.to_nat (max_retries cfg))%nat →
  Forall (λ r, reply_fails (http_result r) = true) (take k (replies w)) →
  replies w !! k = Some r →
  reply_server (http_result r) = Some server →
  let t := clock w + total_latency (take (S k) (replies w))
           + Z.of_nat k * timedelta_seconds (retry_delay cfg) in
  datetime_min ≤ t + timedelta_seconds (ip_lifetime cfg) ≤ datetime_max →
  _get_new_proxy py_str rt cfg l w =
    (Ret true,
     {| enabled := enabled l;
        upstream_proxy := Some ("http://" +:+ py_str server);
        proxy_expiry_time := Some (t + timedelta_seconds (ip_lifetime cfg));
        last_proxy_refresh := Some t;
        consecutive_failures := 0 |},
     {| clock := t; replies := drop (S k) (replies w);
        events := events w ++ EvGetNewProxy :: attempts_trace (retry_delay cfg) k |}).
Proof.
  intros Hpause Hk Hall Hr Hs. cbv zeta. intros Hrange.
  destruct (get_new_proxy_skip l w k Hpause Hk Hall) as (n & ->).
  set (w0 := {| clock := clock w; replies := replies w;
                events := events w ++ [EvGetNewProxy] |}).
  destruct (after_failures_next (retry_delay cfg) k w0 r Hr) as [Hrep Hclock].
  rewrite bind_run, (attempt_loop_success n _ l _ r _ server Hrep Hs);
    [|rewrite Hclock; exact Hrange].
  rewrite Hclock. simpl.
  unfold attempts_trace. rewrite <- !app_assoc. reflexivity.
Qed.


(** ** The requests of one refresh *)

Lemma attempt_loop_trace remaining :
  ∀ attempt l w,
    attempt + Z.of_nat remaining = max_retries cfg →
    (remaining = 0%nat ∧
     events (attempt_loop py_str rt cfg remaining attempt l w).2 = events w) ∨
    ∃ k, (k < remaining)%nat ∧
         events (attempt_loop py_str rt cfg remaining attempt l w).2 =
           events w ++ attempts_trace (retry_delay cfg) k.
Proof.
  induction remaining as [|n IH]; intros attempt l w Hmax; [left; split; reflexivity|].
  right. simpl attempt_loop. rewrite bind_run.
  destruct (http_get_run l w) as (w1 & -> & _ & He1).
  assert (∃ k, (k < S n)%nat ∧
            events ((wait_before_retry rt cfg attempt ≫=
                     λ _, attempt_loop py_str rt cfg n (attempt + 1)) l w1).2 =
            events w ++ attempts_trace (retry_delay cfg) k) as Hretry.
  { rewrite bind_run. unfold wait_before_retry.
    destruct (attempt <? max_retries cfg - 1) eqn:Hlast.
    - unfold sleep.
      destruct (retry_delay cfg <? 0);
        [exists 0%nat; split; [lia | exact He1]|].
      destruct (sleep_limit rt <? retry_delay cfg);
        [exists 0%nat; split; [lia | exact He1]|].
      destruct (IH (attempt + 1) l
                  {| clock := clock w1 + timedelta_seconds (retry_delay cfg);
                     replies := replies w1;
                     events := events w1 ++ [EvSleep (retry_delay cfg)] |})
        as [[-> _] | (k & Hk & Hev)]; [lia|lia|].
      exists (S k). split; [lia|].
      cbv beta iota. rewrite Hev. simpl events.
      rewrite He1, attempts_trace_S, <- !app_assoc. reflexivity.
    - assert (n = 0%nat) as -> by lia.
      exists 0%nat. split; [lia|]. simpl. exact He1. }
  assert (∃ k, (k < S n)%nat ∧
            events w1 = events w ++ attempts_trace (retry_delay cfg) k) as Hstop
    by (exists 0%nat; split; [lia | exact He1]).
  destruct (match replies w with [] => RequestException | r :: _ => http_result r end)
    as [| |[| | | | |result]]; try exact Hretry; try exact Hstop.
  destruct (_ && _); [|exact Hretry].
  destruct (truthy _); [|exact Hretry].
  rewrite bind_run.
  pose proof (store_new_proxy_events py_str cfg
                (server_of (proxy_item_of (dict_get result "data"))) l w1) as E.
  destruct (store_new_proxy py_str cfg _ l w1) as [[[[]|e] l2] w2];
    simpl in *; rewrite E; exact Hstop.
Qed.

Lemma get_new_proxy_trace l w :
  events (_get_new_proxy py_str rt cfg l w).2 =
  events (attempt_loop py_str rt cfg (Z.to_nat (max_retries cfg)) 0 l
            {| clock := clock w; replies := replies w;
               events := events w ++ [EvGetNewProxy] |}).2.
Proof.
  unfold _get_new_proxy. rewrite bind_run. unfold emit at 1. cbv beta iota.
  rewrite bind_run.
  destruct (attempt_loop py_str rt cfg _ 0 l _) as [[[[|]|e] l1] w1];
    try reflexivity.
  rewrite bind_run.
  pose proof (log_proxy_key_events rt cfg l1 w1) as E.
  destruct (log_proxy_key rt cfg l1 w1) as [[[[]|e] l2] w2]; exact E.
Qed.

(** X24. One call of [_get_new_proxy] sends at most [max_retries]
    requests, pauses [retry_delay] seconds between two consecutive
    requests, and never pauses after its last request: what it does is [k]
    requests each followed by a pause and then one more request, for some
    [k < max_retries] (or nothing at all when [max_retries] is not
    positive). *)
Theorem get_new_proxy_request_budget l w :
  (max_retries cfg ≤ 0 ∧
   new_events w (_get_new_proxy py_str rt cfg l w).2 = [EvGetNewProxy]) ∨
  (∃ k, Z.of_nat k < max_retries cfg ∧
        new_events w (_get_new_proxy py_str rt cfg l w).2 =
          EvGetNewProxy :: attempts_trace (retry_delay cfg) k).
Proof.
  assert (∀ tr, events (_get_new_proxy py_str rt cfg l w).2 = events w ++ tr →
                new_events w (_get_new_proxy py_str rt cfg l w).2 = tr) as Hnew.
  { intros tr E. unfold new_events. rewrite E. apply drop_app_length. }
  rewrite get_new_proxy_trace in Hnew.
  set (w0 := {| clock := clock w; replies := replies w;
                events := events w ++ [EvGetNewProxy] |}) in *.
  destruct (Z_le_gt_dec (max_retries cfg) 0) as [Hle|Hgt].
  - left. split; [exact Hle|]. apply Hnew.
    assert (Z.to_nat (max_retries cfg) = 0%nat) as -> by lia. reflexivity.
  - right.
    destruct (attempt_loop_trace (Z.to_nat (max_retries cfg)) 0 l w0)
      as [[Hz Hev] | (k & Hk & Hev)]; [lia|lia|].
    exists k. split; [lia|]. apply Hnew. rewrite Hev. simpl.
    rewrite <- app_assoc. reflexivity.
Qed.

(** ** The mutex *)

Lemma lock_discipline_app tr1 : ∀ held tr2,
  lock_discipline held (tr1 ++ tr2) =
  match lock_discipline held tr1 with
  | Some held' => lock_discipline held' tr2
  | None => None
  end.
Proof.
  induction tr1 as [|e tr1 IH]; intros held tr2; [reflexivity|].
  destruct e, held; simpl; try reflexivity; apply IH.
Qed.

Lemma lock_discipline_attempts tr held :
  Forall is_attempt_event tr → lock_discipline held tr = Some held.
Proof.
  induction 1 as [|e tr He _ IH]; [reflexivity|].
  destruct He as [->|[s ->]]; simpl; exact IH.
Qed.

Lemma get_new_proxy_lock l w held :
  ∃ tr, events (_get_new_proxy py_str rt cfg l w).2 = events w ++ tr ∧
        lock_discipline held tr = Some held.
Proof.
  destruct (get_new_proxy_events py_str rt cfg l w) as (tr & E & F).
  exists (EvGetNewProxy :: tr). split; [exact E|].
  simpl. apply lock_discipline_attempts, F.
Qed.

Lemma refresh_proxy_if_needed_events l w :
  events (_refresh_proxy_if_needed py_str rt cfg l w).2 = events w ∨
  ∃ tr, events (_refresh_proxy_if_needed py_str rt cfg l w).2 =
          events w ++ EvAcquire :: tr ++ [EvRelease] ∧
        lock_discipline true tr = Some true.
Proof.
  cbv [_refresh_proxy_if_needed mbind M_bind bind get_lease now emit finally ret].
  destruct (enabled l); simpl; [|left; reflexivity]. right.
  destruct (_is_proxy_valid cfg l (clock w)).
  - exists []. simpl. rewrite <- app_assoc. split; reflexivity.
  - match goal with |- context [_get_new_proxy py_str rt cfg l ?w1] =>
      destruct (get_new_proxy_lock l w1 true) as (tr & E & F);
      destruct (_get_new_proxy py_str rt cfg l w1) as [[o l1] w1']
    end.
    simpl in E. exists tr. split; [|exact F].
    destruct o; simpl; rewrite E, <- !app_assoc; reflexivity.
Qed.

Lemma get_current_proxy_events l w :
  events (get_current_proxy py_str rt cfg l w).2 = events w ∨
  ∃ tr, events (get_current_proxy py_str rt cfg l w).2 =
          events w ++ EvAcquire :: tr ++ [EvRelease] ∧
        lock_discipline true tr = Some true.
Proof.
  destruct (enabled l) eqn:He;
    [|left; rewrite (get_current_proxy_disabled py_str rt cfg l w He); reflexivity].
  right. destruct (_is_proxy_valid cfg l (clock w)) eqn:Hv.
  - rewrite (get_current_proxy_valid py_str rt cfg l w He Hv).
    exists []. split; reflexivity.
  - rewrite (get_current_proxy_refresh py_str rt cfg l w He Hv).
    match goal with |- context [_get_new_proxy py_str rt cfg l ?w1] =>
      destruct (get_new_proxy_lock l w1 true) as (tr & E & F);
      destruct (_get_new_proxy py_str rt cfg l w1) as [[o l1] w1']
    end.
    simpl in E. exists tr. split; [|exact F].
    simpl. rewrite E, <- !app_assoc. reflexivity.
Qed.

Lemma run_op_lock op l w :
  ∃ tr, events (run_op py_str rt cfg op l w).2 = events w ++ tr ∧
        lock_discipline false tr = Some false.
Proof.
  assert (∀ tr, lock_discipline true tr = Some true →
                lock_discipline false (EvAcquire :: tr ++ [EvRelease]) = Some false)
    as Hpair.
  { intros tr Htr. simpl. rewrite lock_discipline_app, Htr. reflexivity. }
  destruct op; simpl.
  - destruct (get_current_proxy_events l w) as [E | (tr & E & F)];
      destruct (get_current_proxy py_str rt cfg l w) as [[o l'] w']; simpl in *.
    + exists []. rewrite app_nil_r. split; [exact E | reflexivity].
    + eexists. split; [exact E | apply Hpair, F].
  - destruct (refresh_proxy_if_needed_events l w) as [E | (tr & E & F)];
      destruct (_refresh_proxy_if_needed py_str rt cfg l w) as [[o l'] w']; simpl in *.
    + exists []. rewrite app_nil_r. split; [exact E | reflexivity].
    + eexists. split; [exact E | apply Hpair, F].
  - destruct (get_new_proxy_lock l w false) as (tr & E & F).
    destruct (_get_new_proxy py_str rt cfg l w) as [[o l'] w']; simpl in *.
    exists tr. split; [exact E | exact F].
Qed.

(** X25. The mutex is used correctly over any sequence of calls of the
    manager, whatever the provider answers and also when a call ends in an
    exception: it is never taken while held (the lock is not reentrant, so
    that would block for ever), never released while free, and it is free
    again after every call. *)
Theorem lock_is_always_released ops l w :
  lock_discipline false (events w) = Some false →
  lock_discipline false (events (run_ops py_str rt cfg ops l w).2) = Some false.
Proof.
  unfold run_ops. revert l w. induction ops as [|op ops IH]; intros l w Hw; [exact Hw|].
  simpl. destruct (run_op_lock op l w) as (tr & E & F).
  destruct (run_op py_str rt cfg op l w) as [l' w']. simpl in *.
  apply IH. rewrite E, lock_discipline_app, Hw. exact F.
Qed.

(** ** What [get_current_proxy] hands out *)

Lemma attempt_loop_true remaining :
  ∀ attempt l w l' w',
    attempt_loop py_str rt cfg remaining attempt l w = (Ret true, l', w') →
    ∃ server,
      l' = {| enabled := enabled l;
              upstream_proxy := Some ("http://" +:+ py_str server);
              proxy_expiry_time := Some (clock w' + timedelta_seconds (ip_lifetime cfg));
              last_proxy_refresh := Some (clock w');
              consecutive_failures := 0 |}.
Proof.
  induction remaining as [|n IH]; intros attempt l w l' w'; [discriminate|].
  simpl attempt_loop. rewrite bind_run.
  destruct (http_get_run l w) as (w1 & -> & _ & _).
  assert ((wait_before_retry rt cfg attempt ≫=
           λ _, attempt_loop py_str rt cfg n (attempt + 1)) l w1 = (Ret true, l', w') →
          ∃ server,
            l' = {| enabled := enabled l;
                    upstream_proxy := Some ("http://" +:+ py_str server);
                    proxy_expiry_time :=
                      Some (clock w' + timedelta_seconds (ip_lifetime cfg));
                    last_proxy_refresh := Some (clock w');
                    consecutive_failures := 0 |}) as Hretry.
  { rewrite bind_run.
    destruct (wait_before_retry_cases rt cfg attempt l w1)
      as [[e ->] | (w2 & -> & _ & _)]; [discriminate|].
    apply IH. }
  destruct (match replies w with [] => RequestException | r :: _ => http_result r end)
    as [| |[| | | | |result]]; try exact Hretry; try discriminate.
  destruct (_ && _); [|exact Hretry].
  destruct (truthy _); [|exact Hretry].
  rewrite bind_run, (store_new_proxy_run py_str cfg).
  destruct (_ && _); [|discriminate].
  intros [= <- <-]. eexists. reflexivity.
Qed.

Lemma get_new_proxy_true l w l' w' :
  _get_new_proxy py_str rt cfg l w = (Ret true, l', w') →
  ∃ server,
    l' = {| enabled := enabled l;
            upstream_proxy := Some ("http://" +:+ py_str server);
            proxy_expiry_time := Some (clock w' + timedelta_seconds (ip_lifetime cfg));
            last_proxy_refresh := Some (clock w');
            consecutive_failures := 0 |}.
Proof.
  unfold _get_new_proxy. rewrite bind_run. unfold emit at 1. cbv beta iota.
  rewrite bind_run.
  destruct (attempt_loop py_str rt cfg _ 0 l _) as [[[[|]|e] l1] w1] eqn:Hloop;
    [| |discriminate].
  - intros [= <- <-]. exact (attempt_loop_true _ _ _ _ _ _ Hloop).
  - rewrite bind_run.
    destruct (log_proxy_key rt cfg l1 w1) as [[[[]|e] l2] w2]; discriminate.
Qed.

(** The two ways [get_current_proxy] can return an address. *)
Lemma get_current_proxy_some_cases l w p l' w' :
  get_current_proxy py_str rt cfg l w = (Ret (Some p), l', w') →
  enabled l = true ∧
  ((_is_proxy_valid cfg l (clock w) = true ∧ l' = l ∧ upstream_proxy l = Some p ∧
    replies w' = replies w ∧ clock w' = clock w) ∨
   (_is_proxy_valid cfg l (clock w) = false ∧
    ∃ server,
      p = "http://" +:+ py_str server ∧
      l' = {| enabled := true;
              upstream_proxy := Some p;
              proxy_expiry_time := Some (clock w' + timedelta_seconds (ip_lifetime cfg));
              last_proxy_refresh := Some (clock w');
              consecutive_failures := 0 |})).
Proof.
  destruct (enabled l) eqn:He;
    [|rewrite (get_current_proxy_disabled py_str rt cfg l w He); discriminate].
  intros Hrun. split; [reflexivity|].
  destruct (_is_proxy_valid cfg l (clock w)) eqn:Hv.
  - left. rewrite (get_current_proxy_valid py_str rt cfg l w He Hv) in Hrun.
    injection Hrun as Hp <- <-. auto.
  - right. split; [reflexivity|].
    rewrite (get_current_proxy_refresh py_str rt cfg l w He Hv) in Hrun.
    destruct (_get_new_proxy py_str rt cfg l _) as [[[[|]|e] l1] w1] eqn:Hnew;
      try discriminate.
    apply get_new_proxy_true in Hnew as (server & ->).
    simpl in Hrun. injection Hrun as <- <- <-.
    exists server. rewrite He. auto.
Qed.

(** X26. An address returned by [get_current_proxy] is never a stale one:
    the pool is enabled, the lease holds that address, and either the lease
    was valid at the call (now before expiry minus the refresh buffer) and
    is unchanged, no request having been sent, or the address was obtained
    by this very call, is of the form ["http://" + server], expires
    [ip_lifetime] after the moment it arrived, and [consecutive_failures]
    is 0. *)
Theorem get_current_proxy_returns_live_address l w p l' w' :
  get_current_proxy py_str rt cfg l w = (Ret (Some p), l', w') →
  enabled l' = true ∧ upstream_proxy l' = Some p ∧
  ((_is_proxy_valid cfg l (clock w) = true ∧ l' = l ∧ replies w' = replies w) ∨
   (_is_proxy_valid cfg l (clock w) = false ∧
    (∃ server, p = "http://" +:+ py_str server) ∧
    proxy_expiry_time l' = Some (clock w' + timedelta_seconds (ip_lifetime cfg)) ∧
    last_proxy_refresh l' = Some (clock w') ∧
    consecutive_failures l' = 0)).
Proof.
  intros Hrun.
  destruct (get_current_proxy_some_cases l w p l' w' Hrun)
    as [He [(Hv & -> & Hp & Hr & _) | (Hv & server & Hp & ->)]].
  - split; [exact He|]. split; [exact Hp|]. left. auto.
  - split; [reflexivity|]. split; [reflexivity|]. right.
    split; [exact Hv|]. split; [eauto|]. auto.
Qed.

(** ** start_enhanced_mitmproxy *)

(** X27. The command [start_enhanced_mitmproxy] builds: with the pool
    disabled it is the plain [mitmdump] command, without [--mode], and the
    provider is not contacted; and whenever the command does carry an
    upstream it is [--mode upstream:<address>] appended to the plain
    command, with [<address>] the non-empty address the lease of the
    enabled pool holds at that moment. *)
Theorem mitmproxy_upstream port l w :
  (enabled l = false →
   start_enhanced_mitmproxy py_str rt cfg port l w =
     (Ret (mitmdump_command port None), l, w)) ∧
  (∀ cmd l' w',
     start_enhanced_mitmproxy py_str rt cfg port l w = (Ret cmd, l', w') →
     cmd = mitmdump_command port None ∨
     ∃ p, p ≠ "" ∧ enabled l' = true ∧ upstream_proxy l' = Some p ∧
          cmd = mitmdump_command port None ++ ["--mode"; "upstream:" +:+ p]).
Proof.
  unfold start_enhanced_mitmproxy. split.
  - intros He. rewrite bind_run, (get_current_proxy_disabled py_str rt cfg l w He).
    reflexivity.
  - intros cmd l' w'. rewrite bind_run.
    destruct (get_current_proxy py_str rt cfg l w) as [[[[p|]|e] l1] w1] eqn:Hrun;
      [| |discriminate].
    + intros [= <- <- <-]. unfold mitmdump_command.
      destruct (bool_decide (p = "")) eqn:Hp; [left; reflexivity|]. right.
      apply bool_decide_eq_false in Hp.
      destruct (get_current_proxy_some_cases l w p l1 w1 Hrun)
        as [He [(_ & -> & Hup & _) | (_ & server & _ & ->)]].
      * exists p. auto.
      * exists p. auto.
    + intros [= <- <- <-]. left. reflexivity.
Qed.

(** ** Pauses and expiry times that cannot be *)



(** X30. A good reply that arrives when [now + ip_lifetime] falls outside
    the range of [datetime] does not give a lease: [_get_new_proxy] leaves
    with [OverflowError], raised by the computation of the expiry time.
    The new address has been stored by then, the expiry time, the time of
    the refresh and the failure count have not, so the lease holds the new
    address beside the old expiry time. *)
Theorem expiry_out_of_range_leaves_lease_half_written l w r rest server :
  0 < max_retries cfg →
  replies w = r :: rest →
  reply_server (http_result r) = Some server →
  ¬ (datetime_min ≤ clock w + latency r + timedelta_seconds (ip_lifetime cfg)
       ≤ datetime_max) →
  _get_new_proxy py_str rt cfg l w =
    (Raise OverflowError,
     {| enabled := enabled l;
        upstream_proxy := Some ("http://" +:+ py_str server);
        proxy_expiry_time := proxy_expiry_time l;
        last_proxy_refresh := last_proxy_refresh l;
        consecutive_failures := consecutive_failures l |},
     {| clock := clock w + latency r; replies := rest;
        events := events w ++ [EvGetNewProxy; EvHttpGet] |}).
Proof.
  intros Hmax Er Hs Hout. unfold _get_new_proxy. rewrite bind_run.
  unfold emit at 1. cbv beta iota. rewrite bind_run.
  assert (∃ n, Z.to_nat (max_retries cfg) = S n) as [n ->]
    by (exists (Z.to_nat (max_retries cfg) - 1)%nat; lia).
  rewrite (attempt_loop_overflow n 0 l _ r rest server); [|exact Er|exact Hs|exact Hout].
  simpl. rewrite <- app_assoc. reflexivity.
Qed.

End ManagerExtra.

Lemma get_new_proxy_succeeds_after_failures_witness :
  _get_new_proxy Examples.str_of_server Examples.cpython Examples.pool_config Examples.tripped_lease
    (Examples.world_at Examples.noon
       [Examples.bad_reply; Examples.bad_reply; Examples.good_reply])
  = (Ret true,
     {| enabled := false;
        upstream_proxy := Some "http://10.0.0.1:8000";
        proxy_expiry_time := Some (Examples.noon + timedelta_seconds 70);
        last_proxy_refresh := Some (Examples.noon + timedelta_seconds 10);
        consecutive_failures := 0 |},
     {| clock := Examples.noon + timedelta_seconds 10; replies := [];
        events := [ EvGetNewProxy; EvHttpGet; EvSleep 5; EvHttpGet; EvSleep 5;
                    EvHttpGet ] |}).
Proof.
  refine (get_new_proxy_succeeds_after_failures Examples.str_of_server Examples.cpython
            Examples.pool_config Examples.tripped_lease
            (Examples.world_at Examples.noon
               [Examples.bad_reply; Examples.bad_reply; Examples.good_reply])
            2 Examples.good_reply (JStr "10.0.0.1:8000") _ _ _ eq_refl eq_refl _).
  - right. unfold can_pause. simpl. lia.
  - vm_compute. lia.
  - repeat constructor.
  - vm_compute. split; discriminate.
Defined.


Lemma lock_is_always_released_witness :
  lock_discipline false
    (events
       (run_ops Examples.str_of_server Examples.cpython Examples.pool_config
          [CallGetCurrentProxy; CallGetNewProxy; CallRefreshProxyIfNeeded]
          Examples.fresh_lease
          (Examples.world_at Examples.noon
             [ Examples.bad_reply;
               {| latency := 0; http_result := Body (JList []) |};
               Examples.good_reply ])).2)
  = Some false.
Proof.
  exact (lock_is_always_released Examples.str_of_server Examples.cpython Examples.pool_config
           [CallGetCurrentProxy; CallGetNewProxy; CallRefreshProxyIfNeeded]
           Examples.fresh_lease
           (Examples.world_at Examples.noon
              [ Examples.bad_reply;
                {| latency := 0; http_result := Body (JList []) |};
                Examples.good_reply ])
           eq_refl).
Defined.

Lemma get_current_proxy_returns_live_address_witness :
  let w := Examples.world_at Examples.noon [Examples.good_reply] in
  let w' := {| clock := Examples.noon; replies := [];
               events := [EvAcquire; EvGetNewProxy; EvHttpGet; EvRelease] |} in
  enabled Examples.leased = true ∧
  upstream_proxy Examples.leased = Some "http://10.0.0.1:8000" ∧
  ((_is_proxy_valid Examples.pool_config Examples.fresh_lease (clock w) = true ∧
    Examples.leased = Examples.fresh_lease ∧ replies w' = replies w) ∨
   (_is_proxy_valid Examples.pool_config Examples.fresh_lease (clock w) = false ∧
    (∃ server, "http://10.0.0.1:8000" = "http://" +:+ Examples.str_of_server server) ∧
    proxy_expiry_time Examples.leased =
      Some (clock w' + timedelta_seconds (ip_lifetime Examples.pool_config)) ∧
    last_proxy_refresh Examples.leased = Some (clock w') ∧
    consecutive_failures Examples.leased = 0)).
Proof.
  exact (get_current_proxy_returns_live_address Examples.str_of_server Examples.cpython
           Examples.pool_config Examples.fresh_lease
           (Examples.world_at Examples.noon [Examples.good_reply])
           "http://10.0.0.1:8000" Examples.leased
           {| clock := Examples.noon; replies := [];
              events := [EvAcquire; EvGetNewProxy; EvHttpGet; EvRelease] |}
           eq_refl).
Defined.

Lemma mitmproxy_upstream_witness :
  let upstream := mitmdump_command "8080" None
                  ++ ["--mode"; "upstream:http://10.0.0.1:8000"] in
  start_enhanced_mitmproxy Examples.str_of_server Examples.cpython Examples.pool_config "8080"
    Examples.tripped_lease Examples.tripped_world
    = (Ret (mitmdump_command "8080" None), Examples.tripped_lease,
       Examples.tripped_world) ∧
  (upstream = mitmdump_command "8080" None ∨
   ∃ p, p ≠ "" ∧ enabled Examples.leased = true ∧
        upstream_proxy Examples.leased = Some p ∧
        upstream = mitmdump_command "8080" None ++ ["--mode"; "upstream:" +:+ p]).
Proof.
  split.
  - exact (proj1 (mitmproxy_upstream Examples.str_of_server Examples.cpython Examples.pool_config
                    "8080" Examples.tripped_lease Examples.tripped_world) eq_refl).
  - exact (proj2 (mitmproxy_upstream Examples.str_of_server Examples.cpython Examples.pool_config
                    "8080" Examples.fresh_lease
                    (Examples.world_at Examples.noon [Examples.good_reply]))
                 _ Examples.leased
                 {| clock := Examples.noon; replies := [];
                    events := [EvAcquire; EvGetNewProxy; EvHttpGet; EvRelease] |}
                 eq_refl).
Defined.


Lemma expiry_out_of_range_leaves_lease_half_written_witness :
  _get_new_proxy Examples.str_of_server Examples.cpython
    Examples.endless_lease_config Examples.leased
    (Examples.world_at (Examples.noon + timedelta_seconds 51) [Examples.good_reply]) =
    (Raise OverflowError,
     {| enabled := true;
        upstream_proxy := Some "http://10.0.0.1:8000";
        proxy_expiry_time := Some (Examples.noon + timedelta_seconds 60);
        last_proxy_refresh := Some Examples.noon;
        consecutive_failures := 0 |},
     {| clock := Examples.noon + timedelta_seconds 51; replies := [];
        events := [EvGetNewProxy; EvHttpGet] |}).
Proof.
  refine (expiry_out_of_range_leaves_lease_half_written Examples.str_of_server
            Examples.cpython Examples.endless_lease_config Examples.leased
            (Examples.world_at (Examples.noon + timedelta_seconds 51)
                               [Examples.good_reply])
            Examples.good_reply [] (JStr "10.0.0.1:8000") _ eq_refl eq_refl _).
  - simpl. lia.
  - vm_compute. intros [_ H]. apply H. reflexivity.
Defined.

End ProxyExtra.
